(** * dynamic_imdb: entity-driven discovery of IMDb works

    A shallow embedding of [flexget/plugins/input/dynamic_imdb.py] and the
    properties of its pipeline: identifier resolution, work enumeration,
    entry assembly and the [max_entries] cap.

    Python objects that the plugin mutates (the configuration dict and the
    lists stored in it) live in a heap of objects addressed by references, so
    that two names for one list see each other's updates.  Exceptions, the log
    and the calls made to the IMDbPY handle are explicit: a computation maps a
    world to an outcome and the world it leaves behind. *)

From Stdlib Require Import Ascii String QArith.
From stdpp Require Import gmap strings list fin_maps pretty.
Local Close Scope Q_scope.

(** ** Module-level constants *)

Definition JOB_TYPES : list string :=
  ["actor"; "director"; "producer"; "writer"; "self";
   "editor"; "miscellaneous"; "editorial department"; "cinematographer";
   "visual effects"; "thanks"; "music department"].

Definition CONTENT_TYPES : list string :=
  ["movie"; "tv series"; "tv mini series"; "video game"; "video movie";
   "tv movie"; "episode"].

(** The keys of [ENTITIES_FORMATS]. *)
Inductive entity_type := Person | Company | Character.

#[global] Instance entity_type_eq_dec : EqDecision entity_type.
Proof. solve_decision. Defined.

(** The patterns of [ENTITIES_FORMATS] all have the shape
    [<two letters>(\d{7})]: a literal prefix followed by one group of a fixed
    number of decimal digits. *)
Record format := { fmt_prefix : string; fmt_digits : nat }.

Definition ENTITIES_FORMATS (k : entity_type) : format :=
  match k with
  | Person => {| fmt_prefix := "nm"; fmt_digits := 7 |}
  | Company => {| fmt_prefix := "co"; fmt_digits := 7 |}
  | Character => {| fmt_prefix := "ch"; fmt_digits := 7 |}
  end.

(** ** Regular-expression search *)

Definition is_digit (c : ascii) : bool :=
  (48 <=? nat_of_ascii c)%nat && (nat_of_ascii c <=? 57)%nat.

(** [\d{n}] at the start of [s]: the [n] digits read, if they are there. *)
Fixpoint read_digits (n : nat) (s : string) : option string :=
  match n with
  | O => Some ""
  | S n' =>
      match s with
      | String c s' =>
          if is_digit c then String c <$> read_digits n' s' else None
      | EmptyString => None
      end
  end.

Fixpoint strip_prefix (p s : string) : option string :=
  match p with
  | EmptyString => Some s
  | String a p' =>
      match s with
      | String b s' => if Ascii.eqb a b then strip_prefix p' s' else None
      | EmptyString => None
      end
  end.

(** The pattern matched at the first character of [s]; the result is
    [m.group(1)]. *)
Definition match_here (f : format) (s : string) : option string :=
  match strip_prefix (fmt_prefix f) s with
  | Some rest => read_digits (fmt_digits f) rest
  | None => None
  end.

(** [re.search(pattern, s)]: the leftmost position where the pattern matches. *)
Fixpoint re_search (f : format) (s : string) : option string :=
  match match_here f s with
  | Some g => Some g
  | None =>
      match s with
      | String _ s' => re_search f s'
      | EmptyString => None
      end
  end.

(** ** Data *)

(** A work as IMDbPY hands it over: a dict-like [Movie] object.  [movieID] is
    the backend's identifier; the other fields are the keys the plugin and its
    documentation mention, [None] when the key is missing. *)
Record Movie := {
  movieID : string;
  title : option string;
  kind : option string;
  rating : option Q
}.

(** A person, company or character: labels mapped to lists of works. *)
Abbreviation Entity := (gmap string (list Movie)).

(** [Entry(title=..., imdb_id=..., url='')]. *)
Record Entry := {
  entry_title : string;
  imdb_id : string;
  url : string
}.

(** References into the heap of mutable objects. *)
Abbreviation loc := nat.

(** Values stored in a configuration dict: YAML scalars, and references to
    lists of strings. *)
Inductive value :=
  | VStr (s : string)
  | VNum (q : Q)
  | VBool (b : bool)
  | VList (r : loc).

Inductive obj :=
  | OList (l : list string)
  | ODict (d : gmap string value).

(** ** Exceptions, log and world *)

Inductive exn :=
  | KeyError (key : string)
  | TypeError
  | IMDbError.

Inductive outcome (A : Type) :=
  | Ret (a : A)
  | Raise (e : exn).
Arguments Ret {A} a.
Arguments Raise {A} e.

Inductive level := DEBUG | INFO | WARNING | ERROR.

(** One constructor per message the plugin writes. *)
Inductive message :=
  | MsgImdbpyRequired
  | MsgStarting (k : entity_type) (e : Entity)
  | MsgSearching (job_and_content : string)
  | MsgFoundItem (t : string)
  | MsgAlreadyFound (m : Movie)
  | MsgConvertedContentType
  | MsgConvertedJobType
  | MsgCouldNotResolve (e : exn)
  | MsgNoItemList
  | MsgRetrieved (n : nat)
  | MsgTestMode
  | MsgTestTitle (t : string)
  | MsgTestImdbId (i : string)
  | MsgInvalidEntry (e : Entry)
  | MsgTooManyEntries (n : nat) (max : option value).

Inductive call :=
  | get_person_call (personID : string)
  | get_company_call (companyID : string)
  | get_character_call (characterID : string)
  | update_call (m : Movie)
  | get_imdbID_call (m : Movie).

Inductive event :=
  | Log (lvl : level) (msg : message)
  | Call (c : call).

Record world := {
  heap : list obj;
  trace : list event
}.

(** ** The monad of plugin computations *)

Definition M (A : Type) : Type := world → outcome A * world.

#[global] Instance M_ret : MRet M := λ A (a : A) w, (Ret a, w).

#[global] Instance M_bind : MBind M := λ A B (f : A → M B) (m : M A) w,
  match m w with
  | (Ret a, w') => f a w'
  | (Raise e, w') => (Raise e, w')
  end.

Definition raise {A} (e : exn) : M A := λ w, (Raise e, w).

(** [try: body except Exception as e: handler]. *)
Definition try_except {A} (body : M A) (handler : exn → M A) : M A := λ w,
  match body w with
  | (Ret a, w') => (Ret a, w')
  | (Raise e, w') => handler e w'
  end.

Definition emit (ev : event) : M unit := λ w,
  (Ret (), {| heap := heap w; trace := trace w ++ [ev] |}).

Definition log (lvl : level) (msg : message) : M unit := emit (Log lvl msg).

(** Lifting a call to the backend: the call is recorded, then it returns or
    raises. *)
Definition backend {A} (c : call) (r : outcome A) : M A := λ w,
  (r, {| heap := heap w; trace := trace w ++ [Call c] |}).

(** Object allocation and access. *)
Definition alloc (o : obj) : M loc := λ w,
  (Ret (length (heap w)), {| heap := heap w ++ [o]; trace := trace w |}).

Definition read (r : loc) : M obj := λ w,
  match heap w !! r with
  | Some o => (Ret o, w)
  | None => (Raise TypeError, w)
  end.

Definition write (r : loc) (o : obj) : M unit := λ w,
  (Ret (), {| heap := <[r := o]> (heap w); trace := trace w |}).

Definition read_dict (r : loc) : M (gmap string value) :=
  o ← read r;
  match o with
  | ODict d => mret d
  | OList _ => raise TypeError
  end.

Definition read_list (r : loc) : M (list string) :=
  o ← read r;
  match o with
  | OList l => mret l
  | ODict _ => raise TypeError
  end.

(** [d.get(key)], [d.setdefault(key, v)], [d[key] = v] on the dict at [r]. *)
Definition dict_get (r : loc) (key : string) : M (option value) :=
  d ← read_dict r; mret (d !! key).

Definition dict_setdefault (r : loc) (key : string) (v : value) : M unit :=
  d ← read_dict r;
  match d !! key with
  | Some _ => mret ()
  | None => write r (ODict (<[key := v]> d))
  end.

Definition dict_setitem (r : loc) (key : string) (v : value) : M unit :=
  d ← read_dict r; write r (ODict (<[key := v]> d)).

(** [l.append(x)] on the list at [r]. *)
Definition list_append (r : loc) (x : string) : M unit :=
  l ← read_list r; write r (OList (l ++ [x])).

(** [for x in l: body], the loop's local variables threaded as [s]. *)
Fixpoint for_each {A S : Type} (l : list A) (body : S → A → M S) (s : S) : M S :=
  match l with
  | [] => mret s
  | x :: l' => s' ← body s x; for_each l' body s'
  end.

(** [x in l] on a Python list, with [eq a b] deciding [a == b].  Python
    tries [is] before [==]; for a reflexive [==] the two tests agree. *)
Definition contains {A : Type} (eq : A → A → bool) (x : A) (l : list A) : bool :=
  existsb (λ y, eq y x) l.

(** [obj[key]] on a dict-like object whose field for [key] is [field]. *)
Definition getitem {A : Type} (key : string) (field : option A) : M A :=
  match field with
  | Some v => mret v
  | None => raise (KeyError key)
  end.

(** ['literal' + x]: concatenating [None] to a string is a [TypeError]. *)
Definition str_operand (x : option string) : M string :=
  match x with
  | Some s => mret s
  | None => raise TypeError
  end.

(** Iterating over (or testing membership in) a configuration value: a list
    yields its items; numbers and booleans are not iterable.  A string never
    gets here from [on_task_input]: [prepare_config] has wrapped it. *)
Definition iterate (v : option value) : M (list string) :=
  match v with
  | Some (VList r) => read_list r
  | _ => raise TypeError
  end.

Definition append (v : option value) (x : string) : M unit :=
  match v with
  | Some (VList r) => list_append r x
  | _ => raise TypeError
  end.

(** ** External collaborators *)

(** The IMDbPY handle [self.ia].  Each call returns or raises.  [update]
    hydrates a work and gives the hydrated record (IMDbPY skips information
    sets it has already fetched, so hydrating twice is hydrating once);
    [movie_eq] is [==] on [Movie] objects. *)
Record IMDb := {
  get_person : string → outcome Entity;
  get_company : string → outcome Entity;
  get_character : string → outcome Entity;
  update : Movie → outcome Movie;
  get_imdbID : Movie → outcome (option string);
  movie_eq : Movie → Movie → bool
}.

(** What the plugin reads of [task]. *)
Record Task := { options_test : bool }.

(** What the plugin uses of [flexget.entry.Entry]: [isvalid] and [==]. *)
Record EntryClass := {
  isvalid : Entry → bool;
  entry_eq : Entry → Entry → bool
}.

(** The configuration as the host passes it: a bare string or a dict. *)
Inductive config_value :=
  | ConfigStr (s : string)
  | ConfigDict (r : loc).

(** ** The plugin *)

Section DynamicIMDB.

(** The order in which [ENTITIES_FORMATS.items()] yields the three kinds,
    the outcome of [from imdb import IMDb], and the host's [Entry]. *)
Context (items_order : list entity_type)
        (imdb_import : option IMDb)
        (E : EntryClass).

Definition lookup_entity (ia : IMDb) (k : entity_type) (g : string) : M Entity :=
  match k with
  | Person => backend (get_person_call g) (get_person ia g)
  | Company => backend (get_company_call g) (get_company ia g)
  | Character => backend (get_character_call g) (get_character ia g)
  end.

Fixpoint entity_type_and_object_loop (ia : IMDb) (items : list entity_type)
    (imdb_id : string) : M (option (entity_type * Entity)) :=
  match items with
  | [] => mret None
  | imdb_entity_type :: items' =>
      match re_search (ENTITIES_FORMATS imdb_entity_type) imdb_id with
      | Some g1 =>
          shown ← lookup_entity ia imdb_entity_type g1;
          log INFO (MsgStarting imdb_entity_type shown);;
          entity ← lookup_entity ia imdb_entity_type g1;
          mret (Some (imdb_entity_type, entity))
      | None => entity_type_and_object_loop ia items' imdb_id
      end
  end.

(** [re.search] raises [TypeError] on anything but a string; falling off
    the loop returns [None]. *)
Definition entity_type_and_object (ia : IMDb) (imdb_id : option value)
    : M (option (entity_type * Entity)) :=
  match imdb_id with
  | Some (VStr s) => entity_type_and_object_loop ia items_order s
  | _ =>
      match items_order with
      | [] => mret None
      | _ :: _ => raise TypeError
      end
  end.

(** The body of [for movie in movies_by_job_type]. *)
Definition inspect_movie (ia : IMDb) (content_types : list string)
    (movies : list Movie) (movie : Movie) : M (list Movie) :=
  movie ← backend (update_call movie) (update ia movie);
  if negb (contains (movie_eq ia) movie movies) then
    k ← getitem "kind" (kind movie);
    if bool_decide (k ∈ content_types) then
      t ← str_operand (title movie);
      log DEBUG (MsgFoundItem t);;
      mret (movies ++ [movie])
    else
      log DEBUG (MsgAlreadyFound movie);; mret movies
  else
    log DEBUG (MsgAlreadyFound movie);; mret movies.

(** [entity_object.get(job_and_content, entity_object.get(job_type))]. *)
Definition movies_by_job_type (entity_object : Entity)
    (job_type content_type : string) : option (list Movie) :=
  let fallback := entity_object !! job_type in
  match entity_object !! (job_type +:+ " " +:+ content_type) with
  | Some l => Some l
  | None => fallback
  end.

(** The body of [for content_type in content_types]. *)
Definition search_label (ia : IMDb) (entity_object : Entity)
    (content_types : list string) (job_type : string)
    (movies : list Movie) (content_type : string) : M (list Movie) :=
  let job_and_content := job_type +:+ " " +:+ content_type in
  log DEBUG (MsgSearching job_and_content);;
  match movies_by_job_type entity_object job_type content_type with
  | Some (m :: l) => for_each (m :: l) (inspect_movie ia content_types) movies
  | _ => mret movies
  end.

Definition items_by_entity (ia : IMDb) (entity_type : entity_type)
    (entity_object : Entity) (content_types job_types : option value)
    : M (option (list Movie)) :=
  match entity_type with
  | Company => mret (entity_object !! "production companies")
  | Character =>
      mret (Some (default [] (entity_object !! "feature")
                  ++ default [] (entity_object !! "tv")
                  ++ default [] (entity_object !! "video-game")
                  ++ default [] (entity_object !! "video")))
  | Person =>
      requested ← iterate job_types;
      (if bool_decide ("actor" ∈ requested)
       then append job_types "actress" else mret ());;
      jts ← iterate job_types;
      movies ← for_each jts (λ movies job_type,
                 cts ← iterate content_types;
                 for_each cts (search_label ia entity_object cts job_type) movies) [];
      mret (Some movies)
  end.

Definition prepare_config (config : config_value) : M loc :=
  config ← match config with
           | ConfigDict r => mret r
           | ConfigStr s => alloc (ODict {[ "id" := VStr s ]})
           end;
  l ← alloc (OList [hd "" CONTENT_TYPES]);
  dict_setdefault config "content_types" (VList l);;
  l ← alloc (OList [hd "" JOB_TYPES]);
  dict_setdefault config "job_types" (VList l);;
  dict_setdefault config "max_entries" (VNum 200);;
  ct ← dict_get config "content_types";
  match ct with
  | Some (VStr s) =>
      log DEBUG MsgConvertedContentType;;
      l ← alloc (OList [s]);
      dict_setitem config "content_types" (VList l)
  | _ => mret ()
  end;;
  d ← read_dict config;
  jt ← getitem "job_types" (d !! "job_types");
  match jt with
  | VStr s =>
      log DEBUG MsgConvertedJobType;;
      l ← alloc (OList [s]);
      dict_setitem config "job_types" (VList l)
  | _ => mret ()
  end;;
  mret config.

(** The body of [for item in items]. *)
Definition add_entry (ia : IMDb) (task : Task)
    (entries : list Entry) (item : Movie) : M (list Entry) :=
  t ← getitem "title" (title item);
  i ← backend (get_imdbID_call item) (get_imdbID ia item);
  i ← str_operand i;
  let entry := {| entry_title := t; imdb_id := "tt" +:+ i; url := "" |} in
  if isvalid E entry then
    if negb (contains (entry_eq E) entry entries) then
      (if options_test task then
         log INFO MsgTestMode;;
         log INFO (MsgTestTitle (entry_title entry));;
         log INFO (MsgTestImdbId (imdb_id entry))
       else mret ());;
      mret (entries ++ [entry])
    else mret entries
  else
    log ERROR (MsgInvalidEntry entry);; mret entries.

(** The assembly loop: [entries = []; for item in items: ...]. *)
Definition assemble (ia : IMDb) (task : Task) (items : list Movie)
    : M (list Entry) :=
  for_each items (add_entry ia task) [].

(** [n <= max] for an int [n], as CPython 2 orders values: numbers among
    themselves ([True] is 1), [None] below every number, strings and lists
    above. *)
Definition int_le (n : nat) (max : option value) : bool :=
  match max with
  | Some (VNum q) => Qle_bool (inject_Z (Z.of_nat n)) q
  | Some (VBool b) => bool_decide (n ≤ (if b then 1 else 0))
  | Some (VStr _) | Some (VList _) => true
  | None => false
  end.

(** The last statement of [on_task_input]. *)
Definition cap (entries : list Entry) (max : option value)
    : M (option (list Entry)) :=
  if int_le (length entries) max then mret (Some entries)
  else
    log WARNING (MsgTooManyEntries (length entries) max);;
    mret None.

(** [entity_type, entity_object = ...]: unpacking [None] is a
    [TypeError]. *)
Definition unpack {A : Type} (x : option A) : M A :=
  match x with
  | Some p => mret p
  | None => raise TypeError
  end.

(** Everything before the cap: [None] when the run has already returned,
    else the configuration and the entries collected. *)
Definition collect (task : Task) (ia : IMDb) (config : config_value)
    : M (option (loc * list Entry)) :=
  config ← prepare_config config;
  resolved ← try_except
    (imdb_id ← dict_get config "id";
     found ← entity_type_and_object ia imdb_id;
     pair ← unpack found;
     mret (Some pair))
    (λ e, log ERROR (MsgCouldNotResolve e);; mret None);
  match resolved with
  | None => mret None
  | Some (entity_type, entity_object) =>
      content_types ← dict_get config "content_types";
      job_types ← dict_get config "job_types";
      items ← items_by_entity ia entity_type entity_object
                content_types job_types;
      match items with
      | None | Some [] => log ERROR MsgNoItemList;; mret None
      | Some items =>
          log INFO (MsgRetrieved (length items));;
          entries ← assemble ia task items;
          mret (Some (config, entries))
      end
  end.

Definition on_task_input (task : Task) (config : config_value)
    : M (option (list Entry)) :=
  match imdb_import with
  | None => log ERROR MsgImdbpyRequired;; mret None
  | Some ia =>
      collected ← collect task ia config;
      match collected with
      | None => mret None
      | Some (config, entries) =>
          max ← dict_get config "max_entries";
          cap entries max
      end
  end.

End DynamicIMDB.

(** ** The configuration schema *)

(** [{'type': 'string', 'enum': enum}], or an array of such items. *)
Definition in_enum (h : list obj) (enum : list string) (v : value) : bool :=
  match v with
  | VStr s => bool_decide (s ∈ enum)
  | VList r =>
      match h !! r with
      | Some (OList l) => forallb (λ s, bool_decide (s ∈ enum)) l
      | _ => false
      end
  | _ => false
  end.

Definition schema_properties : list string :=
  ["id"; "job_types"; "content_types"; "max_entries"].

(** [DynamicIMDB.schema]: a string, or an object with a string [id], the
    listed properties and no other. *)
Definition schema (h : list obj) (config : config_value) : bool :=
  match config with
  | ConfigStr _ => true
  | ConfigDict r =>
      match h !! r with
      | Some (ODict d) =>
          match d !! "id" with Some (VStr _) => true | _ => false end
          && from_option (in_enum h JOB_TYPES) true (d !! "job_types")
          && from_option (in_enum h CONTENT_TYPES) true (d !! "content_types")
          && match d !! "max_entries" with
             | Some (VNum _) | None => true
             | _ => false
             end
          && forallb (λ k, bool_decide (k ∈ schema_properties)) (map_to_list d).*1
      | _ => false
      end
  end.

(** ** Notions used to state the properties *)

(** The labels written by the "Searching for movies" messages of a trace, in
    order. *)
Definition searched (t : list event) : list string :=
  omap (λ ev, match ev with
              | Log DEBUG (MsgSearching label) => Some label
              | _ => None
              end) t.

(** The backend calls of a trace, in order. *)
Definition calls (t : list event) : list call :=
  omap (λ ev, match ev with Call c => Some c | Log _ _ => None end) t.

(** The backend lookup of a kind, and the call it is recorded as. *)
Definition get_entity (ia : IMDb) (k : entity_type) (g : string) : outcome Entity :=
  match k with
  | Person => get_person ia g
  | Company => get_company ia g
  | Character => get_character ia g
  end.

Definition get_entity_call (k : entity_type) (g : string) : call :=
  match k with
  | Person => get_person_call g
  | Company => get_company_call g
  | Character => get_character_call g
  end.

(** The dict a configuration stands for before it is prepared: the one at
    its reference, or [{'id': s}] for a bare string. *)
Definition config_dict (h : list obj) (config : config_value)
    : option (gmap string value) :=
  match config with
  | ConfigStr s => Some {[ "id" := VStr s ]}
  | ConfigDict r =>
      match h !! r with
      | Some (ODict d) => Some d
      | _ => None
      end
  end.

(** [m] run in [w] returns (does not raise), and [Q] holds of the value and
    the world it leaves. *)
Definition returns {A : Type} (m : M A) (w : world) (Q : A → world → Prop) : Prop :=
  ∃ a w', m w = (Ret a, w') ∧ Q a w'.

(** What [prepare_config] maintains: the dict at [r] keeps the value [idv]
    of its [id], holds the keys [keys], and [cs] are the calls made so far. *)
Definition prepared (r : loc) (idv : option value) (cs : list call)
    (keys : list string) (w : world) : Prop :=
  (∃ d, heap w !! r = Some (ODict d) ∧ d !! "id" = idv
        ∧ ∀ k, k ∈ keys → is_Some (d !! k))
  ∧ calls (trace w) = cs.

(** The job types a Person is searched under, once [actress] is added. *)
Definition expanded (job_types : list string) : list string :=
  if bool_decide ("actor" ∈ job_types) then job_types ++ ["actress"]
  else job_types.

(** The heap once the list at [r] has been expanded. *)
Definition expanded_heap (r : loc) (job_types : list string) (h : list obj)
    : list obj :=
  if bool_decide ("actor" ∈ job_types)
  then <[r := OList (job_types ++ ["actress"])]> h else h.

(** The labels of the cartesian product, in the order of the two loops. *)
Definition labels (job_types content_types : list string) : list string :=
  job_type ← job_types;
  content_type ← content_types;
  [job_type +:+ " " +:+ content_type].

(** The works found under the labels of one job type, and of all of them. *)
Definition candidates_of (entity_object : Entity)
    (content_types : list string) (job_type : string) : list Movie :=
  content_type ← content_types;
  default [] (movies_by_job_type entity_object job_type content_type).

Definition candidates (entity_object : Entity)
    (job_types content_types : list string) : list Movie :=
  job_type ← job_types; candidates_of entity_object content_types job_type.

(** A work after hydration, when the backend delivers it. *)
Definition hydrate (ia : IMDb) (m : Movie) : option Movie :=
  match update ia m with
  | Ret m' => Some m'
  | Raise _ => None
  end.

(** One step of a first-seen selection: [x] joins [acc] when it passes [P] and
    nothing in [acc] equals it. *)
Definition add_new {A : Type} (eq : A → A → bool) (P : A → bool)
    (acc : list A) (x : A) : list A :=
  if negb (contains eq x acc) && P x then acc ++ [x] else acc.

Definition first_seen {A : Type} (eq : A → A → bool) (P : A → bool)
    (l : list A) (acc : list A) : list A :=
  fold_left (add_new eq P) l acc.

(** [movie['kind'] in content_types], false when the key is missing. *)
Definition kind_in (content_types : list string) (m : Movie) : bool :=
  match kind m with
  | Some k => bool_decide (k ∈ content_types)
  | None => false
  end.

(** The entry built from a work, when it has a title and an IMDb id. *)
Definition made (ia : IMDb) (item : Movie) : option Entry :=
  match title item, get_imdbID ia item with
  | Some t, Ret (Some i) =>
      Some {| entry_title := t; imdb_id := "tt" +:+ i; url := "" |}
  | _, _ => None
  end.

(** No element of [l] equals a later one. *)
Definition distinct {A : Type} (eq : A → A → bool) (l : list A) : Prop :=
  ∀ i j x y, i < j → l !! i = Some x → l !! j = Some y → eq x y = false.

(** [eq] compares the key [f] and nothing else. *)
Definition eq_by {A K : Type} (f : A → K) (eq : A → A → bool) : Prop :=
  ∀ x y, eq x y = true ↔ f x = f y.

(** Two worlds with the same heap and the same searches. *)
Definition quiet (w w' : world) : Prop :=
  heap w' = heap w ∧ searched (trace w') = searched (trace w).

(** A work the backend hydrates into a record with [kind] and [title]. *)
Definition healthy (ia : IMDb) (m : Movie) : Prop :=
  ∃ m', update ia m = Ret m' ∧ is_Some (kind m') ∧ is_Some (title m').

(** A computation that leaves the heap as it found it, whatever its
    outcome. *)
Definition heap_stable {A : Type} (m : M A) : Prop :=
  ∀ w res w', m w = (res, w') → heap w' = heap w.

(** ** Example inputs *)

Definition empty_world : world := {| heap := []; trace := [] |}.

Definition ENTITIES_FORMATS_items : list entity_type :=
  [Person; Company; Character].

(** Works compared by identifier. *)
Definition same_movieID (a b : Movie) : bool :=
  String.eqb (movieID a) (movieID b).

(** Two comparisons of entries: by canonical id, and by title and url. *)
Definition same_imdb_id (a b : Entry) : bool :=
  String.eqb (imdb_id a) (imdb_id b).

Definition same_title_url (a b : Entry) : bool :=
  String.eqb (entry_title a) (entry_title b) && String.eqb (url a) (url b).

(** An [Entry] class as flexget's: [==] compares the title and the url the
    entry was built with, and an entry whose title and url are strings is
    valid. *)
Definition plain_entries : EntryClass :=
  {| isvalid := λ _, true; entry_eq := same_title_url |}.

Definition quiet_task : Task := {| options_test := false |}.

(** A backend that answers every lookup with [e] and hydrates with [upd]. *)
Definition backend_with (e : outcome Entity) (upd : Movie → outcome Movie) : IMDb :=
  {| get_person := λ _, e;
     get_company := λ _, e;
     get_character := λ _, e;
     update := upd;
     get_imdbID := λ m, Ret (Some (movieID m));
     movie_eq := same_movieID |}.

Definition movie (i t k : string) : Movie :=
  {| movieID := i; title := Some t; kind := Some k; rating := None |}.

Definition heat : Movie := movie "0113277" "Heat" "movie".
Definition ronin : Movie := movie "0122690" "Ronin" "movie".
Definition heat_retitled : Movie := movie "0113277" "Heat (1995)" "movie".

(** Three actor credits, one of them also filed as an actress credit. *)
Definition a_person : Entity :=
  {[ "actor movie" := [heat; ronin]; "actress movie" := [ronin] ]}.

(** The same work filed under two fields of a character. *)
Definition a_character : Entity :=
  {[ "feature" := [heat]; "video" := [heat] ]}.

(** A company with [n] works, numbered from 0. *)
Definition a_company (n : nat) : Entity :=
  {[ "production companies" :=
       (λ i, movie (pretty i) ("Work " +:+ pretty i) "movie") <$> seq 0 n ]}.

(** Works with a missing key or a missing or low rating. *)
Definition untitled : Movie :=
  {| movieID := "0000001"; title := None; kind := Some "movie"; rating := None |}.

Definition kindless : Movie :=
  {| movieID := "0000002"; title := Some "Untyped"; kind := None; rating := None |}.

Definition untitled_series : Movie :=
  {| movieID := "0000003"; title := None; kind := Some "tv series";
     rating := None |}.




(** The entries of [a_company n]. *)
Definition company_entries (n : nat) : list Entry :=
  (λ i, {| entry_title := "Work " +:+ pretty i;
           imdb_id := "tt" +:+ pretty i;
           url := "" |}) <$> seq 0 n.

(** The dict [prepare_config] builds at 0 from a bare identifier, its two
    default lists being at 1 and 2. *)
Definition bare_config (s : string) : gmap string value :=
  {[ "id" := VStr s; "content_types" := VList 1; "job_types" := VList 2;
     "max_entries" := VNum 200 ]}.

(** Hydration that fails: the backend cannot be reached. *)
Definition unreachable : Movie → outcome Movie := λ _, Raise IMDbError.

(** A world holding the lists [["actor"]] at 0 and [["movie"]] at 1. *)
Definition actor_movie_world : world :=
  {| heap := [OList ["actor"]; OList ["movie"]]; trace := [] |}.


(** A world holding, at 0, a configuration whose [job_types] is the list
    at 1. *)
Definition actor_config_world : world :=
  {| heap := [ODict {[ "id" := VStr "nm0000375"; "job_types" := VList 1 ]};
              OList ["actor"]];
     trace := [] |}.

(** The run of the plugin on the usual order, entries and task. *)
Definition run_plugin (ia : IMDb) (config : config_value) (w : world)
    : outcome (option (list Entry)) * world :=
  on_task_input ENTITIES_FORMATS_items (Some ia) plain_entries quiet_task
    config w.

Definition entry_of (t i : string) : Entry :=
  {| entry_title := t; imdb_id := "tt" +:+ i; url := "" |}.


(** ** Notions used for the further properties *)

Fixpoint digits_only (s : string) : bool :=
  match s with
  | EmptyString => true
  | String c s' => is_digit c && digits_only s'
  end.

(** [rest] starts with the prefix of [f] followed by the digits [g]. *)
Definition occurrence (f : format) (g rest : string) : Prop :=
  ∃ post, rest = fmt_prefix f +:+ g +:+ post
          ∧ String.length g = fmt_digits f ∧ digits_only g = true.

(** [d.setdefault(key, v)] as a function of the dict. *)
Definition with_default (key : string) (v : value) (d : gmap string value)
    : gmap string value :=
  match d !! key with
  | Some _ => d
  | None => <[key := v]> d
  end.

Definition as_string (v : option value) : option string :=
  match v with
  | Some (VStr s) => Some s
  | _ => None
  end.

(** What [prepare_config] makes of a dict [d] when the next free reference
    is [n]: the dict it leaves, the lists it allocates from [n] on, and the
    messages it logs. *)
Definition with_defaults (n : loc) (d : gmap string value) : gmap string value :=
  with_default "max_entries" (VNum 200)
    (with_default "job_types" (VList (S n))
       (with_default "content_types" (VList n) d)).

Definition wrapped_lists (key : string) (d : gmap string value) : list obj :=
  match as_string (d !! key) with
  | Some s => [OList [s]]
  | None => []
  end.

Definition prepared_dict (n : loc) (d : gmap string value) : gmap string value :=
  let d3 := with_defaults n d in
  let d4 := match as_string (d3 !! "content_types") with
            | Some _ => <["content_types" := VList (n + 2)]> d3
            | None => d3
            end in
  match as_string (d3 !! "job_types") with
  | Some _ =>
      <["job_types" :=
          VList (n + 2 + length (wrapped_lists "content_types" d3))]> d4
  | None => d4
  end.

Definition prepared_lists (n : loc) (d : gmap string value) : list obj :=
  let d3 := with_defaults n d in
  [OList [hd "" CONTENT_TYPES]; OList [hd "" JOB_TYPES]]
  ++ wrapped_lists "content_types" d3 ++ wrapped_lists "job_types" d3.

Definition prepared_logs (n : loc) (d : gmap string value) : list event :=
  let d3 := with_defaults n d in
  match as_string (d3 !! "content_types") with
  | Some _ => [Log DEBUG MsgConvertedContentType]
  | None => []
  end
  ++ match as_string (d3 !! "job_types") with
     | Some _ => [Log DEBUG MsgConvertedJobType]
     | None => []
     end.

(** The world [w'] is [w] with the dict at [r] replaced by [d], the objects
    [xs] allocated and the events [ls] added. *)
Definition shape (r : loc) (d : gmap string value) (xs : list obj)
    (ls : list event) (w w' : world) : Prop :=
  heap w' = <[r := ODict d]> (heap w) ++ xs ∧ trace w' = trace w ++ ls.

(** The schema read as a property of the dict [d] in the heap [h]. *)
Definition dict_schema (h : list obj) (d : gmap string value) : Prop :=
  (∃ s, d !! "id" = Some (VStr s))
  ∧ (∀ v, d !! "job_types" = Some v → in_enum h JOB_TYPES v = true)
  ∧ (∀ v, d !! "content_types" = Some v → in_enum h CONTENT_TYPES v = true)
  ∧ (∀ v, d !! "max_entries" = Some v → ∃ q, v = VNum q)
  ∧ (∀ key, is_Some (d !! key) → key ∈ schema_properties).

(** What [prepare_config] makes of the value under [key], whose default is
    the one-item list [[dflt]], in a heap that held [n] objects: a missing
    value becomes a reference to a new list [[dflt]], a string [s] a
    reference to a new list [[s]], anything else stays. *)
Definition normalised (n : nat) (h' : list obj) (dflt : string)
    (before after : option value) : Prop :=
  match before with
  | None =>
      ∃ l, after = Some (VList l) ∧ n ≤ l ∧ h' !! l = Some (OList [dflt])
  | Some (VStr s) =>
      ∃ l, after = Some (VList l) ∧ n ≤ l ∧ h' !! l = Some (OList [s])
  | Some v => after = Some v
  end.

(** The works handed to [update], and the entries reported as invalid, in
    the order of a trace. *)
Definition hydrations (t : list event) : list Movie :=
  omap (λ ev, match ev with
              | Call (update_call m) => Some m
              | _ => None
              end) t.

Definition reported_invalid (t : list event) : list Entry :=
  omap (λ ev, match ev with
              | Log ERROR (MsgInvalidEntry e) => Some e
              | _ => None
              end) t.

(** The list a configuration asks for under a key whose default is [dflt]:
    the default when the key is missing, the one string, or the list
    referred to. *)
Definition requested (h : list obj) (dflt : string) (v : option value)
    : option (list string) :=
  match v with
  | None => Some [dflt]
  | Some (VStr s) => Some [s]
  | Some (VList r) =>
      match h !! r with
      | Some (OList l) => Some l
      | _ => None
      end
  | Some _ => None
  end.

(** The world after the entity [e] of kind [k] has been looked up on the
    digits [g]. *)
Definition resolved_world (k : entity_type) (g : string) (e : Entity)
    (w : world) : world :=
  {| heap := heap w;
     trace := trace w ++ [Call (get_entity_call k g);
                          Log INFO (MsgStarting k e);
                          Call (get_entity_call k g)] |}.

(** The outcome of the cap on [entries]. *)
Definition capped (entries : list Entry) (max : option value)
    : outcome (option (list Entry)) :=
  if int_le (length entries) max then Ret (Some entries) else Ret None.


(** The messages of test mode, and two worlds that differ in them only. *)
Definition test_message (ev : event) : bool :=
  match ev with
  | Log INFO MsgTestMode
  | Log INFO (MsgTestTitle _)
  | Log INFO (MsgTestImdbId _) => true
  | _ => false
  end.

Definition without_test_messages (t : list event) : list event :=
  List.filter (λ ev, negb (test_message ev)) t.

Definition same_but_test_messages (w1 w2 : world) : Prop :=
  heap w1 = heap w2
  ∧ without_test_messages (trace w1) = without_test_messages (trace w2).

(** Two computations that, from worlds differing in test messages only,
    have the same outcome and leave worlds differing in them only. *)
Definition agree {A : Type} (m1 m2 : M A) : Prop :=
  ∀ w1 w2, same_but_test_messages w1 w2 →
    (m1 w1).1 = (m2 w2).1 ∧ same_but_test_messages (m1 w1).2 (m2 w2).2.

(** The works of a Character, in the order of the four fields read. *)
Definition character_works (e : Entity) : list Movie :=
  default [] (e !! "feature") ++ default [] (e !! "tv")
  ++ default [] (e !! "video-game") ++ default [] (e !! "video").

(** * The [set] plugin: registered keys *)

(** [self.keys] maps a key to its type.  [register_key] ignores an empty
    key and a key that is registered already. *)
Definition register_key (key type : string) (keys : gmap string string)
    : gmap string string :=
  if bool_decide (key ≠ "") then
    match keys !! key with
    | None => <[key := type]> keys
    | Some _ => keys
    end
  else keys.

(** [for key, value in keys.iteritems(): self.register_key(key, value)],
    on the items in the order [iteritems] yields them. *)
Definition register_keys (items : list (string * string))
    (keys : gmap string string) : gmap string string :=
  foldl (λ keys '(key, value), register_key key value keys) keys items.

(** * Notions used for the rating rule, missing fields and repeated ids *)

(** The outcome of [inspect_movie] on the work [m0] with [movies] collected
    so far, and of the three nested loops over the works [cands] found, in
    order. *)
Definition inspected (ia : IMDb) (content_types : list string)
    (movies : list Movie) (m0 : Movie) : outcome (list Movie) :=
  match update ia m0 with
  | Raise e => Raise e
  | Ret m =>
      if contains (movie_eq ia) m movies then Ret movies
      else
        match kind m with
        | None => Raise (KeyError "kind")
        | Some k =>
            if bool_decide (k ∈ content_types) then
              match title m with
              | None => Raise TypeError
              | Some _ => Ret (movies ++ [m])
              end
            else Ret movies
        end
  end.

Fixpoint enumerated (ia : IMDb) (content_types : list string)
    (cands : list Movie) (movies : list Movie) : outcome (list Movie) :=
  match cands with
  | [] => Ret movies
  | m0 :: cands' =>
      match inspected ia content_types movies m0 with
      | Ret movies' => enumerated ia content_types cands' movies'
      | Raise e => Raise e
      end
  end.



(** ** Further example inputs *)

(** A person with one credit as an actor and another as an actress. *)
Definition an_actress : Entity :=
  {[ "actor movie" := [heat]; "actress movie" := [ronin] ]}.

(** A company one of whose works comes back under a second title, and one
    with two works of the same title. *)
Definition retitling_company : Entity :=
  {[ "production companies" := [heat; ronin; heat_retitled] ]}.

Definition heat_1986 : Movie := movie "0093164" "Heat" "movie".

Definition remake_company : Entity :=
  {[ "production companies" := [heat; heat_1986] ]}.

(** * Properties *)

(** ** The search for an identifier *)

Lemma strip_prefix_app p s rest :
  strip_prefix p s = Some rest → s = p +:+ rest.
Proof.
  revert s. induction p as [|a p IH]; intros s; simpl.
  - by intros [= ->].
  - destruct s as [|b s]; [done|].
    destruct (Ascii.eqb_spec a b) as [->|]; [|done].
    intros H. by rewrite (IH _ H).
Qed.

Lemma read_digits_app n s g :
  read_digits n s = Some g →
  ∃ post, s = g +:+ post ∧ String.length g = n.
Proof.
  revert s g. induction n as [|n IH]; intros s g; simpl.
  - intros [= <-]. by exists s.
  - destruct s as [|c s]; [done|]. destruct (is_digit c); [|done].
    destruct (read_digits n s) as [g'|] eqn:Hg; [|done].
    intros [= <-]. destruct (IH _ _ Hg) as (post & -> & <-). by exists post.
Qed.

(** What [re_search] finds is in the string: the prefix of the format, then
    the digits returned. *)
Lemma re_search_found f s g :
  re_search f s = Some g →
  ∃ pre post, s = pre +:+ fmt_prefix f +:+ g +:+ post
              ∧ String.length g = fmt_digits f.
Proof.
  induction s as [|c s IH]; simpl.
  - destruct (match_here f "") as [g'|] eqn:Hm; [|done].
    intros [= ->]. unfold match_here in Hm.
    destruct (strip_prefix (fmt_prefix f) "") as [rest|] eqn:Hp; [|done].
    apply strip_prefix_app in Hp.
    apply read_digits_app in Hm as (post & -> & Hlen).
    by exists "", post.
  - destruct (match_here f (String c s)) as [g'|] eqn:Hm.
    + intros [= ->]. unfold match_here in Hm.
      destruct (strip_prefix (fmt_prefix f) (String c s)) as [rest|] eqn:Hp;
        [|done].
      apply strip_prefix_app in Hp.
      apply read_digits_app in Hm as (post & -> & Hlen).
      by exists "", post.
    + intros (pre & post & -> & Hlen)%IH. by exists (String c pre), post.
Qed.

(** The identifiers of the plugin's documentation. *)
Example re_search_character :
  re_search (ENTITIES_FORMATS Character)
    "http://www.imdb.com/character/ch0001354/?ref_=tt_cl_t1"
  = Some "0001354".
Proof. reflexivity. Qed.

Example re_search_company :
  re_search (ENTITIES_FORMATS Company)
    "http://www.imdb.com/company/co0051941/?ref_=fn_al_co_2"
  = Some "0051941"
  ∧ re_search (ENTITIES_FORMATS Person)
      "http://www.imdb.com/company/co0051941/?ref_=fn_al_co_2"
    = None.
Proof. split; reflexivity. Qed.

(** ** Running computations *)

Ltac list_sub := intros ?; rewrite !elem_of_cons; tauto.

Lemma returns_ret {A} (a : A) w Q : Q a w → returns (mret a) w Q.
Proof. intros H. by exists a, w. Qed.

Lemma returns_bind {A B} (m : M A) (f : A → M B) w Q :
  returns m w (λ a w', returns (f a) w' Q) → returns (m ≫= f) w Q.
Proof.
  intros (a & w1 & Hm & b & w2 & Hf & HQ). exists b, w2. split; [|done].
  unfold mbind, M_bind. by rewrite Hm.
Qed.

Lemma returns_mono {A} (m : M A) w (P Q : A → world → Prop) :
  returns m w P → (∀ a w', P a w' → Q a w') → returns m w Q.
Proof. intros (a & w' & Hm & HP) HPQ. exists a, w'. eauto. Qed.

Lemma lookup_entity_backend ia k g :
  lookup_entity ia k g = backend (get_entity_call k g) (get_entity ia k g).
Proof. by destruct k. Qed.

Lemma loop_none ia items s :
  (∀ k, re_search (ENTITIES_FORMATS k) s = None) →
  entity_type_and_object_loop ia items s = mret None.
Proof.
  intros Hnone. induction items as [|k items IH]; [done|].
  simpl. by rewrite Hnone.
Qed.

Lemma loop_unique ia items s k g :
  k ∈ items →
  re_search (ENTITIES_FORMATS k) s = Some g →
  (∀ k', k' ≠ k → re_search (ENTITIES_FORMATS k') s = None) →
  entity_type_and_object_loop ia items s =
    (shown ← lookup_entity ia k g;
     log INFO (MsgStarting k shown);;
     entity ← lookup_entity ia k g;
     mret (Some (k, entity))).
Proof.
  intros Hin Hk Hother. induction items as [|k' items IH]; [by apply elem_of_nil in Hin|].
  simpl. destruct (decide (k' = k)) as [->|Hne].
  - by rewrite Hk.
  - rewrite (Hother _ Hne). apply IH.
    apply elem_of_cons in Hin as [->|]; [done|done].
Qed.

Section PrepareConfig.
Context (r : loc) (idv : option value) (cs : list call).

Lemma prepared_alloc keys o w :
  prepared r idv cs keys w → returns (alloc o) w (λ _ w', prepared r idv cs keys w').
Proof.
  intros [(d & Hr & Hd) Hc]. eexists _, _. split; [done|].
  split; [|done]. exists d. split; [|done]. simpl.
  rewrite lookup_app_l; [done|]. by eapply lookup_lt_Some.
Qed.

Lemma prepared_log keys lvl msg w :
  prepared r idv cs keys w → returns (log lvl msg) w (λ _ w', prepared r idv cs keys w').
Proof.
  intros [Hd Hc]. eexists _, _. split; [done|]. split; [done|].
  simpl. unfold calls in *. rewrite omap_app. simpl. by rewrite app_nil_r.
Qed.

Lemma prepared_read_dict keys w :
  prepared r idv cs keys w →
  returns (read_dict r) w (λ d w',
    w' = w ∧ heap w !! r = Some (ODict d) ∧ d !! "id" = idv
    ∧ ∀ k, k ∈ keys → is_Some (d !! k)).
Proof.
  intros [(d & Hr & Hid & Hk) Hc]. exists d, w. split; [|done].
  unfold read_dict, mbind, M_bind, read. by rewrite Hr.
Qed.

Lemma prepared_dict_get keys key w :
  prepared r idv cs keys w → returns (dict_get r key) w (λ _ w', prepared r idv cs keys w').
Proof.
  intros H. unfold dict_get. apply returns_bind.
  eapply returns_mono; [by apply prepared_read_dict|].
  intros d w' [-> _]. by apply returns_ret.
Qed.

Lemma prepared_weaken keys keys' w :
  keys' ⊆ keys → prepared r idv cs keys w → prepared r idv cs keys' w.
Proof.
  intros Hsub [(d & Hr & Hid & Hk) Hc]. split; [|done].
  exists d. split_and!; [done..|]. intros k Hin. apply Hk, Hsub, Hin.
Qed.

Lemma prepared_write keys key v d w :
  key ≠ "id" → heap w !! r = Some (ODict d) →
  prepared r idv cs keys w →
  returns (write r (ODict (<[key := v]> d))) w (λ _ w', prepared r idv cs (key :: keys) w').
Proof.
  intros Hne Hr [(d' & Hr' & Hid & Hk) Hc]. simplify_eq.
  eexists _, _. split; [done|]. split; [|done].
  exists (<[key := v]> d). simpl. split_and!.
  - apply list_lookup_insert_eq. by eapply lookup_lt_Some.
  - by rewrite lookup_insert_ne.
  - intros k Hin. apply lookup_insert_is_Some.
    destruct (decide (key = k)); [by left|right].
    split; [done|]. apply Hk. by apply elem_of_cons in Hin as [->|].
Qed.

Lemma prepared_setdefault keys key v w :
  key ≠ "id" → prepared r idv cs keys w →
  returns (dict_setdefault r key v) w (λ _ w', prepared r idv cs (key :: keys) w').
Proof.
  intros Hne H. unfold dict_setdefault. apply returns_bind.
  eapply returns_mono; [by apply prepared_read_dict|].
  intros d w' (-> & Hr & Hid & Hk). simpl.
  destruct (d !! key) as [v'|] eqn:Hkey.
  - apply returns_ret. destruct H as [_ Hc]. split; [|done].
    exists d. split_and!; [done..|].
    intros k [->|Hin]%elem_of_cons; [by rewrite Hkey|by apply Hk].
  - by apply prepared_write.
Qed.

Lemma prepared_setitem keys key v w :
  key ≠ "id" → prepared r idv cs keys w →
  returns (dict_setitem r key v) w (λ _ w', prepared r idv cs (key :: keys) w').
Proof.
  intros Hne H. unfold dict_setitem. apply returns_bind.
  eapply returns_mono; [by apply prepared_read_dict|].
  intros d w' (-> & Hr & Hid & Hk). by apply prepared_write.
Qed.
End PrepareConfig.

Lemma prepare_config_returns config d w :
  config_dict (heap w) config = Some d →
  returns (prepare_config config) w (λ r w',
    prepared r (d !! "id") (calls (trace w))
             ["job_types"; "content_types"; "max_entries"] w').
Proof.
  intros Hd. unfold prepare_config.
  apply returns_bind.
  assert (returns (match config with
                   | ConfigDict r => mret r
                   | ConfigStr s => alloc (ODict {[ "id" := VStr s ]})
                   end) w
            (λ r w', prepared r (d !! "id") (calls (trace w)) [] w')) as Hfirst.
  { destruct config as [s|r]; simpl in Hd.
    - simplify_eq. eexists _, _. split; [done|]. split; [|done].
      eexists. simpl. split_and!; [by apply list_lookup_middle|done|].
      by intros k Hk%elem_of_nil.
    - apply returns_ret. destruct (heap w !! r) as [[|d']|] eqn:Hr; simplify_eq.
      split; [|done]. exists d. split_and!; [done..|].
      by intros k Hk%elem_of_nil. }
  eapply returns_mono; [exact Hfirst|]. clear Hfirst Hd.
  intros r w1 H1. cbv beta in *.
  apply returns_bind. eapply returns_mono; [by apply prepared_alloc|].
  intros l1 w2 H2. cbv beta in *.
  apply returns_bind. eapply returns_mono;
    [by eapply prepared_setdefault|].
  intros ? w3 H3. cbv beta in *.
  apply returns_bind. eapply returns_mono; [by apply prepared_alloc|].
  intros l2 w4 H4. cbv beta in *.
  apply returns_bind. eapply returns_mono;
    [by eapply prepared_setdefault|].
  intros ? w5 H5. cbv beta in *.
  apply returns_bind. eapply returns_mono;
    [by eapply prepared_setdefault|].
  intros ? w6 H6. cbv beta in *.
  apply returns_bind. eapply returns_mono; [by apply prepared_dict_get|].
  intros ct w7 H7. cbv beta in *.
  apply returns_bind.
  assert (returns (match ct with
       | Some (VStr s) =>
           log DEBUG MsgConvertedContentType
           ≫= (λ _ : (),
                 alloc (OList [s])
                 ≫= (λ l : loc, dict_setitem r "content_types" (VList l)))
       | _ => mret ()
       end) w7
     (λ _ w', prepared r (d !! "id") (calls (trace w))
                ["max_entries"; "job_types"; "content_types"] w')) as Hct.
  { destruct ct as [[s| | |]|]; try by apply returns_ret.
    apply returns_bind. eapply returns_mono; [by apply prepared_log|].
    intros ? w8 H8. cbv beta in *.
    apply returns_bind. eapply returns_mono; [by apply prepared_alloc|].
    intros l3 w9 H9. cbv beta in *.
    eapply returns_mono; [by eapply prepared_setitem|].
    intros ? w10 H10. cbv beta in *. eapply prepared_weaken; [|done]. list_sub. }
  eapply returns_mono; [exact Hct|]. clear Hct.
  intros ? w8 H8. cbv beta in *.
  apply returns_bind. eapply returns_mono; [by eapply prepared_read_dict|].
  intros d8 w9 (-> & Hr8 & Hid8 & Hk8).
  destruct (Hk8 "job_types") as [jt Hjt]; [rewrite !elem_of_cons; tauto|]. rewrite Hjt.
  apply returns_bind. apply returns_ret.
  apply returns_bind.
  assert (returns (match jt with
       | VStr s =>
           log DEBUG MsgConvertedJobType
           ≫= (λ _ : (),
                 alloc (OList [s])
                 ≫= (λ l : loc, dict_setitem r "job_types" (VList l)))
       | _ => mret ()
       end) w8
     (λ _ w', prepared r (d !! "id") (calls (trace w))
                ["job_types"; "content_types"; "max_entries"] w')) as Hjob.
  { destruct jt as [s| | |];
      try (apply returns_ret; eapply prepared_weaken; [|done]; list_sub).
    apply returns_bind. eapply returns_mono; [by apply prepared_log|].
    intros ? w9 H9. cbv beta in *.
    apply returns_bind. eapply returns_mono; [by apply prepared_alloc|].
    intros l3 w10 H10. cbv beta in *.
    eapply returns_mono; [by eapply prepared_setitem|].
    intros ? w11 H11. cbv beta in *. eapply prepared_weaken; [|done]. list_sub. }
  eapply returns_mono; [exact Hjob|]. clear Hjob.
  intros ? w9 H9. cbv beta in *. by apply returns_ret.
Qed.

Lemma run_bind {A B} (m : M A) (f : A → M B) w :
  (m ≫= f) w = match m w with
               | (Ret a, w') => f a w'
               | (Raise e, w') => (Raise e, w')
               end.
Proof. reflexivity. Qed.

Lemma run_bind_ret {A B} (m : M A) (f : A → M B) w a w' :
  m w = (Ret a, w') → (m ≫= f) w = f a w'.
Proof. intros H. by rewrite run_bind, H. Qed.

Lemma run_bind_raise {A B} (m : M A) (f : A → M B) w e w' :
  m w = (Raise e, w') → (m ≫= f) w = (Raise e, w').
Proof. intros H. by rewrite run_bind, H. Qed.

Lemma run_dict_get r key d w :
  heap w !! r = Some (ODict d) → dict_get r key w = (Ret (d !! key), w).
Proof.
  intros H. unfold dict_get, read_dict, read. rewrite !run_bind. by rewrite H.
Qed.

Lemma calls_snoc_log t lvl msg : calls (t ++ [Log lvl msg]) = calls t.
Proof. unfold calls. rewrite omap_app. simpl. by rewrite app_nil_r. Qed.

Theorem resolve_by_kind order ia s :
  order ≡ₚ [Person; Company; Character] →
  (∀ k g,
     re_search (ENTITIES_FORMATS k) s = Some g →
     (∀ k', k' ≠ k → re_search (ENTITIES_FORMATS k') s = None) →
     ∀ w, entity_type_and_object order ia (Some (VStr s)) w =
          match get_entity ia k g with
          | Ret e =>
              (Ret (Some (k, e)),
               {| heap := heap w;
                  trace := trace w ++ [Call (get_entity_call k g);
                                       Log INFO (MsgStarting k e);
                                       Call (get_entity_call k g)] |})
          | Raise x =>
              (Raise x,
               {| heap := heap w;
                  trace := trace w ++ [Call (get_entity_call k g)] |})
          end)
  ∧ ((∀ k, re_search (ENTITIES_FORMATS k) s = None) →
     ∀ E task config d w,
       config_dict (heap w) config = Some d →
       d !! "id" = Some (VStr s) →
       ∃ w', on_task_input order (Some ia) E task config w = (Ret None, w')
             ∧ calls (trace w') = calls (trace w)
             ∧ last (trace w') = Some (Log ERROR (MsgCouldNotResolve TypeError))).
Proof.
  intros Hperm. split.
  - intros k g Hk Hother w. unfold entity_type_and_object.
    rewrite (loop_unique ia order s k g); [|by rewrite Hperm; destruct k; rewrite !elem_of_cons; tauto|done..].
    rewrite lookup_entity_backend. unfold mbind, M_bind, backend, log, emit.
    destruct (get_entity ia k g) as [e|x]; simpl; [|done].
    by rewrite <- !app_assoc.
  - intros Hnone E task config d w Hd Hid.
    destruct (prepare_config_returns config d w Hd)
      as (r & w1 & Hprep & (d1 & Hr1 & Hid1 & _) & Hcalls).
    eexists. unfold on_task_input, collect.
    rewrite run_bind, (run_bind_ret _ _ _ _ _ Hprep).
    rewrite run_bind. unfold try_except.
    rewrite (run_bind_ret _ _ _ _ _ (run_dict_get _ "id" _ _ Hr1)).
    rewrite Hid1, Hid. unfold entity_type_and_object.
    rewrite (loop_none ia order s Hnone).
    simpl. split; [done|]. simpl. split.
    + by rewrite calls_snoc_log.
    + by rewrite last_snoc.
Qed.

(** ** First-seen selection *)

Section FirstSeen.
Context {A : Type} (eq : A → A → bool) (P : A → bool).

Lemma contains_true x l :
  contains eq x l = true ↔ ∃ y, y ∈ l ∧ eq y x = true.
Proof.
  unfold contains. induction l as [|z l IH]; simpl.
  - split; [done|]. by intros (y & Hy%elem_of_nil & _).
  - rewrite orb_true_iff, IH. split.
    + intros [Hz|(y & Hy & Hyx)]; [exists z|exists y]; split; try done.
      * apply list_elem_of_here.
      * by apply list_elem_of_further.
    + intros (y & [->|Hy]%elem_of_cons & Hyx); [by left|right; eauto].
Qed.

Lemma contains_false x l :
  contains eq x l = false ↔ ∀ y, y ∈ l → eq y x = false.
Proof.
  rewrite <- not_true_iff_false, contains_true. split.
  - intros Hno y Hy. apply not_true_iff_false. intros Hyx. apply Hno. eauto.
  - intros Hall (y & Hy & Hyx). rewrite (Hall y Hy) in Hyx. done.
Qed.

Lemma add_new_cases acc x :
  (add_new eq P acc x = acc ++ [x] ∧ contains eq x acc = false ∧ P x = true)
  ∨ (add_new eq P acc x = acc ∧ (contains eq x acc = true ∨ P x = false)).
Proof.
  unfold add_new. destruct (contains eq x acc), (P x); simpl; auto.
Qed.

Lemma first_seen_cons x l acc :
  first_seen eq P (x :: l) acc = first_seen eq P l (add_new eq P acc x).
Proof. reflexivity. Qed.

Lemma first_seen_app l1 l2 acc :
  first_seen eq P (l1 ++ l2) acc = first_seen eq P l2 (first_seen eq P l1 acc).
Proof. apply fold_left_app. Qed.

(** The selection extends the accumulator by a sublist of the elements that
    pass [P], in their order. *)
Lemma first_seen_sublist l acc :
  ∃ ys, first_seen eq P l acc = acc ++ ys ∧ ys `sublist_of` filter (λ x, P x) l.
Proof.
  revert acc. induction l as [|x l IH]; intros acc.
  - exists []. by rewrite app_nil_r.
  - rewrite first_seen_cons.
    destruct (IH (add_new eq P acc x)) as (ys & -> & Hys).
    destruct (add_new_cases acc x) as [(-> & _ & HP)|(-> & _)].
    + exists (x :: ys). rewrite <- app_assoc. split; [done|].
      rewrite filter_cons_True by by rewrite HP. by apply sublist_skip.
    + exists ys. split; [done|]. rewrite filter_cons.
      case_decide; [by apply sublist_cons|done].
Qed.

Lemma first_seen_acc l acc x : x ∈ acc → x ∈ first_seen eq P l acc.
Proof.
  destruct (first_seen_sublist l acc) as (ys & -> & _).
  intros Hx. apply elem_of_app. by left.
Qed.

Lemma first_seen_passes l acc x :
  x ∈ first_seen eq P l acc → x ∈ acc ∨ (x ∈ l ∧ P x = true).
Proof.
  destruct (first_seen_sublist l acc) as (ys & -> & Hys).
  intros [Hx|Hx]%elem_of_app; [by left|right].
  eapply elem_of_sublist in Hx; [|exact Hys].
  apply list_elem_of_filter in Hx as [HP Hx]. split; [done|].
  by apply Is_true_eq_true.
Qed.

Lemma distinct_snoc acc x :
  distinct eq acc → contains eq x acc = false → distinct eq (acc ++ [x]).
Proof.
  intros Hacc Hx i j a b Hij Hi Hj.
  rewrite contains_false in Hx.
  assert (j < length (acc ++ [x])) as Hlen by by eapply lookup_lt_Some.
  rewrite length_app in Hlen. simpl in Hlen.
  rewrite lookup_app_l in Hi by lia.
  destruct (decide (j < length acc)) as [Hlt|Hge].
  - rewrite lookup_app_l in Hj by done. by apply (Hacc i j a b).
  - rewrite lookup_app_r in Hj by lia.
    replace (j - length acc) with 0 in Hj by lia. simpl in Hj. simplify_eq.
    apply Hx. by eapply list_elem_of_lookup_2.
Qed.

(** No two elements selected are equal. *)
Lemma first_seen_distinct l acc :
  distinct eq acc → distinct eq (first_seen eq P l acc).
Proof.
  revert acc. induction l as [|x l IH]; intros acc Hacc; [done|].
  rewrite first_seen_cons. apply IH.
  destruct (add_new_cases acc x) as [(-> & Hx & _)|(-> & _)]; [|done].
  by apply distinct_snoc.
Qed.

Lemma distinct_nil : distinct eq [].
Proof. intros i j x y _ Hi. by rewrite lookup_nil in Hi. Qed.

(** Every element that passes [P] is selected or equals a selected one. *)
Lemma first_seen_covers l acc x :
  x ∈ l → P x = true →
  x ∈ first_seen eq P l acc
  ∨ ∃ y, y ∈ first_seen eq P l acc ∧ eq y x = true.
Proof.
  revert acc. induction l as [|z l IH]; intros acc Hx HP.
  - by apply elem_of_nil in Hx.
  - rewrite first_seen_cons. apply elem_of_cons in Hx as [->|Hx]; [|by apply IH].
    destruct (add_new_cases acc z) as [(-> & _)|(-> & [Hc|Hn])].
    + left. apply first_seen_acc, elem_of_app. right. apply list_elem_of_here.
    + right. apply contains_true in Hc as (y & Hy & Hyz).
      exists y. split; [by apply first_seen_acc|done].
    + congruence.
Qed.

Section ByKey.
Context {K : Type} (f : A → K) (Hkey : eq_by f eq).

Lemma contains_by_key x l : contains eq x l = true ↔ f x ∈ f <$> l.
Proof.
  rewrite contains_true, list_elem_of_fmap. split.
  - intros (y & Hy & Hyx). exists y. split; [|done]. symmetry. by apply Hkey.
  - intros (y & Hfy & Hy). exists y. split; [done|]. by apply Hkey.
Qed.

Lemma distinct_NoDup l : distinct eq l → NoDup (f <$> l).
Proof.
  intros Hl. apply NoDup_alt. intros i j k Hi Hj.
  rewrite list_lookup_fmap in Hi, Hj.
  destruct (l !! i) as [x|] eqn:Hx; [|done].
  destruct (l !! j) as [y|] eqn:Hy; [|done].
  simpl in Hi, Hj. simplify_eq.
  destruct (Nat.lt_total i j) as [Hlt|[->|Hgt]]; [|done|].
  - assert (eq x y = true) as Heq by by apply Hkey.
    by rewrite (Hl i j x y Hlt Hx Hy) in Heq.
  - assert (eq y x = true) as Heq by by apply Hkey.
    by rewrite (Hl j i y x Hgt Hy Hx) in Heq.
Qed.

(** Of the elements that pass [P], the first one with a given key is the one
    selected. *)
Lemma first_seen_first l acc pre y post :
  filter (λ x, P x) l = pre ++ y :: post →
  f y ∉ f <$> acc → f y ∉ f <$> pre →
  y ∈ first_seen eq P l acc.
Proof.
  revert acc pre. induction l as [|x l IH]; intros acc pre Hl Hacc Hpre.
  - by destruct pre.
  - rewrite first_seen_cons. rewrite filter_cons in Hl.
    destruct (add_new_cases acc x) as [(-> & Hc & HP)|(-> & Hor)].
    + rewrite decide_True in Hl by by rewrite HP.
      destruct pre as [|z pre]; simpl in Hl; simplify_eq.
      * apply first_seen_acc, elem_of_app. right. apply list_elem_of_here.
      * apply (IH _ pre); [done| |].
        -- rewrite fmap_app, elem_of_app. intros [?|Hx]; [done|].
           apply Hpre. simpl in *. apply list_elem_of_singleton in Hx.
           rewrite Hx. apply list_elem_of_here.
        -- intros ?. apply Hpre. simpl. by apply list_elem_of_further.
    + case_decide as HP.
      * destruct Hor as [Hc|Hn]; [|by rewrite Hn in HP].
        destruct pre as [|z pre]; simpl in Hl; simplify_eq.
        -- apply contains_by_key in Hc. done.
        -- apply (IH _ pre); [done..|].
           intros ?. apply Hpre. simpl. by apply list_elem_of_further.
      * by apply (IH _ pre).
Qed.

End ByKey.
End FirstSeen.

(** ** Computations that do not touch the heap *)

Lemma run_bind_inv {A B} (m : M A) (f : A → M B) w b w2 :
  (m ≫= f) w = (Ret b, w2) →
  ∃ a w1, m w = (Ret a, w1) ∧ f a w1 = (Ret b, w2).
Proof.
  rewrite run_bind. destruct (m w) as [[a|e] w1]; [eauto|done].
Qed.

Lemma run_ret {A} (a : A) w : (mret a : M A) w = (Ret a, w).
Proof. reflexivity. Qed.

Lemma run_log lvl msg w :
  log lvl msg w
  = (Ret (), {| heap := heap w; trace := trace w ++ [Log lvl msg] |}).
Proof. reflexivity. Qed.

Lemma heap_stable_ret {A} (a : A) : heap_stable (mret a).
Proof. intros w res w' [= <- <-]. done. Qed.

Lemma heap_stable_raise {A} e : heap_stable (raise (A := A) e).
Proof. intros w res w' [= <- <-]. done. Qed.

Lemma heap_stable_log lvl msg : heap_stable (log lvl msg).
Proof. intros w res w' [= <- <-]. done. Qed.

Lemma heap_stable_backend {A} c (r : outcome A) : heap_stable (backend c r).
Proof. intros w res w' [= <- <-]. done. Qed.

Lemma heap_stable_bind {A B} (m : M A) (f : A → M B) :
  heap_stable m → (∀ a, heap_stable (f a)) → heap_stable (m ≫= f).
Proof.
  intros Hm Hf w res w'. rewrite run_bind.
  destruct (m w) as [[a|e] w1] eqn:Hrun.
  - intros Hrun'. rewrite (Hf _ _ _ _ Hrun'). by eapply Hm.
  - intros [= <- <-]. by eapply Hm.
Qed.

Lemma heap_stable_for_each {A S} (body : S → A → M S) l s :
  (∀ s x, heap_stable (body s x)) → heap_stable (for_each l body s).
Proof.
  intros Hbody. revert s. induction l as [|x l IH]; intros s; simpl.
  - apply heap_stable_ret.
  - apply heap_stable_bind; [apply Hbody|apply IH].
Qed.

Lemma heap_stable_getitem {A} key (field : option A) :
  heap_stable (getitem key field).
Proof. destruct field; [apply heap_stable_ret|apply heap_stable_raise]. Qed.

Lemma heap_stable_str_operand x : heap_stable (str_operand x).
Proof. destruct x; [apply heap_stable_ret|apply heap_stable_raise]. Qed.

Lemma heap_stable_read_list r : heap_stable (read_list r).
Proof.
  intros w res w'. unfold read_list, read. rewrite run_bind.
  destruct (heap w !! r) as [[l|d]|]; by intros [= <- <-].
Qed.

Lemma heap_stable_iterate v : heap_stable (iterate v).
Proof.
  destruct v as [[| | |r]|]; try apply heap_stable_raise.
  apply heap_stable_read_list.
Qed.

Lemma heap_stable_inspect_movie ia cts movies m :
  heap_stable (inspect_movie ia cts movies m).
Proof.
  unfold inspect_movie. apply heap_stable_bind; [apply heap_stable_backend|].
  intros m'. destruct (negb _).
  - apply heap_stable_bind; [apply heap_stable_getitem|]. intros k.
    destruct (bool_decide _).
    + apply heap_stable_bind; [apply heap_stable_str_operand|]. intros t.
      apply heap_stable_bind; [apply heap_stable_log|]. intros _.
      apply heap_stable_ret.
    + apply heap_stable_bind; [apply heap_stable_log|]. intros _.
      apply heap_stable_ret.
  - apply heap_stable_bind; [apply heap_stable_log|]. intros _.
    apply heap_stable_ret.
Qed.

Lemma heap_stable_search_label ia entity cts jt movies ct :
  heap_stable (search_label ia entity cts jt movies ct).
Proof.
  unfold search_label. apply heap_stable_bind; [apply heap_stable_log|].
  intros _. destruct (movies_by_job_type _ _ _) as [[|m l]|];
    try apply heap_stable_ret.
  apply heap_stable_for_each. intros. apply heap_stable_inspect_movie.
Qed.

Lemma heap_stable_job_loop ia entity ct jts movies :
  heap_stable (for_each jts (λ movies job_type,
     cts ← iterate ct;
     for_each cts (search_label ia entity cts job_type) movies) movies).
Proof.
  apply heap_stable_for_each. intros s jt.
  apply heap_stable_bind; [apply heap_stable_iterate|]. intros cts.
  apply heap_stable_for_each. intros. apply heap_stable_search_label.
Qed.

(** ** The loops of the Person enumeration *)

Lemma quiet_refl w : quiet w w.
Proof. done. Qed.

Lemma quiet_trans w1 w2 w3 : quiet w1 w2 → quiet w2 w3 → quiet w1 w3.
Proof. intros [H1 H2] [H3 H4]. split; congruence. Qed.

Lemma searched_snoc t ev :
  searched (t ++ [ev]) =
  searched t ++ match ev with
                | Log DEBUG (MsgSearching label) => [label]
                | _ => []
                end.
Proof.
  unfold searched. rewrite omap_app. f_equal. simpl.
  by destruct ev as [[] []|].
Qed.

Section PersonLoops.
Context (ia : IMDb) (entity_object : Entity) (cts : list string).

Local Abbreviation select := (first_seen (movie_eq ia) (kind_in cts)).

Lemma run_inspect_movie movies m0 w :
  inspect_movie ia cts movies m0 w =
  let w1 := {| heap := heap w; trace := trace w ++ [Call (update_call m0)] |} in
  let say msg := {| heap := heap w;
                    trace := (trace w ++ [Call (update_call m0)])
                             ++ [Log DEBUG msg] |} in
  match update ia m0 with
  | Raise e => (Raise e, w1)
  | Ret m =>
      if contains (movie_eq ia) m movies
      then (Ret movies, say (MsgAlreadyFound m))
      else
        match kind m with
        | None => (Raise (KeyError "kind"), w1)
        | Some k =>
            if bool_decide (k ∈ cts) then
              match title m with
              | None => (Raise TypeError, w1)
              | Some t => (Ret (movies ++ [m]), say (MsgFoundItem t))
              end
            else (Ret movies, say (MsgAlreadyFound m))
        end
  end.
Proof.
  unfold inspect_movie. rewrite run_bind. unfold backend.
  destruct (update ia m0) as [m|e]; [|reflexivity]. simpl.
  destruct (contains (movie_eq ia) m movies); [reflexivity|]. simpl.
  destruct (kind m) as [k|]; [|reflexivity]. rewrite run_bind. simpl.
  destruct (bool_decide (k ∈ cts)); [|reflexivity].
  destruct (title m); reflexivity.
Qed.

Lemma inspect_movie_ret movies m0 w movies' w' :
  inspect_movie ia cts movies m0 w = (Ret movies', w') →
  ∃ m, hydrate ia m0 = Some m
       ∧ movies' = add_new (movie_eq ia) (kind_in cts) movies m
       ∧ quiet w w'.
Proof.
  rewrite run_inspect_movie. unfold hydrate. simpl.
  destruct (update ia m0) as [m|e]; [|done].
  intros Hrun. exists m. split; [done|]. revert Hrun.
  unfold add_new, kind_in, quiet.
  destruct (contains (movie_eq ia) m movies); simpl.
  { intros [= <- <-]. simpl. by rewrite !searched_snoc, !app_nil_r. }
  destruct (kind m) as [k|]; [|done].
  destruct (bool_decide (k ∈ cts)).
  - destruct (title m) as [t|]; [|done].
    intros [= <- <-]. simpl. by rewrite !searched_snoc, !app_nil_r.
  - intros [= <- <-]. simpl. by rewrite !searched_snoc, !app_nil_r.
Qed.

Lemma inspect_movie_returns movies m0 w :
  healthy ia m0 →
  ∃ m w', hydrate ia m0 = Some m
          ∧ inspect_movie ia cts movies m0 w
            = (Ret (add_new (movie_eq ia) (kind_in cts) movies m), w').
Proof.
  intros (m & Hm & [k Hk] & [t Ht]). exists m.
  rewrite run_inspect_movie. unfold hydrate, add_new, kind_in.
  rewrite Hm, Hk, Ht. simpl.
  destruct (contains (movie_eq ia) m movies); simpl; [by eexists|].
  destruct (bool_decide (k ∈ cts)); by eexists.
Qed.

Lemma movies_loop_ret ms movies w movies' w' :
  for_each ms (inspect_movie ia cts) movies w = (Ret movies', w') →
  movies' = select (omap (hydrate ia) ms) movies ∧ quiet w w'.
Proof.
  revert movies w. induction ms as [|m0 ms IH]; intros movies w; simpl.
  - by intros [= <- <-].
  - intros (movies1 & w1 & Hstep & Hrest)%run_bind_inv.
    apply inspect_movie_ret in Hstep as (m & -> & -> & Hq).
    apply IH in Hrest as [-> Hq']. split; [done|]. by eapply quiet_trans.
Qed.

Lemma movies_loop_returns ms movies w :
  Forall (healthy ia) ms →
  ∃ w', for_each ms (inspect_movie ia cts) movies w
        = (Ret (select (omap (hydrate ia) ms) movies), w').
Proof.
  intros Hms. revert movies w.
  induction Hms as [|m0 ms Hm0 _ IH]; intros movies w; simpl.
  - by eexists.
  - destruct (inspect_movie_returns movies m0 w Hm0) as (m & w1 & -> & Hrun).
    rewrite (run_bind_ret _ _ _ _ _ Hrun). apply IH.
Qed.

Lemma search_label_ret jt movies ct w movies' w' :
  search_label ia entity_object cts jt movies ct w = (Ret movies', w') →
  movies' = select (omap (hydrate ia)
                      (default [] (movies_by_job_type entity_object jt ct)))
                   movies
  ∧ heap w' = heap w
  ∧ searched (trace w') = searched (trace w) ++ [jt +:+ " " +:+ ct].
Proof.
  unfold search_label. intros (? & w1 & Hlog & Hrun)%run_bind_inv.
  rewrite run_log in Hlog. injection Hlog as <-.
  assert (heap w1 = heap w
          ∧ searched (trace w1) = searched (trace w) ++ [jt +:+ " " +:+ ct])
    as [Hh Hs] by (subst w1; simpl; by rewrite searched_snoc).
  clear H. revert Hrun.
  destruct (movies_by_job_type entity_object jt ct) as [[|m l]|].
  - rewrite run_ret. by intros [= <- <-].
  - intros [-> [Hh' Ht]]%movies_loop_ret.
    split; [done|]. split; congruence.
  - rewrite run_ret. by intros [= <- <-].
Qed.

Lemma search_label_returns jt movies ct w :
  Forall (healthy ia) (default [] (movies_by_job_type entity_object jt ct)) →
  ∃ w', search_label ia entity_object cts jt movies ct w
        = (Ret (select (omap (hydrate ia)
                   (default [] (movies_by_job_type entity_object jt ct)))
                 movies), w').
Proof.
  intros Hh. unfold search_label. rewrite run_bind, run_log.
  destruct (movies_by_job_type entity_object jt ct) as [[|m l]|].
  - by eexists.
  - by apply movies_loop_returns.
  - by eexists.
Qed.

Lemma content_loop_ret jt cts' movies w movies' w' :
  for_each cts' (search_label ia entity_object cts jt) movies w
    = (Ret movies', w') →
  movies' = select (omap (hydrate ia) (candidates_of entity_object cts' jt))
                   movies
  ∧ heap w' = heap w
  ∧ searched (trace w')
    = searched (trace w) ++ ((λ ct, jt +:+ " " +:+ ct) <$> cts').
Proof.
  revert movies w. induction cts' as [|ct cts' IH]; intros movies w; simpl.
  - intros [= <- <-]. by rewrite app_nil_r.
  - intros (movies1 & w1 & Hstep & Hrest)%run_bind_inv.
    apply search_label_ret in Hstep as (-> & Hh & Ht).
    apply IH in Hrest as (-> & Hh' & Ht').
    rewrite omap_app, first_seen_app.
    split; [done|]. split; [congruence|].
    by rewrite Ht', Ht, <- app_assoc.
Qed.

Lemma content_loop_returns jt cts' movies w :
  Forall (healthy ia) (candidates_of entity_object cts' jt) →
  ∃ w', for_each cts' (search_label ia entity_object cts jt) movies w
        = (Ret (select (omap (hydrate ia)
                          (candidates_of entity_object cts' jt)) movies), w').
Proof.
  revert movies w. induction cts' as [|ct cts' IH]; intros movies w; simpl.
  - by eexists.
  - intros [H1 H2]%Forall_app.
    destruct (search_label_returns jt movies ct w H1) as (w1 & Hrun).
    rewrite (run_bind_ret _ _ _ _ _ Hrun).
    rewrite omap_app, first_seen_app. by apply IH.
Qed.

End PersonLoops.

(** ** The Person enumeration as a whole *)

Lemma run_iterate rc cts w :
  heap w !! rc = Some (OList cts) → iterate (Some (VList rc)) w = (Ret cts, w).
Proof.
  intros H. unfold iterate, read_list, read. rewrite run_bind. by rewrite H.
Qed.

Lemma run_list_append r l x w :
  heap w !! r = Some (OList l) →
  list_append r x w
  = (Ret (), {| heap := <[r := OList (l ++ [x])]> (heap w); trace := trace w |}).
Proof.
  intros H. unfold list_append, read_list, read. rewrite !run_bind. by rewrite H.
Qed.

Lemma bind_unit_fmap {A B} (f : A → B) (l : list A) :
  (x ← l; [f x]) = f <$> l.
Proof. induction l as [|x l IH]; [done|]. rewrite bind_cons, IH. done. Qed.

Lemma candidates_cons entity_object jt jts cts :
  candidates entity_object (jt :: jts) cts
  = candidates_of entity_object cts jt ++ candidates entity_object jts cts.
Proof. unfold candidates. by rewrite bind_cons. Qed.

Lemma labels_cons jt jts cts :
  labels (jt :: jts) cts
  = ((λ ct, jt +:+ " " +:+ ct) <$> cts) ++ labels jts cts.
Proof. unfold labels. by rewrite bind_cons, bind_unit_fmap. Qed.

Lemma elem_of_expanded l jt : jt ∈ l → jt ∈ expanded l.
Proof.
  intros H. unfold expanded. case_bool_decide; [|done].
  apply elem_of_app. by left.
Qed.

Lemma elem_of_candidates entity_object jts cts m0 :
  m0 ∈ candidates entity_object jts cts ↔
  ∃ jt ct ms, jt ∈ jts ∧ ct ∈ cts
              ∧ movies_by_job_type entity_object jt ct = Some ms ∧ m0 ∈ ms.
Proof.
  unfold candidates, candidates_of. rewrite list_elem_of_bind. split.
  - intros (jt & (ct & Hm0 & Hct)%list_elem_of_bind & Hjt).
    destruct (movies_by_job_type entity_object jt ct) as [ms|] eqn:Hms.
    + by exists jt, ct, ms.
    + by apply elem_of_nil in Hm0.
  - intros (jt & ct & ms & Hjt & Hct & Hms & Hm0).
    exists jt. split; [|done]. apply list_elem_of_bind.
    exists ct. split; [|done]. by rewrite Hms.
Qed.

Lemma elem_of_hydrated ia (ms : list Movie) m :
  m ∈ omap (hydrate ia) ms ↔ ∃ m0, m0 ∈ ms ∧ update ia m0 = Ret m.
Proof.
  rewrite list_elem_of_omap. unfold hydrate. split.
  - intros (m0 & Hm0 & Hm). exists m0. split; [done|].
    by destruct (update ia m0); simplify_eq.
  - intros (m0 & Hm0 & Hm). exists m0. by rewrite Hm.
Qed.

Lemma kind_in_true cts m :
  kind_in cts m = true ↔ ∃ k, kind m = Some k ∧ k ∈ cts.
Proof.
  unfold kind_in. destruct (kind m) as [k|].
  - rewrite bool_decide_eq_true. split; [eauto|]. by intros (? & [= <-] & ?).
  - split; [done|]. by intros (? & ? & ?).
Qed.

Section PersonEnumeration.
Context (ia : IMDb) (entity_object : Entity).

Lemma job_loop_ret rc cts jts movies w movies' w' :
  heap w !! rc = Some (OList cts) →
  for_each jts (λ movies job_type,
     cts ← iterate (Some (VList rc));
     for_each cts (search_label ia entity_object cts job_type) movies)
    movies w = (Ret movies', w') →
  movies' = first_seen (movie_eq ia) (kind_in cts)
              (omap (hydrate ia) (candidates entity_object jts cts)) movies
  ∧ heap w' = heap w
  ∧ searched (trace w') = searched (trace w) ++ labels jts cts.
Proof.
  revert movies w. induction jts as [|jt jts IH]; intros movies w Hrc.
  - simpl. rewrite run_ret. intros [= <- <-]. by rewrite app_nil_r.
  - cbn [for_each]. intros (movies1 & w1 & Hstep & Hrest)%run_bind_inv.
    rewrite (run_bind_ret _ _ _ _ _ (run_iterate _ _ _ Hrc)) in Hstep.
    apply content_loop_ret in Hstep as (-> & Hh & Ht).
    apply IH in Hrest as (-> & Hh' & Ht'); [|by rewrite Hh].
    rewrite candidates_cons, labels_cons, omap_app, first_seen_app.
    split; [done|]. split; [congruence|].
    by rewrite Ht', Ht, <- app_assoc.
Qed.

Lemma job_loop_returns rc cts jts movies w :
  heap w !! rc = Some (OList cts) →
  Forall (healthy ia) (candidates entity_object jts cts) →
  ∃ w', for_each jts (λ movies job_type,
          cts ← iterate (Some (VList rc));
          for_each cts (search_label ia entity_object cts job_type) movies)
        movies w
        = (Ret (first_seen (movie_eq ia) (kind_in cts)
                  (omap (hydrate ia) (candidates entity_object jts cts))
                  movies), w').
Proof.
  revert movies w. induction jts as [|jt jts IH]; intros movies w Hrc.
  - by eexists.
  - rewrite candidates_cons. intros [H1 H2]%Forall_app.
    destruct (content_loop_returns ia entity_object cts jt cts movies w H1)
      as (w1 & Hrun).
    assert (heap w1 = heap w) as Hh.
    { eapply heap_stable_for_each; [|exact Hrun].
      intros. apply heap_stable_search_label. }
    cbn [for_each]. rewrite run_bind, (run_bind_ret _ _ _ _ _ (run_iterate _ _ _ Hrc)), Hrun.
    rewrite omap_app, first_seen_app. apply IH; [by rewrite Hh|done].
Qed.

(** The first statements of the Person branch expand the list in place; the
    loops then run over the expanded list. *)
Lemma run_person ct rj l w :
  heap w !! rj = Some (OList l) →
  items_by_entity ia Person entity_object ct (Some (VList rj)) w =
  (movies ← for_each (expanded l) (λ movies job_type,
              cts ← iterate ct;
              for_each cts (search_label ia entity_object cts job_type) movies)
            [];
   mret (Some movies))
    {| heap := expanded_heap rj l (heap w); trace := trace w |}.
Proof.
  intros Hl. unfold items_by_entity, expanded, expanded_heap.
  rewrite (run_bind_ret _ _ _ _ _ (run_iterate _ _ _ Hl)).
  case_bool_decide as Hactor.
  - unfold append.
    rewrite (run_bind_ret _ _ _ _ _ (run_list_append _ _ "actress" _ Hl)).
    assert (heap {| heap := <[rj := OList (l ++ ["actress"])]> (heap w);
                    trace := trace w |} !! rj
            = Some (OList (l ++ ["actress"]))) as Hl'.
    { simpl. apply list_lookup_insert_eq. by eapply lookup_lt_Some. }
    by rewrite (run_bind_ret _ _ _ _ _ (run_iterate _ _ _ Hl')).
  - rewrite (run_bind_ret _ _ _ _ _ (run_ret () w)).
    rewrite (run_bind_ret _ _ _ _ _ (run_iterate _ _ _ Hl)). by destruct w.
Qed.

Lemma person_ret rc rj l cts w res w' :
  heap w !! rj = Some (OList l) →
  expanded_heap rj l (heap w) !! rc = Some (OList cts) →
  items_by_entity ia Person entity_object (Some (VList rc)) (Some (VList rj)) w
    = (Ret res, w') →
  res = Some (first_seen (movie_eq ia) (kind_in cts)
                (omap (hydrate ia)
                   (candidates entity_object (expanded l) cts)) [])
  ∧ heap w' = expanded_heap rj l (heap w)
  ∧ searched (trace w') = searched (trace w) ++ labels (expanded l) cts.
Proof.
  intros Hl Hrc. rewrite (run_person _ _ _ _ Hl).
  intros (movies & w1 & Hloop & Hret)%run_bind_inv.
  rewrite run_ret in Hret. injection Hret as <- <-.
  by apply (job_loop_ret rc cts) in Hloop as (-> & ? & ?).
Qed.

Lemma person_returns rc rj l cts w :
  heap w !! rj = Some (OList l) →
  expanded_heap rj l (heap w) !! rc = Some (OList cts) →
  Forall (healthy ia) (candidates entity_object (expanded l) cts) →
  ∃ movies w',
    items_by_entity ia Person entity_object (Some (VList rc)) (Some (VList rj)) w
    = (Ret (Some movies), w').
Proof.
  intros Hl Hrc Hh. rewrite (run_person _ _ _ _ Hl).
  destruct (job_loop_returns rc cts (expanded l) []
              {| heap := expanded_heap rj l (heap w); trace := trace w |}
              Hrc Hh) as (w1 & Hrun).
  rewrite (run_bind_ret _ _ _ _ _ Hrun). by eexists _, _.
Qed.

Lemma person_heap ct rj l w res w' :
  heap w !! rj = Some (OList l) →
  items_by_entity ia Person entity_object ct (Some (VList rj)) w = (res, w') →
  heap w' = expanded_heap rj l (heap w).
Proof.
  intros Hl. rewrite (run_person _ _ _ _ Hl). intros Hrun.
  eapply (heap_stable_bind _ _ (heap_stable_job_loop ia entity_object ct _ _))
    in Hrun; [done|].
  intros. apply heap_stable_ret.
Qed.

End PersonEnumeration.

(** ** Enumeration for a Person: expansion, labels and the kind test *)

(** C7. For a Person, every pair of a job type and a content type is looked
    up under the combined label, the bare job type standing in only when the
    combined label is absent; the run returns when every work found hydrates
    into a record with kind and title; and the works returned are works found
    under those labels whose own kind is one of the content types, every such
    work being returned or equal to one returned. *)
Theorem person_labels_and_kind ia entity_object rc rj l cts w :
  heap w !! rj = Some (OList l) →
  expanded_heap rj l (heap w) !! rc = Some (OList cts) →
  (∀ jt ct,
     movies_by_job_type entity_object jt ct
     = match entity_object !! (jt +:+ " " +:+ ct) with
       | Some ms => Some ms
       | None => entity_object !! jt
       end)
  ∧ (∀ jt, jt ∈ l → jt ∈ expanded l)
  ∧ (Forall (healthy ia) (candidates entity_object (expanded l) cts) →
     ∃ movies w',
       items_by_entity ia Person entity_object
         (Some (VList rc)) (Some (VList rj)) w = (Ret (Some movies), w'))
  ∧ ∀ movies w',
      items_by_entity ia Person entity_object
        (Some (VList rc)) (Some (VList rj)) w = (Ret (Some movies), w') →
      searched (trace w') = searched (trace w) ++ labels (expanded l) cts
      ∧ (∀ m, m ∈ movies →
           ∃ jt ct ms m0 k,
             jt ∈ expanded l ∧ ct ∈ cts
             ∧ movies_by_job_type entity_object jt ct = Some ms ∧ m0 ∈ ms
             ∧ update ia m0 = Ret m ∧ kind m = Some k ∧ k ∈ cts)
      ∧ (∀ jt ct ms m0 m k,
           jt ∈ expanded l → ct ∈ cts →
           movies_by_job_type entity_object jt ct = Some ms → m0 ∈ ms →
           update ia m0 = Ret m → kind m = Some k → k ∈ cts →
           m ∈ movies ∨ ∃ m', m' ∈ movies ∧ movie_eq ia m' m = true).
Proof.
  intros Hl Hrc. split; [done|]. split; [apply elem_of_expanded|].
  split; [by apply person_returns|].
  intros movies w' Hrun.
  destruct (person_ret _ _ _ _ _ _ _ _ _ Hl Hrc Hrun) as ([= ->] & _ & Hs).
  split; [done|]. split.
  - intros m [Hm|[Hm Hk]]%first_seen_passes; [by apply elem_of_nil in Hm|].
    apply elem_of_hydrated in Hm as (m0 & Hm0 & Hup).
    apply elem_of_candidates in Hm0 as (jt & ct & ms & Hjt & Hct & Hms & Hm0).
    apply kind_in_true in Hk as (k & Hk & Hkc).
    by exists jt, ct, ms, m0, k.
  - intros jt ct ms m0 m k Hjt Hct Hms Hm0 Hup Hk Hkc.
    apply first_seen_covers.
    + apply elem_of_hydrated. exists m0. split; [|done].
      apply elem_of_candidates. by exists jt, ct, ms.
    + apply kind_in_true. by exists k.
Qed.

(** C5, as the code has it.  For a Person no two works returned are equal,
    so that, works being compared by identifier, every identifier found with
    a requested kind occurs exactly once; for a Character the four lists are
    joined as they are, and for a Company the one list is returned as it
    is. *)
Theorem enumerator_dedup_by_kind ia entity_object ct jt w :
  (∀ rc rj l cts movies w',
     jt = Some (VList rj) → ct = Some (VList rc) →
     heap w !! rj = Some (OList l) →
     expanded_heap rj l (heap w) !! rc = Some (OList cts) →
     items_by_entity ia Person entity_object ct jt w = (Ret (Some movies), w') →
     distinct (movie_eq ia) movies
     ∧ (eq_by movieID (movie_eq ia) →
        NoDup (movieID <$> movies)
        ∧ ∀ m0 m, m0 ∈ candidates entity_object (expanded l) cts →
                  update ia m0 = Ret m → kind_in cts m = true →
                  movieID m ∈ movieID <$> movies))
  ∧ items_by_entity ia Character entity_object ct jt w
    = (Ret (Some (default [] (entity_object !! "feature")
                  ++ default [] (entity_object !! "tv")
                  ++ default [] (entity_object !! "video-game")
                  ++ default [] (entity_object !! "video"))), w)
  ∧ items_by_entity ia Company entity_object ct jt w
    = (Ret (entity_object !! "production companies"), w).
Proof.
  split; [|done].
  intros rc rj l cts movies w' -> -> Hl Hrc Hrun.
  destruct (person_ret _ _ _ _ _ _ _ _ _ Hl Hrc Hrun) as ([= ->] & _ & _).
  split; [apply first_seen_distinct, distinct_nil|].
  intros Hkey. split.
  - by apply (distinct_NoDup _ _ Hkey), first_seen_distinct, distinct_nil.
  - intros m0 m Hm0 Hup Hk.
    destruct (first_seen_covers (movie_eq ia) (kind_in cts)
                (omap (hydrate ia) (candidates entity_object (expanded l) cts))
                [] m) as [Hin|(m' & Hin & Heq)]; [|done| |].
    + apply elem_of_hydrated. by exists m0.
    + apply list_elem_of_fmap. by exists m.
    + apply list_elem_of_fmap. exists m'. split; [|done].
      symmetry. by apply Hkey.
Qed.

(** ** Assembly *)

Section Assembly.
Context (E : EntryClass) (ia : IMDb) (task : Task).

Lemma run_add_entry entries item w :
  add_entry E ia task entries item w =
  match title item with
  | None => (Raise (KeyError "title"), w)
  | Some t =>
      let w1 := {| heap := heap w;
                   trace := trace w ++ [Call (get_imdbID_call item)] |} in
      match get_imdbID ia item with
      | Raise e => (Raise e, w1)
      | Ret None => (Raise TypeError, w1)
      | Ret (Some i) =>
          let entry := {| entry_title := t; imdb_id := "tt" +:+ i; url := "" |} in
          if isvalid E entry then
            if contains (entry_eq E) entry entries then (Ret entries, w1)
            else
              (Ret (entries ++ [entry]),
               if options_test task then
                 {| heap := heap w;
                    trace := ((trace w1 ++ [Log INFO MsgTestMode])
                              ++ [Log INFO (MsgTestTitle t)])
                             ++ [Log INFO (MsgTestImdbId ("tt" +:+ i))] |}
               else w1)
          else
            (Ret entries,
             {| heap := heap w;
                trace := trace w1 ++ [Log ERROR (MsgInvalidEntry entry)] |})
      end
  end.
Proof.
  unfold add_entry. destruct (title item) as [t|]; [|reflexivity].
  rewrite run_bind. cbn [getitem]. rewrite run_ret, run_bind. unfold backend.
  destruct (get_imdbID ia item) as [[i|]|e]; [|reflexivity..].
  rewrite run_bind. cbn [str_operand]. rewrite run_ret. cbv zeta.
  destruct (isvalid E _); [|reflexivity].
  destruct (contains (entry_eq E) _ entries); [reflexivity|]. simpl.
  destruct (options_test task); reflexivity.
Qed.

Lemma add_entry_ret entries item w entries' w' :
  add_entry E ia task entries item w = (Ret entries', w') →
  ∃ e, made ia item = Some e
       ∧ entries' = add_new (entry_eq E) (isvalid E) entries e
       ∧ heap w' = heap w.
Proof.
  rewrite run_add_entry. unfold made.
  destruct (title item) as [t|]; [|done].
  destruct (get_imdbID ia item) as [[i|]|e]; [|done..]. simpl.
  intros Hrun. eexists. split; [done|]. revert Hrun. unfold add_new.
  destruct (isvalid E _).
  - destruct (contains (entry_eq E) _ entries); simpl.
    + by intros [= <- <-].
    + intros [= <- <-]. by destruct (options_test task).
  - rewrite andb_false_r. by intros [= <- <-].
Qed.

Lemma add_entry_returns entries item e w :
  made ia item = Some e →
  ∃ w', add_entry E ia task entries item w
        = (Ret (add_new (entry_eq E) (isvalid E) entries e), w').
Proof.
  rewrite run_add_entry. unfold made, add_new.
  destruct (title item) as [t|]; [|done].
  destruct (get_imdbID ia item) as [[i|]|x]; [|done..]. simpl.
  intros [= <-].
  destruct (isvalid E _).
  - destruct (contains (entry_eq E) _ entries); simpl; by eexists.
  - rewrite andb_false_r. by eexists.
Qed.

Lemma entries_loop_ret items entries w entries' w' :
  for_each items (add_entry E ia task) entries w = (Ret entries', w') →
  entries' = first_seen (entry_eq E) (isvalid E) (omap (made ia) items) entries
  ∧ heap w' = heap w.
Proof.
  revert entries w. induction items as [|item items IH]; intros entries w; simpl.
  - rewrite run_ret. by intros [= <- <-].
  - intros (entries1 & w1 & Hstep & Hrest)%run_bind_inv.
    apply add_entry_ret in Hstep as (e & -> & -> & Hh).
    apply IH in Hrest as [-> Hh']. split; [done|congruence].
Qed.

Lemma assemble_ret items w entries w' :
  assemble E ia task items w = (Ret entries, w') →
  entries = first_seen (entry_eq E) (isvalid E) (omap (made ia) items) []
  ∧ heap w' = heap w.
Proof. apply entries_loop_ret. Qed.

Lemma assemble_returns items w :
  Forall (λ item, is_Some (made ia item)) items →
  ∃ w', assemble E ia task items w
        = (Ret (first_seen (entry_eq E) (isvalid E) (omap (made ia) items) []),
           w').
Proof.
  unfold assemble. generalize (@nil Entry) as entries. intros entries Hitems.
  revert entries w.
  induction Hitems as [|item items [e He] _ IH]; intros entries w; simpl.
  - by eexists.
  - destruct (add_entry_returns entries item e w He) as (w1 & Hrun).
    rewrite (run_bind_ret _ _ _ _ _ Hrun), He. apply IH.
Qed.

Lemma elem_of_made (items : list Movie) e :
  e ∈ omap (made ia) items ↔
  ∃ item t i, item ∈ items ∧ title item = Some t
              ∧ get_imdbID ia item = Ret (Some i)
              ∧ e = {| entry_title := t; imdb_id := "tt" +:+ i; url := "" |}.
Proof.
  rewrite list_elem_of_omap. unfold made. split.
  - intros (item & Hitem & He).
    destruct (title item) as [t|] eqn:Ht; [|done].
    destruct (get_imdbID ia item) as [[i|]|] eqn:Hi; [|done..].
    exists item, t, i. by simplify_eq.
  - intros (item & t & i & Hitem & Ht & Hi & ->).
    exists item. by rewrite Ht, Hi.
Qed.

End Assembly.

(** ** The cap and the run as a whole *)

Lemma int_le_num n q :
  int_le n (Some (VNum q)) = true ↔ (inject_Z (Z.of_nat n) <= q)%Q.
Proof. apply Qle_bool_iff. Qed.

Lemma run_cap entries max w :
  cap entries max w =
  if int_le (length entries) max then (Ret (Some entries), w)
  else (Ret None,
        {| heap := heap w;
           trace := trace w
                    ++ [Log WARNING (MsgTooManyEntries (length entries) max)] |}).
Proof. unfold cap. by destruct (int_le _ _). Qed.

Lemma run_on_task_input order E task ia config w conf entries w1 d :
  collect order E task ia config w = (Ret (Some (conf, entries)), w1) →
  heap w1 !! conf = Some (ODict d) →
  on_task_input order (Some ia) E task config w
  = cap entries (d !! "max_entries") w1.
Proof.
  intros Hcollect Hconf. unfold on_task_input.
  rewrite (run_bind_ret _ _ _ _ _ Hcollect).
  by rewrite (run_bind_ret _ _ _ _ _ (run_dict_get _ "max_entries" _ _ Hconf)).
Qed.

(** A run that hands back entries has assembled exactly them. *)
Lemma on_task_input_assembled order imdb_import E task config w entries w' :
  on_task_input order imdb_import E task config w = (Ret (Some entries), w') →
  ∃ ia items w1 w2,
    imdb_import = Some ia
    ∧ assemble E ia task items w1 = (Ret entries, w2).
Proof.
  unfold on_task_input. destruct imdb_import as [ia|]; [|done].
  intros ([[conf entries']|] & w1 & Hcollect & Hrest)%run_bind_inv; [|done].
  apply run_bind_inv in Hrest as (max & w2 & _ & Hcap).
  rewrite run_cap in Hcap. destruct (int_le _ _); [|done].
  injection Hcap as -> ->.
  exists ia. unfold collect in Hcollect.
  apply run_bind_inv in Hcollect as (r & w3 & _ & Hcollect).
  apply run_bind_inv in Hcollect as ([[k entity]|] & w4 & _ & Hcollect); [|done].
  apply run_bind_inv in Hcollect as (ct & w5 & _ & Hcollect).
  apply run_bind_inv in Hcollect as (jt & w6 & _ & Hcollect).
  apply run_bind_inv in Hcollect as ([[|item items]|] & w7 & _ & Hcollect);
    [done| |done].
  apply run_bind_inv in Hcollect as (? & w8 & _ & Hcollect).
  apply run_bind_inv in Hcollect as (es & w9 & Hassemble & Hret).
  rewrite run_ret in Hret. injection Hret as -> -> ->.
  by exists (item :: items), w8, w1.
Qed.

(** C2. A run whose deduplicated entries outnumber [max_entries] hands back
    nothing, neither the entries nor a prefix of them, and logs the warning;
    a run within the limit hands back all of them. *)
Theorem cap_fails_closed order E task ia config w conf entries w1 d q :
  collect order E task ia config w = (Ret (Some (conf, entries)), w1) →
  heap w1 !! conf = Some (ODict d) →
  d !! "max_entries" = Some (VNum q) →
  ((q < inject_Z (Z.of_nat (length entries)))%Q →
   on_task_input order (Some ia) E task config w
   = (Ret None,
      {| heap := heap w1;
         trace := trace w1
                  ++ [Log WARNING
                        (MsgTooManyEntries (length entries)
                           (Some (VNum q)))] |}))
  ∧ ((inject_Z (Z.of_nat (length entries)) <= q)%Q →
     on_task_input order (Some ia) E task config w
     = (Ret (Some entries), w1)).
Proof.
  intros Hcollect Hconf Hmax.
  rewrite (run_on_task_input _ _ _ _ _ _ _ _ _ _ Hcollect Hconf), Hmax, run_cap.
  split.
  - intros Hlt. destruct (int_le _ _) eqn:Hle; [|done].
    apply int_le_num in Hle. by apply Qlt_not_le in Hlt.
  - intros Hle. apply int_le_num in Hle. by rewrite Hle.
Qed.

(** ** The properties at the example inputs *)

Lemma same_movieID_by_key : eq_by movieID same_movieID.
Proof. intros x y. apply String.eqb_eq. Qed.

Lemma same_imdb_id_by_key : eq_by imdb_id same_imdb_id.
Proof. intros x y. apply String.eqb_eq. Qed.

(** C8 at [nm0000375], which only the Person pattern matches, and at a title
    identifier, which no pattern matches. *)
Lemma resolve_by_kind_witness :
  entity_type_and_object ENTITIES_FORMATS_items
    (backend_with (Ret a_person) Ret) (Some (VStr "nm0000375")) empty_world
  = (Ret (Some (Person, a_person)),
     {| heap := [];
        trace := [Call (get_person_call "0000375");
                  Log INFO (MsgStarting Person a_person);
                  Call (get_person_call "0000375")] |})
  ∧ ∃ w', on_task_input ENTITIES_FORMATS_items
            (Some (backend_with (Ret a_person) Ret)) plain_entries quiet_task
            (ConfigStr "http://www.imdb.com/title/tt0113277/") empty_world
          = (Ret None, w')
          ∧ calls (trace w') = []
          ∧ last (trace w') = Some (Log ERROR (MsgCouldNotResolve TypeError)).
Proof.
  split.
  - apply (proj1 (resolve_by_kind ENTITIES_FORMATS_items
                    (backend_with (Ret a_person) Ret) "nm0000375"
                    (Permutation_refl _)) Person "0000375").
    + reflexivity.
    + intros [] Hne; [congruence|reflexivity..].
  - apply (proj2 (resolve_by_kind ENTITIES_FORMATS_items
                    (backend_with (Ret a_person) Ret)
                    "http://www.imdb.com/title/tt0113277/"
                    (Permutation_refl _)))
      with (d := {[ "id" := VStr "http://www.imdb.com/title/tt0113277/" ]}).
    + intros []; reflexivity.
    + reflexivity.
    + reflexivity.
Defined.

(** C7 at the same input: the run returns, and what it returns has the
    requested kind. *)
Lemma person_labels_and_kind_witness :
  ∃ movies w',
    items_by_entity (backend_with (Ret a_person) Ret) Person a_person
      (Some (VList 1)) (Some (VList 0)) actor_movie_world
    = (Ret (Some movies), w')
    ∧ ∀ m, m ∈ movies → kind m = Some "movie".
Proof.
  destruct (person_labels_and_kind (backend_with (Ret a_person) Ret) a_person
              1 0 ["actor"] ["movie"] actor_movie_world eq_refl eq_refl)
    as (_ & _ & Hreturns & Hsound).
  assert (candidates a_person (expanded ["actor"]) ["movie"]
          = [heat; ronin; ronin]) as Hc by reflexivity.
  destruct Hreturns as (movies & w' & Hrun).
  { rewrite Hc.
    repeat (apply Forall_cons_2;
            [eexists; split; [reflexivity|split; eexists; reflexivity]|]).
    apply Forall_nil_2. }
  exists movies, w'. split; [exact Hrun|].
  intros m Hm.
  destruct (Hsound movies w' Hrun) as (_ & Hkind & _).
  destruct (Hkind m Hm) as (_ & _ & _ & _ & k & _ & _ & _ & _ & _ & Hk & Hin).
  apply list_elem_of_singleton in Hin. congruence.
Defined.

(** C5, the claim as stated, fails for a Character: a work filed under two
    fields is returned twice. *)
Lemma character_overlap_repeated :
  items_by_entity (backend_with (Ret a_character) Ret) Character a_character
    None None empty_world
  = (Ret (Some [heat; heat]), empty_world)
  ∧ ¬ NoDup (movieID <$> [heat; heat]).
Proof.
  split; [reflexivity|].
  intros [Hnot _]%NoDup_cons. apply Hnot, list_elem_of_here.
Qed.

(** C5 as the code has it, at the Person input. *)
Lemma enumerator_dedup_by_kind_witness :
  items_by_entity (backend_with (Ret a_person) Ret) Person a_person
    (Some (VList 1)) (Some (VList 0)) actor_movie_world
  = (Ret (Some [heat; ronin]),
     (items_by_entity (backend_with (Ret a_person) Ret) Person a_person
        (Some (VList 1)) (Some (VList 0)) actor_movie_world).2)
  ∧ NoDup (movieID <$> [heat; ronin]).
Proof.
  assert (items_by_entity (backend_with (Ret a_person) Ret) Person a_person
            (Some (VList 1)) (Some (VList 0)) actor_movie_world
          = (Ret (Some [heat; ronin]),
             (items_by_entity (backend_with (Ret a_person) Ret) Person a_person
                (Some (VList 1)) (Some (VList 0)) actor_movie_world).2))
    as Hrun by reflexivity.
  split; [exact Hrun|].
  destruct (enumerator_dedup_by_kind (backend_with (Ret a_person) Ret) a_person
              (Some (VList 1)) (Some (VList 0)) actor_movie_world)
    as [Hperson _].
  destruct (Hperson 1 0 ["actor"] ["movie"] [heat; ronin] _
              eq_refl eq_refl eq_refl eq_refl Hrun) as [_ Hkey].
  apply Hkey, same_movieID_by_key.
Defined.

(** C2 at a company with 201 works and the default [max_entries] of 200. *)
Lemma cap_fails_closed_witness :
  on_task_input ENTITIES_FORMATS_items
    (Some (backend_with (Ret (a_company 201)) Ret)) plain_entries quiet_task
    (ConfigStr "co0051941") empty_world
  = (Ret None,
     {| heap := heap (collect ENTITIES_FORMATS_items plain_entries quiet_task
                        (backend_with (Ret (a_company 201)) Ret)
                        (ConfigStr "co0051941") empty_world).2;
        trace := trace (collect ENTITIES_FORMATS_items plain_entries quiet_task
                          (backend_with (Ret (a_company 201)) Ret)
                          (ConfigStr "co0051941") empty_world).2
                 ++ [Log WARNING
                       (MsgTooManyEntries (length (company_entries 201))
                          (Some (VNum 200)))] |}).
Proof.
  apply (cap_fails_closed ENTITIES_FORMATS_items plain_entries quiet_task
           (backend_with (Ret (a_company 201)) Ret) (ConfigStr "co0051941")
           empty_world 0 (company_entries 201) _ (bare_config "co0051941") 200).
  - vm_compute. reflexivity.
  - vm_compute. reflexivity.
  - reflexivity.
  - vm_compute. reflexivity.
Defined.

(** ** Where the code departs from the specification *)

(** C3. A schema-valid configuration whose [job_types] is the list
    [["actor"]]: after one run for a Person the list holds [actress] too and
    the configuration no longer satisfies the schema; a second run with the
    same configuration appends [actress] again and searches its labels
    twice. *)
Theorem job_types_list_is_extended :
  let ia := backend_with (Ret a_person) Ret in
  let once := (run_plugin ia (ConfigDict 0) actor_config_world).2 in
  let twice := (run_plugin ia (ConfigDict 0) once).2 in
  schema (heap actor_config_world) (ConfigDict 0) = true
  ∧ heap actor_config_world !! 1 = Some (OList ["actor"])
  ∧ heap once !! 1 = Some (OList ["actor"; "actress"])
  ∧ schema (heap once) (ConfigDict 0) = false
  ∧ heap twice !! 1 = Some (OList ["actor"; "actress"; "actress"])
  ∧ searched (trace twice)
    = searched (trace once)
      ++ ["actor movie"; "actress movie"; "actress movie"].
Proof. repeat split; vm_compute; reflexivity. Qed.

(** C9. A backend error while the entity is resolved is caught and the run
    returns nothing; the same error while a work is hydrated leaves
    [on_task_input] as an exception. *)
Theorem hydration_error_escapes :
  run_plugin (backend_with (Raise IMDbError) Ret) (ConfigStr "nm0000375")
    empty_world
  = (Ret None,
     {| heap := [ODict (bare_config "nm0000375");
                 OList ["movie"]; OList ["actor"]];
        trace := [Call (get_person_call "0000375");
                  Log ERROR (MsgCouldNotResolve IMDbError)] |})
  ∧ (run_plugin (backend_with (Ret a_person) unreachable)
       (ConfigStr "nm0000375") empty_world).1
    = Raise IMDbError.
Proof. split; vm_compute; reflexivity. Qed.

(** C10, the claim as stated, fails for the title of a Person's work: with a
    kind among the content types and no title, the run ends in a
    [TypeError], which is not a lookup error; with a kind outside the content
    types, the work is passed over and nothing is raised. *)
Lemma missing_title_is_a_type_error :
  (run_plugin (backend_with (Ret {[ "actor movie" := [untitled] ]}) Ret)
     (ConfigStr "nm0000375") empty_world).1
  = Raise TypeError
  ∧ (∀ key, Raise TypeError ≠ Raise (A := option (list Entry)) (KeyError key))
  ∧ (run_plugin (backend_with (Ret {[ "actor movie" := [untitled_series] ]}) Ret)
       (ConfigStr "nm0000375") empty_world).1
    = Ret None.
Proof. repeat split; try (vm_compute; reflexivity). intros key. discriminate. Qed.

(** An exception raised by the body of a loop ends the loop. *)
Lemma for_each_raise {A S} (body : S → A → M S) pre x post s w s1 w1 e w2 :
  for_each pre body s w = (Ret s1, w1) →
  body s1 x w1 = (Raise e, w2) →
  for_each (pre ++ x :: post) body s w = (Raise e, w2).
Proof.
  revert s w. induction pre as [|y pre IH]; intros s w; simpl.
  - rewrite run_ret. intros [= <- <-] Hx. by rewrite run_bind, Hx.
  - intros (s' & w' & Hy & Hpre)%run_bind_inv Hx.
    rewrite (run_bind_ret _ _ _ _ _ Hy). by apply IH.
Qed.

(** * Further properties *)

(** ** What [re.search] finds *)

Lemma append_nil_l s : "" +:+ s = s.
Proof. reflexivity. Qed.

Lemma append_cons c s t : String c s +:+ t = String c (s +:+ t).
Proof. reflexivity. Qed.

Lemma strip_prefix_spec p s rest :
  strip_prefix p s = Some rest ↔ s = p +:+ rest.
Proof.
  split; [apply strip_prefix_app|].
  intros ->. induction p as [|a p IH]; [done|].
  rewrite append_cons. simpl. by rewrite Ascii.eqb_refl.
Qed.

Lemma read_digits_spec n s g :
  read_digits n s = Some g ↔
  ∃ post, s = g +:+ post ∧ String.length g = n ∧ digits_only g = true.
Proof.
  revert s g. induction n as [|n IH]; intros s g; simpl.
  - split.
    + intros [= <-]. by exists s.
    + intros (post & -> & Hlen & _). by destruct g.
  - split.
    + destruct s as [|c s]; [done|]. destruct (is_digit c) eqn:Hc; [|done].
      destruct (read_digits n s) as [g'|] eqn:Hg; [|done].
      intros [= <-]. apply IH in Hg as (post & -> & <- & Hd).
      exists post. simpl. by rewrite Hc, Hd.
    + intros (post & -> & Hlen & Hd). destruct g as [|c g]; [done|].
      rewrite append_cons. simpl in *. apply andb_true_iff in Hd as [-> Hd].
      assert (read_digits n (g +:+ post) = Some g) as ->; [|done].
      apply IH. exists post. split; [done|]. split; [lia|done].
Qed.

Lemma match_here_spec f rest g :
  match_here f rest = Some g ↔ occurrence f g rest.
Proof.
  unfold match_here, occurrence. split.
  - destruct (strip_prefix (fmt_prefix f) rest) as [tail|] eqn:Hp; [|done].
    apply strip_prefix_spec in Hp as ->.
    intros (post & -> & Hlen & Hd)%read_digits_spec. by exists post.
  - intros (post & -> & Hlen & Hd).
    rewrite (proj2 (strip_prefix_spec _ _ _) eq_refl).
    apply read_digits_spec. by exists post.
Qed.

Lemma re_search_None f s :
  re_search f s = None ↔ ∀ pre rest, s = pre +:+ rest → match_here f rest = None.
Proof.
  induction s as [|c s IH]; simpl.
  - split.
    + destruct (match_here f "") eqn:Hm; [done|].
      intros _ pre rest Hs. by destruct pre, rest.
    + intros H. by rewrite (H "" "" eq_refl).
  - split.
    + destruct (match_here f (String c s)) eqn:Hm; [done|].
      intros Hs pre rest Hsplit. destruct pre as [|c' pre].
      * rewrite append_nil_l in Hsplit. by subst rest.
      * rewrite append_cons in Hsplit. injection Hsplit as -> ->.
        by eapply IH.
    + intros H. rewrite (H "" (String c s) eq_refl). apply IH.
      intros pre rest ->. by apply (H (String c pre) rest).
Qed.

Lemma re_search_Some f s g :
  re_search f s = Some g →
  ∃ pre rest, s = pre +:+ rest ∧ match_here f rest = Some g
    ∧ ∀ pre' rest', s = pre' +:+ rest' →
        String.length pre' < String.length pre → match_here f rest' = None.
Proof.
  induction s as [|c s IH]; simpl.
  - destruct (match_here f "") as [g'|] eqn:Hm; [|done].
    intros [= ->]. exists "", "". split_and!; [done..|]. simpl. lia.
  - destruct (match_here f (String c s)) as [g'|] eqn:Hm.
    + intros [= ->]. exists "", (String c s). split_and!; [done..|]. simpl. lia.
    + intros (pre & rest & -> & Hrest & Hleft)%IH.
      exists (String c pre), rest. split_and!; [done..|].
      intros pre' rest' Hsplit Hlen. destruct pre' as [|c' pre'].
      * rewrite append_nil_l in Hsplit. by subst rest'.
      * rewrite append_cons in Hsplit. injection Hsplit as -> Hs.
        apply (Hleft pre' rest' Hs). simpl in Hlen. lia.
Qed.

(** X1. What the search returns is the digit group of the leftmost place
    where the string reads the kind's prefix followed by the required number
    of decimal digits. *)
Theorem re_search_leftmost f s g :
  re_search f s = Some g →
  ∃ pre rest,
    s = pre +:+ rest ∧ occurrence f g rest
    ∧ ∀ pre' rest' g', s = pre' +:+ rest' →
        String.length pre' < String.length pre → ¬ occurrence f g' rest'.
Proof.
  intros (pre & rest & -> & Hrest & Hleft)%re_search_Some.
  exists pre, rest. split; [done|]. split; [by apply match_here_spec|].
  intros pre' rest' g' Hsplit Hlen Hocc%match_here_spec.
  by rewrite (Hleft pre' rest' Hsplit Hlen) in Hocc.
Qed.

(** X2. The search fails exactly when the prefix followed by the digits
    occurs nowhere in the string. *)
Theorem re_search_fails_iff_absent f s :
  re_search f s = None ↔
  ∀ pre rest g, s = pre +:+ rest → ¬ occurrence f g rest.
Proof.
  rewrite re_search_None. split.
  - intros H pre rest g Hs Hocc%match_here_spec. by rewrite (H pre rest Hs) in Hocc.
  - intros H pre rest Hs. destruct (match_here f rest) as [g|] eqn:Hm; [|done].
    apply match_here_spec in Hm. by destruct (H pre rest g Hs).
Qed.

Lemma re_search_leftmost_witness :
  ∃ pre rest,
    "http://www.imdb.com/name/nm0000375/" = pre +:+ rest
    ∧ occurrence (ENTITIES_FORMATS Person) "0000375" rest.
Proof.
  destruct (re_search_leftmost (ENTITIES_FORMATS Person)
              "http://www.imdb.com/name/nm0000375/" "0000375" eq_refl)
    as (pre & rest & Hs & Hocc & _).
  by exists pre, rest.
Defined.

(** ** Resolution in iteration order *)

Lemma loop_first ia pre k post s g :
  (∀ k', k' ∈ pre → re_search (ENTITIES_FORMATS k') s = None) →
  re_search (ENTITIES_FORMATS k) s = Some g →
  entity_type_and_object_loop ia (pre ++ k :: post) s =
    (shown ← lookup_entity ia k g;
     log INFO (MsgStarting k shown);;
     entity ← lookup_entity ia k g;
     mret (Some (k, entity))).
Proof.
  intros Hpre Hk. induction pre as [|k' pre IH]; simpl.
  - by rewrite Hk.
  - rewrite (Hpre k') by apply list_elem_of_here.
    apply IH. intros k'' Hin. by apply Hpre, list_elem_of_further.
Qed.

Lemma run_resolved ia k g w :
  (shown ← lookup_entity ia k g;
   log INFO (MsgStarting k shown);;
   entity ← lookup_entity ia k g;
   mret (Some (k, entity))) w =
  match get_entity ia k g with
  | Ret e =>
      (Ret (Some (k, e)),
       {| heap := heap w;
          trace := trace w ++ [Call (get_entity_call k g);
                               Log INFO (MsgStarting k e);
                               Call (get_entity_call k g)] |})
  | Raise x =>
      (Raise x,
       {| heap := heap w;
          trace := trace w ++ [Call (get_entity_call k g)] |})
  end.
Proof.
  rewrite lookup_entity_backend. unfold mbind, M_bind, backend, log, emit.
  destruct (get_entity ia k g) as [e|x]; simpl; [|done].
  by rewrite <- !app_assoc.
Qed.

Lemma resolve_first_in_order_aux ia pre k post s g w :
  (∀ k', k' ∈ pre → re_search (ENTITIES_FORMATS k') s = None) →
  re_search (ENTITIES_FORMATS k) s = Some g →
  entity_type_and_object (pre ++ k :: post) ia (Some (VStr s)) w =
  match get_entity ia k g with
  | Ret e =>
      (Ret (Some (k, e)),
       {| heap := heap w;
          trace := trace w ++ [Call (get_entity_call k g);
                               Log INFO (MsgStarting k e);
                               Call (get_entity_call k g)] |})
  | Raise x =>
      (Raise x,
       {| heap := heap w;
          trace := trace w ++ [Call (get_entity_call k g)] |})
  end.
Proof.
  intros Hpre Hk. unfold entity_type_and_object.
  by rewrite (loop_first ia pre k post s g Hpre Hk), run_resolved.
Qed.

(** X3. Of the kinds whose pattern matches the identifier, the one that
    comes first in the iteration order of [ENTITIES_FORMATS] is the one the
    identifier is resolved as, by that kind's backend lookup on the digits
    captured. *)
Theorem resolve_first_in_order ia pre k post s g w :
  (∀ k', k' ∈ pre → re_search (ENTITIES_FORMATS k') s = None) →
  re_search (ENTITIES_FORMATS k) s = Some g →
  entity_type_and_object (pre ++ k :: post) ia (Some (VStr s)) w =
  match get_entity ia k g with
  | Ret e =>
      (Ret (Some (k, e)),
       {| heap := heap w;
          trace := trace w ++ [Call (get_entity_call k g);
                               Log INFO (MsgStarting k e);
                               Call (get_entity_call k g)] |})
  | Raise x =>
      (Raise x,
       {| heap := heap w;
          trace := trace w ++ [Call (get_entity_call k g)] |})
  end.
Proof. apply resolve_first_in_order_aux. Qed.

(** X3 at an identifier that reads both as a person and as a company: the
    order decides. *)
Lemma resolve_first_in_order_witness :
  (entity_type_and_object [Person; Company; Character]
     (backend_with (Ret a_person) Ret)
     (Some (VStr "nm0000375co0051941")) empty_world).1
  = Ret (Some (Person, a_person))
  ∧ (entity_type_and_object [Company; Person; Character]
       (backend_with (Ret a_person) Ret)
       (Some (VStr "nm0000375co0051941")) empty_world).1
    = Ret (Some (Company, a_person)).
Proof.
  split.
  - rewrite (resolve_first_in_order (backend_with (Ret a_person) Ret)
               [] Person [Company; Character] "nm0000375co0051941" "0000375").
    + reflexivity.
    + intros k' Hk'. by apply elem_of_nil in Hk'.
    + reflexivity.
  - rewrite (resolve_first_in_order (backend_with (Ret a_person) Ret)
               [] Company [Person; Character] "nm0000375co0051941" "0051941").
    + reflexivity.
    + intros k' Hk'. by apply elem_of_nil in Hk'.
    + reflexivity.
Defined.

Lemma calls_snoc_call t c : calls (t ++ [Call c]) = calls t ++ [c].
Proof. unfold calls. by rewrite omap_app. Qed.

(** X4. A backend error raised by the lookup of the entity is caught: the
    run logs it, returns nothing, and has made that one call. *)
Theorem resolution_error_is_recovered
    ia E task pre k post config d s g x w :
  (∀ k', k' ∈ pre → re_search (ENTITIES_FORMATS k') s = None) →
  re_search (ENTITIES_FORMATS k) s = Some g →
  config_dict (heap w) config = Some d →
  d !! "id" = Some (VStr s) →
  get_entity ia k g = Raise x →
  ∃ w', on_task_input (pre ++ k :: post) (Some ia) E task config w
        = (Ret None, w')
        ∧ calls (trace w') = calls (trace w) ++ [get_entity_call k g]
        ∧ last (trace w') = Some (Log ERROR (MsgCouldNotResolve x)).
Proof.
  intros Hpre Hk Hd Hid Hx.
  destruct (prepare_config_returns config d w Hd)
    as (r & w1 & Hprep & (d1 & Hr1 & Hid1 & _) & Hcalls).
  eexists. unfold on_task_input, collect.
  rewrite run_bind, (run_bind_ret _ _ _ _ _ Hprep).
  rewrite run_bind. unfold try_except.
  rewrite (run_bind_ret _ _ _ _ _ (run_dict_get _ "id" _ _ Hr1)).
  rewrite Hid1, Hid.
  rewrite run_bind, (resolve_first_in_order_aux ia pre k post s g w1 Hpre Hk), Hx.
  simpl. split; [done|]. simpl. split.
  - by rewrite calls_snoc_log, calls_snoc_call, Hcalls.
  - by rewrite last_snoc.
Qed.

(** X4 at a backend that cannot be reached, asked for a person. *)
Lemma resolution_error_is_recovered_witness :
  ∃ w', on_task_input ([] ++ Person :: [Company; Character])
          (Some (backend_with (Raise IMDbError) Ret)) plain_entries quiet_task
          (ConfigStr "nm0000375") empty_world
        = (Ret None, w')
        ∧ calls (trace w')
          = calls (trace empty_world) ++ [get_entity_call Person "0000375"]
        ∧ last (trace w') = Some (Log ERROR (MsgCouldNotResolve IMDbError)).
Proof.
  apply (resolution_error_is_recovered
           (backend_with (Raise IMDbError) Ret) plain_entries quiet_task
           [] Person [Company; Character] (ConfigStr "nm0000375")
           {[ "id" := VStr "nm0000375" ]} "nm0000375" "0000375" IMDbError
           empty_world).
  - intros k' Hk'. by apply elem_of_nil in Hk'.
  - reflexivity.
  - reflexivity.
  - reflexivity.
  - reflexivity.
Defined.

(** ** [prepare_config] step by step *)

Section Shape.
Context (r : loc) (w : world) (Hr : r < length (heap w)).

Lemma shape_lookup d xs ls w' :
  shape r d xs ls w w' → heap w' !! r = Some (ODict d).
Proof.
  intros [-> _]. rewrite lookup_app_l by by rewrite length_insert.
  by apply list_lookup_insert_eq.
Qed.

Lemma shape_length d xs ls w' :
  shape r d xs ls w w' → length (heap w') = length (heap w) + length xs.
Proof. intros [-> _]. by rewrite length_app, length_insert. Qed.

Lemma shape_alloc d xs ls o w' :
  shape r d xs ls w w' →
  returns (alloc o) w' (λ n w'',
    n = length (heap w) + length xs ∧ shape r d (xs ++ [o]) ls w w'').
Proof.
  intros Hs. eexists _, _. split; [done|]. split; [by eapply shape_length|].
  destruct Hs as [Hh Ht]. split; simpl; [|done]. by rewrite Hh, app_assoc.
Qed.

Lemma shape_log d xs ls lvl msg w' :
  shape r d xs ls w w' →
  returns (log lvl msg) w' (λ _ w'', shape r d xs (ls ++ [Log lvl msg]) w w'').
Proof.
  intros [Hh Ht]. eexists _, _. split; [done|]. split; simpl; [done|].
  by rewrite Ht, app_assoc.
Qed.

Lemma shape_read_dict d xs ls w' :
  shape r d xs ls w w' → read_dict r w' = (Ret d, w').
Proof.
  intros Hs. unfold read_dict, read. rewrite run_bind.
  by rewrite (shape_lookup _ _ _ _ Hs).
Qed.

Lemma shape_write d d' xs ls w' :
  shape r d xs ls w w' →
  returns (write r (ODict d')) w' (λ _ w'', shape r d' xs ls w w'').
Proof.
  intros [Hh Ht]. eexists _, _. split; [done|]. split; simpl; [|done].
  rewrite Hh, insert_app_l by by rewrite length_insert.
  by rewrite list_insert_insert_eq.
Qed.

Lemma shape_setdefault d xs ls key v w' :
  shape r d xs ls w w' →
  returns (dict_setdefault r key v) w'
    (λ _ w'', shape r (with_default key v d) xs ls w w'').
Proof.
  intros Hs. unfold dict_setdefault, with_default. apply returns_bind.
  exists d, w'. split; [by eapply shape_read_dict|].
  destruct (d !! key); [by apply returns_ret|by eapply shape_write].
Qed.

Lemma shape_setitem d xs ls key v w' :
  shape r d xs ls w w' →
  returns (dict_setitem r key v) w'
    (λ _ w'', shape r (<[key := v]> d) xs ls w w'').
Proof.
  intros Hs. unfold dict_setitem. apply returns_bind.
  exists d, w'. split; [by eapply shape_read_dict|]. by eapply shape_write.
Qed.

Lemma shape_dict_get d xs ls key w' :
  shape r d xs ls w w' → dict_get r key w' = (Ret (d !! key), w').
Proof. intros Hs. apply run_dict_get. by eapply shape_lookup. Qed.

End Shape.

Lemma with_default_ne key key' v d :
  key ≠ key' → with_default key v d !! key' = d !! key'.
Proof.
  intros Hne. unfold with_default. destruct (d !! key); [done|].
  by rewrite lookup_insert_ne.
Qed.

Lemma with_default_eq key v d :
  with_default key v d !! key = Some (default v (d !! key)).
Proof.
  unfold with_default. destruct (d !! key) eqn:Hk; [done|].
  by rewrite lookup_insert_eq.
Qed.

(** The run of [prepare_config] on a dict, in one equation. *)
Lemma prepare_config_dict_shape r d w :
  heap w !! r = Some (ODict d) →
  returns (prepare_config (ConfigDict r)) w (λ r' w',
    r' = r
    ∧ shape r (prepared_dict (length (heap w)) d)
        (prepared_lists (length (heap w)) d)
        (prepared_logs (length (heap w)) d) w w').
Proof.
  intros Hd. assert (r < length (heap w)) as Hr by by eapply lookup_lt_Some.
  assert (shape r d [] [] w w) as H0.
  { split; [|by rewrite app_nil_r]. by rewrite app_nil_r, list_insert_id. }
  set (n := length (heap w)).
  unfold prepare_config. apply returns_bind, returns_ret.
  apply returns_bind.
  eapply returns_mono; [by eapply shape_alloc|].
  intros ? w1 [-> H1]. cbv beta. apply returns_bind.
  eapply returns_mono; [by eapply shape_setdefault|].
  intros ? w2 H2. cbv beta in *. apply returns_bind.
  eapply returns_mono; [by eapply shape_alloc|].
  intros ? w3 [-> H3]. cbv beta. apply returns_bind.
  eapply returns_mono; [by eapply shape_setdefault|].
  intros ? w4 H4. cbv beta in *. apply returns_bind.
  eapply returns_mono; [by eapply shape_setdefault|].
  intros ? w5 H5. cbv beta in *. simpl length in H5.
  replace (length (heap w) + 0) with n in H5 by (unfold n; lia).
  replace (length (heap w) + 1) with (S n) in H5 by (unfold n; lia).
  fold (with_defaults n d) in H5.
  apply returns_bind. eexists _, _.
  split; [by eapply shape_dict_get|].
  unfold prepared_dict, prepared_lists, prepared_logs, wrapped_lists.
  set (d3 := with_defaults n d) in *.
  assert (∃ d4 xs ls,
    returns (match d3 !! "content_types" with
             | Some (VStr s) =>
                 log DEBUG MsgConvertedContentType
                 ≫= (λ _ : (),
                       alloc (OList [s])
                       ≫= (λ l : loc, dict_setitem r "content_types" (VList l)))
             | _ => mret ()
             end) w5 (λ _ w6,
       shape r d4 ([OList [hd "" CONTENT_TYPES]; OList [hd "" JOB_TYPES]] ++ xs)
         ls w w6)
    ∧ d4 = match as_string (d3 !! "content_types") with
           | Some _ => <["content_types" := VList (n + 2)]> d3
           | None => d3
           end
    ∧ xs = match as_string (d3 !! "content_types") with
           | Some s => [OList [s]]
           | None => []
           end
    ∧ ls = match as_string (d3 !! "content_types") with
           | Some _ => [Log DEBUG MsgConvertedContentType]
           | None => []
           end) as (d4 & xs & ls & Hct & Hd4 & Hxs & Hls).
  { destruct (d3 !! "content_types") as [[s| | |]|] eqn:Hct; simpl;
      try (exists d3, [], []; split; [apply returns_ret; exact H5|done]).
    eexists _, _, _. split; [|done].
    apply returns_bind. eapply returns_mono; [by eapply shape_log|].
    intros ? w6 H6. cbv beta in *. apply returns_bind.
    eapply returns_mono; [by eapply shape_alloc|].
    intros ? w7 [-> H7]. cbv beta in *.
    eapply returns_mono; [by eapply shape_setitem|].
    intros ? w8 H8. cbv beta in *. simpl in H8.
    replace (length (heap w) + 2) with (n + 2) in H8 by done. exact H8. }
  apply returns_bind. eapply returns_mono; [exact Hct|]. clear Hct.
  intros ? w6 H6. cbv beta in *.
  apply returns_bind. eexists _, _.
  split; [by eapply shape_read_dict|].
  assert (d4 !! "job_types" = d3 !! "job_types") as Hjt.
  { rewrite Hd4. destruct (as_string _); [|done]. by rewrite lookup_insert_ne. }
  assert (is_Some (d3 !! "job_types")) as [jt Hjt3].
  { unfold d3, with_defaults. rewrite with_default_ne by done.
    rewrite with_default_eq. by eexists. }
  rewrite Hjt, Hjt3. apply returns_bind, returns_ret.
  apply returns_bind.
  assert (returns (match jt with
             | VStr s =>
                 log DEBUG MsgConvertedJobType
                 ≫= (λ _ : (),
                       alloc (OList [s])
                       ≫= (λ l : loc, dict_setitem r "job_types" (VList l)))
             | _ => mret ()
             end) w6 (λ _ w7,
       shape r (match as_string (Some jt) with
                | Some _ => <["job_types" := VList (n + 2 + length xs)]> d4
                | None => d4
                end)
         ([OList [hd "" CONTENT_TYPES]; OList [hd "" JOB_TYPES]]
          ++ xs ++ match as_string (Some jt) with
                   | Some s => [OList [s]]
                   | None => []
                   end)
         (ls ++ match as_string (Some jt) with
                | Some _ => [Log DEBUG MsgConvertedJobType]
                | None => []
                end) w w7)) as Hjob.
  { destruct jt as [s| | |]; simpl;
      try (apply returns_ret; by rewrite !app_nil_r).
    apply returns_bind. eapply returns_mono; [by eapply shape_log|].
    intros ? w7 H7. cbv beta in *. apply returns_bind.
    eapply returns_mono; [by eapply shape_alloc|].
    intros ? w8 [-> H8]. cbv beta in *.
    eapply returns_mono; [by eapply shape_setitem|].
    intros ? w9 H9. cbv beta in *. simpl in H9.
    replace (length (heap w) + S (S (length xs))) with (n + 2 + length xs)
      in H9 by (unfold n; lia).
    exact H9. }
  eapply returns_mono; [exact Hjob|]. clear Hjob.
  intros ? w7 H7. cbv beta in *. apply returns_ret. split; [done|].
  by rewrite Hd4, Hxs, Hls in H7.
Qed.

(** ** What [prepare_config] leaves in the dict *)

Lemma with_defaults_content n d :
  with_defaults n d !! "content_types"
  = Some (default (VList n) (d !! "content_types")).
Proof.
  unfold with_defaults. rewrite !with_default_ne by done.
  by rewrite with_default_eq.
Qed.

Lemma with_defaults_job n d :
  with_defaults n d !! "job_types"
  = Some (default (VList (S n)) (d !! "job_types")).
Proof.
  unfold with_defaults. rewrite with_default_ne by done.
  by rewrite with_default_eq, with_default_ne.
Qed.

Lemma with_defaults_max n d :
  with_defaults n d !! "max_entries"
  = Some (default (VNum 200) (d !! "max_entries")).
Proof.
  unfold with_defaults. by rewrite with_default_eq, !with_default_ne.
Qed.

Lemma with_defaults_other n d key :
  key ∉ ["content_types"; "job_types"; "max_entries"] →
  with_defaults n d !! key = d !! key.
Proof.
  intros Hkey. unfold with_defaults.
  rewrite !with_default_ne; [done|intros <-; apply Hkey..].
  - apply list_elem_of_here.
  - apply list_elem_of_further, list_elem_of_here.
  - do 2 apply list_elem_of_further. apply list_elem_of_here.
Qed.

Lemma prepared_dict_other n d key :
  key ∉ ["content_types"; "job_types"; "max_entries"] →
  prepared_dict n d !! key = d !! key.
Proof.
  intros Hkey. unfold prepared_dict.
  assert (key ≠ "content_types" ∧ key ≠ "job_types") as [H1 H2].
  { split; intros ->; apply Hkey.
    - apply list_elem_of_here.
    - apply list_elem_of_further, list_elem_of_here. }
  destruct (as_string (with_defaults n d !! "job_types"));
    destruct (as_string (with_defaults n d !! "content_types"));
    rewrite ?lookup_insert_ne by done; by apply with_defaults_other.
Qed.

Lemma prepared_dict_max n d :
  prepared_dict n d !! "max_entries"
  = Some (default (VNum 200) (d !! "max_entries")).
Proof.
  unfold prepared_dict.
  destruct (as_string (with_defaults n d !! "job_types"));
    destruct (as_string (with_defaults n d !! "content_types"));
    rewrite ?lookup_insert_ne by done; apply with_defaults_max.
Qed.

Lemma lookup_allocated (r : loc) (o : obj) (h xs : list obj) i :
  (<[r := o]> h ++ xs) !! (length h + i) = xs !! i.
Proof.
  rewrite lookup_app_r by (rewrite length_insert; lia).
  rewrite length_insert. f_equal. lia.
Qed.

Lemma lookup_allocated_0 (r : loc) (o : obj) (h xs : list obj) :
  (<[r := o]> h ++ xs) !! length h = xs !! 0.
Proof. by rewrite <- (lookup_allocated r o h xs 0), Nat.add_0_r. Qed.

Lemma lookup_allocated_1 (r : loc) (o : obj) (h xs : list obj) :
  (<[r := o]> h ++ xs) !! S (length h) = xs !! 1.
Proof. by rewrite <- (lookup_allocated r o h xs 1), Nat.add_1_r. Qed.

Lemma prepared_dict_content r d h :
  normalised (length h)
    (<[r := ODict (prepared_dict (length h) d)]> h
     ++ prepared_lists (length h) d)
    "movie" (d !! "content_types")
    (prepared_dict (length h) d !! "content_types").
Proof.
  unfold normalised.
  generalize (ODict (prepared_dict (length h) d)). intros o.
  unfold prepared_dict, prepared_lists, wrapped_lists.
  rewrite with_defaults_content.
  destruct (d !! "content_types") as [[s| | |]|] eqn:Hct; simpl;
    destruct (as_string (with_defaults (length h) d !! "job_types"));
    rewrite ?lookup_insert_ne by done; rewrite ?lookup_insert_eq;
    rewrite ?with_defaults_content, ?Hct; simpl; try done.
  - eexists. split; [done|]. split; [lia|].
    by rewrite <- ?Nat.add_assoc, lookup_allocated.
  - eexists. split; [done|]. split; [lia|].
    by rewrite <- ?Nat.add_assoc, lookup_allocated.
  - eexists. split; [done|]. split; [lia|]. by rewrite lookup_allocated_0.
  - eexists. split; [done|]. split; [lia|]. by rewrite lookup_allocated_0.
Qed.

Lemma prepared_dict_job r d h :
  normalised (length h)
    (<[r := ODict (prepared_dict (length h) d)]> h
     ++ prepared_lists (length h) d)
    "actor" (d !! "job_types")
    (prepared_dict (length h) d !! "job_types").
Proof.
  unfold normalised.
  generalize (ODict (prepared_dict (length h) d)). intros o.
  unfold prepared_dict, prepared_lists, wrapped_lists.
  rewrite with_defaults_job.
  destruct (d !! "job_types") as [[s| | |]|] eqn:Hjt; simpl;
    destruct (as_string (with_defaults (length h) d !! "content_types"));
    rewrite ?lookup_insert_eq; rewrite ?lookup_insert_ne by done;
    rewrite ?with_defaults_job, ?Hjt; simpl; try done.
  - eexists. split; [done|]. split; [lia|].
    by rewrite <- ?Nat.add_assoc, lookup_allocated.
  - eexists. split; [done|]. split; [lia|].
    by rewrite <- ?Nat.add_assoc, lookup_allocated.
  - eexists. split; [done|]. split; [lia|]. by rewrite lookup_allocated_1.
  - eexists. split; [done|]. split; [lia|]. by rewrite lookup_allocated_1.
Qed.

Lemma prepare_config_str s w :
  prepare_config (ConfigStr s) w
  = prepare_config (ConfigDict (length (heap w)))
      {| heap := heap w ++ [ODict {[ "id" := VStr s ]}]; trace := trace w |}.
Proof. reflexivity. Qed.

(** The run of [prepare_config] on any configuration: the dict it works on
    sits at [r] in [w0], which is [w] itself or [w] with the new dict. *)
Lemma prepare_config_shape config d w :
  config_dict (heap w) config = Some d →
  ∃ r w0 w',
    prepare_config config w = (Ret r, w')
    ∧ heap w0 !! r = Some (ODict d)
    ∧ shape r (prepared_dict (length (heap w0)) d)
        (prepared_lists (length (heap w0)) d)
        (prepared_logs (length (heap w0)) d) w0 w'
    ∧ trace w0 = trace w
    ∧ length (heap w) ≤ length (heap w0)
    ∧ (∀ l o, heap w !! l = Some o → config ≠ ConfigDict l →
         l ≠ r ∧ heap w0 !! l = Some o).
Proof.
  destruct config as [s|r]; simpl.
  - intros [= <-]. rewrite prepare_config_str.
    set (w0 := {| heap := heap w ++ [ODict {[ "id" := VStr s ]}];
                  trace := trace w |}).
    assert (heap w0 !! length (heap w) = Some (ODict {[ "id" := VStr s ]}))
      as Hd by apply list_lookup_middle, eq_refl.
    destruct (prepare_config_dict_shape _ _ _ Hd) as (? & w' & Hrun & -> & Hs).
    exists (length (heap w)), w0, w'. split_and!; [done..| |].
    { simpl. rewrite length_app. lia. }
    intros l o Hl _. apply lookup_lt_Some in Hl as Hlt. split; [lia|].
    simpl. by rewrite lookup_app_l.
  - destruct (heap w !! r) as [[|d']|] eqn:Hd; [done| |done].
    intros [= ->].
    destruct (prepare_config_dict_shape _ _ _ Hd) as (? & w' & Hrun & -> & Hs).
    exists r, w, w'. split_and!; [done..|].
    intros l o Hl Hne. split; [congruence|done].
Qed.

Lemma normalised_mono n n' h dflt before after :
  n' ≤ n → normalised n h dflt before after → normalised n' h dflt before after.
Proof.
  intros Hn. unfold normalised.
  destruct before as [[s|q|b|l]|]; try done;
    intros (l' & ? & ? & ?); exists l'; (split; [done|]); (split; [lia|done]).
Qed.

Lemma shape_frame r d xs ls w0 w' l o :
  shape r d xs ls w0 w' → l ≠ r → heap w0 !! l = Some o → heap w' !! l = Some o.
Proof.
  intros [-> _] Hne Hl.
  rewrite lookup_app_l by (rewrite length_insert; by eapply lookup_lt_Some).
  by rewrite list_lookup_insert_ne.
Qed.

Lemma calls_app t1 t2 : calls (t1 ++ t2) = calls t1 ++ calls t2.
Proof. apply omap_app. Qed.

Lemma prepared_logs_calls n d : calls (prepared_logs n d) = [].
Proof.
  unfold prepared_logs.
  by destruct (as_string _), (as_string _).
Qed.

(** What a run of [prepare_config] establishes. *)
Lemma prepare_config_facts config d w :
  config_dict (heap w) config = Some d →
  ∃ r d' w',
    prepare_config config w = (Ret r, w')
    ∧ heap w' !! r = Some (ODict d')
    ∧ (∀ key, key ∉ ["content_types"; "job_types"; "max_entries"] →
         d' !! key = d !! key)
    ∧ d' !! "max_entries" = Some (default (VNum 200) (d !! "max_entries"))
    ∧ normalised (length (heap w)) (heap w') "movie"
        (d !! "content_types") (d' !! "content_types")
    ∧ normalised (length (heap w)) (heap w') "actor"
        (d !! "job_types") (d' !! "job_types")
    ∧ (∀ l o, heap w !! l = Some o → config ≠ ConfigDict l →
         heap w' !! l = Some o)
    ∧ calls (trace w') = calls (trace w).
Proof.
  intros Hd.
  destruct (prepare_config_shape config d w Hd)
    as (r & w0 & w' & Hrun & Hr & Hs & Ht & Hlen & Hframe).
  exists r, (prepared_dict (length (heap w0)) d), w'.
  assert (r < length (heap w0)) as Hlt by by eapply lookup_lt_Some.
  split; [done|]. split; [by eapply shape_lookup|].
  split; [intros key; apply prepared_dict_other|].
  split; [apply prepared_dict_max|].
  destruct Hs as [Hh Htr]. rewrite Hh.
  split; [by eapply normalised_mono; [|apply prepared_dict_content]|].
  split; [by eapply normalised_mono; [|apply prepared_dict_job]|].
  split.
  - intros l o Hl Hne. destruct (Hframe l o Hl Hne) as [Hlr Hl0].
    rewrite <- Hh. by eapply (shape_frame r _ _ _ w0 w'). 
  - by rewrite Htr, calls_app, prepared_logs_calls, app_nil_r, Ht.
Qed.

(** X6. [prepare_config] returns for any configuration.  In the dict it
    leaves, the keys other than [content_types], [job_types] and
    [max_entries] keep their values, [max_entries] keeps its value or gets
    200, and each of [content_types] and [job_types] keeps a value that is
    not a string, or refers to a new one-item list: of the string it held, or
    of its default, [movie] and [actor].  No other object of the heap is
    changed and no backend call is made. *)
Theorem prepare_config_normalises config d w :
  config_dict (heap w) config = Some d →
  ∃ r d' w',
    prepare_config config w = (Ret r, w')
    ∧ heap w' !! r = Some (ODict d')
    ∧ (∀ key, key ∉ ["content_types"; "job_types"; "max_entries"] →
         d' !! key = d !! key)
    ∧ d' !! "max_entries" = Some (default (VNum 200) (d !! "max_entries"))
    ∧ normalised (length (heap w)) (heap w') "movie"
        (d !! "content_types") (d' !! "content_types")
    ∧ normalised (length (heap w)) (heap w') "actor"
        (d !! "job_types") (d' !! "job_types")
    ∧ (∀ l o, heap w !! l = Some o → config ≠ ConfigDict l →
         heap w' !! l = Some o)
    ∧ calls (trace w') = calls (trace w).
Proof. apply prepare_config_facts. Qed.

(** X6 at a bare identifier. *)
Lemma prepare_config_normalises_witness :
  ∃ r d' w',
    prepare_config (ConfigStr "nm0000375") empty_world = (Ret r, w')
    ∧ heap w' !! r = Some (ODict d')
    ∧ (∀ key, key ∉ ["content_types"; "job_types"; "max_entries"] →
         d' !! key = ({[ "id" := VStr "nm0000375" ]} : gmap string value) !! key)
    ∧ d' !! "max_entries"
      = Some (default (VNum 200)
                (({[ "id" := VStr "nm0000375" ]} : gmap string value)
                   !! "max_entries"))
    ∧ normalised (length (heap empty_world)) (heap w') "movie"
        (({[ "id" := VStr "nm0000375" ]} : gmap string value) !! "content_types")
        (d' !! "content_types")
    ∧ normalised (length (heap empty_world)) (heap w') "actor"
        (({[ "id" := VStr "nm0000375" ]} : gmap string value) !! "job_types")
        (d' !! "job_types")
    ∧ (∀ l o, heap empty_world !! l = Some o →
         ConfigStr "nm0000375" ≠ ConfigDict l → heap w' !! l = Some o)
    ∧ calls (trace w') = calls (trace empty_world).
Proof.
  apply (prepare_config_normalises (ConfigStr "nm0000375")
           {[ "id" := VStr "nm0000375" ]} empty_world).
  reflexivity.
Defined.

(** ** The schema and [prepare_config] *)

Lemma schema_keys (d : gmap string value) :
  forallb (λ k, bool_decide (k ∈ schema_properties)) (map_to_list d).*1 = true
  ↔ ∀ key, is_Some (d !! key) → key ∈ schema_properties.
Proof.
  rewrite forallb_forall. split.
  - intros H key [v Hv]. apply (bool_decide_eq_true_1 _).
    apply H, list_elem_of_In, list_elem_of_fmap.
    exists (key, v). split; [done|]. by apply elem_of_map_to_list.
  - intros H key [[k v] [-> Hkv]]%list_elem_of_In%list_elem_of_fmap.
    apply elem_of_map_to_list in Hkv. apply bool_decide_eq_true_2, H. by eexists.
Qed.

Lemma schema_dict h r :
  schema h (ConfigDict r) = true
  ↔ ∃ d, h !! r = Some (ODict d) ∧ dict_schema h d.
Proof.
  unfold schema, dict_schema. destruct (h !! r) as [[l|d]|].
  - split; [done|]. by intros (d & [=] & _).
  - rewrite !andb_true_iff, schema_keys. split.
    + intros ((((Hid & Hjt) & Hct) & Hmax) & Hkeys). exists d. split; [done|].
      split_and!; [|intros v Hv..|done].
      * destruct (d !! "id") as [[s| | |]|]; try done. by exists s.
      * by rewrite Hv in Hjt.
      * by rewrite Hv in Hct.
      * rewrite Hv in Hmax. destruct v as [|q| |]; try done. by exists q.
    + intros (d' & [= <-] & (s & Hid) & Hjt & Hct & Hmax & Hkeys).
      split_and!; [|..|done].
      * by rewrite Hid.
      * destruct (d !! "job_types") as [v|]; [by apply Hjt|done].
      * destruct (d !! "content_types") as [v|]; [by apply Hct|done].
      * destruct (d !! "max_entries") as [v|]; [|done].
        by destruct (Hmax v eq_refl) as [q ->].
  - split; [done|]. by intros (d & [=] & _).
Qed.

Lemma in_enum_normalised h h' enum dflt n before after :
  dflt ∈ enum →
  normalised n h' dflt before after →
  (∀ v, before = Some v → in_enum h enum v = true) →
  (∀ l o, h !! l = Some (OList o) → h' !! l = Some (OList o)) →
  ∀ v, after = Some v → in_enum h' enum v = true.
Proof.
  intros Hdflt Hnorm Hbefore Hframe v ->.
  destruct before as [[s|q|b|l]|]; simpl in Hnorm.
  - destruct Hnorm as (l & [= ->] & _ & Hl). simpl. rewrite Hl. simpl.
    specialize (Hbefore _ eq_refl). simpl in Hbefore. by rewrite Hbefore.
  - by specialize (Hbefore _ eq_refl).
  - by specialize (Hbefore _ eq_refl).
  - injection Hnorm as ->. specialize (Hbefore _ eq_refl). simpl in *.
    destruct (h !! l) as [[o|]|] eqn:Hl; try done.
    by rewrite (Hframe _ _ Hl).
  - destruct Hnorm as (l & [= ->] & _ & Hl). simpl. rewrite Hl. simpl.
    by rewrite bool_decide_eq_true_2.
Qed.

(** X7. A configuration that satisfies the schema still satisfies it once
    prepared. *)
Theorem prepare_config_keeps_schema config w :
  schema (heap w) config = true →
  ∃ r w', prepare_config config w = (Ret r, w')
          ∧ schema (heap w') (ConfigDict r) = true.
Proof.
  intros Hschema.
  assert (∃ d, config_dict (heap w) config = Some d
               ∧ dict_schema (heap w) d
               ∧ ∀ l o, heap w !! l = Some (OList o) → config ≠ ConfigDict l)
    as (d & Hd & ((s & Hid) & Hjt & Hct & Hmax & Hkeys) & Hne).
  { destruct config as [s|r].
    - exists {[ "id" := VStr s ]}. split; [done|]. split; [|done].
      split_and!; [by exists s|intros v Hv; simplify_map_eq..|].
      intros key [v Hv]. destruct (decide (key = "id")) as [->|Hk].
      + apply list_elem_of_here.
      + by rewrite lookup_singleton_ne in Hv.
    - apply schema_dict in Hschema as (d & Hr & Hok). exists d. simpl.
      rewrite Hr. split; [done|]. split; [done|]. congruence. }
  destruct (prepare_config_facts config d w Hd)
    as (r & d' & w' & Hrun & Hr' & Hother & Hmax' & Hct' & Hjt' & Hframe & _).
  exists r, w'. split; [done|]. apply schema_dict. exists d'. split; [done|].
  assert (∀ l o, heap w !! l = Some (OList o) → heap w' !! l = Some (OList o))
    as Hlists by (intros l o Hl; apply Hframe; [done|by eapply Hne]).
  split_and!.
  - exists s. rewrite Hother; [done|].
    rewrite !elem_of_cons, elem_of_nil. by intros [|[|[|]]].
  - eapply (in_enum_normalised _ _ _ "actor"); [|exact Hjt'|done..].
    apply list_elem_of_here.
  - eapply (in_enum_normalised _ _ _ "movie"); [|exact Hct'|done..].
    apply list_elem_of_here.
  - intros v Hv. rewrite Hmax' in Hv. injection Hv as <-.
    destruct (d !! "max_entries") as [v|] eqn:Hm; simpl; [by apply Hmax|].
    by eexists.
  - intros key Hkey.
    destruct (decide (key ∈ ["content_types"; "job_types"; "max_entries"]))
      as [Hin|Hout].
    + unfold schema_properties. revert Hin. rewrite !elem_of_cons. tauto.
    + apply Hkeys. by rewrite <- Hother.
Qed.

(** X7 at a dict whose [job_types] is a list. *)
Lemma prepare_config_keeps_schema_witness :
  ∃ r w', prepare_config (ConfigDict 0) actor_config_world = (Ret r, w')
          ∧ schema (heap w') (ConfigDict r) = true.
Proof.
  apply (prepare_config_keeps_schema (ConfigDict 0) actor_config_world).
  vm_compute. reflexivity.
Defined.

(** ** [prepare_config] on a prepared configuration *)

Lemma with_default_present key v d :
  is_Some (d !! key) → with_default key v d = d.
Proof. intros [x Hx]. unfold with_default. by rewrite Hx. Qed.

Lemma prepared_dict_settled n d :
  is_Some (d !! "content_types") → is_Some (d !! "job_types") →
  is_Some (d !! "max_entries") →
  as_string (d !! "content_types") = None →
  as_string (d !! "job_types") = None →
  prepared_dict n d = d
  ∧ prepared_lists n d = [OList ["movie"]; OList ["actor"]]
  ∧ prepared_logs n d = [].
Proof.
  intros Hct Hjt Hmax Hsct Hsjt.
  assert (with_defaults n d = d) as Hd.
  { unfold with_defaults.
    by rewrite (with_default_present "content_types"),
      (with_default_present "job_types"), (with_default_present "max_entries"). }
  unfold prepared_dict, prepared_lists, prepared_logs, wrapped_lists.
  by rewrite Hd, Hsct, Hsjt.
Qed.

Lemma normalised_settled n h dflt before after :
  normalised n h dflt before after → is_Some after ∧ as_string after = None.
Proof.
  unfold normalised.
  destruct before as [[s|q|b|l]|]; try (intros ->; by eauto);
    intros (l' & -> & _); by eauto.
Qed.

(** X8. Preparing a configuration a second time leaves the dict and every
    other object as the first time left them: the second run only allocates
    the two default lists, which it then leaves unused, and logs nothing. *)
Theorem prepare_config_twice config d w :
  config_dict (heap w) config = Some d →
  ∃ r w1,
    prepare_config config w = (Ret r, w1)
    ∧ prepare_config (ConfigDict r) w1
      = (Ret r, {| heap := heap w1 ++ [OList ["movie"]; OList ["actor"]];
                   trace := trace w1 |}).
Proof.
  intros Hd.
  destruct (prepare_config_facts config d w Hd)
    as (r & d' & w1 & Hrun & Hr & _ & Hmax & Hct & Hjt & _).
  exists r, w1. split; [done|].
  destruct (prepare_config_dict_shape r d' w1 Hr) as (? & w2 & Hrun2 & -> & Hs).
  apply normalised_settled in Hct as [Hct Hsct].
  apply normalised_settled in Hjt as [Hjt Hsjt].
  destruct (prepared_dict_settled (length (heap w1)) d' Hct Hjt)
    as (Hd' & Hl' & Hg'); [by rewrite Hmax|done..|].
  rewrite Hd', Hl', Hg' in Hs. destruct Hs as [Hh Ht].
  rewrite list_insert_id in Hh by done. rewrite app_nil_r in Ht.
  rewrite Hrun2. f_equal. destruct w2. simpl in *. by subst.
Qed.

(** X8 at a bare identifier. *)
Lemma prepare_config_twice_witness :
  ∃ r w1,
    prepare_config (ConfigStr "nm0000375") empty_world = (Ret r, w1)
    ∧ prepare_config (ConfigDict r) w1
      = (Ret r, {| heap := heap w1 ++ [OList ["movie"]; OList ["actor"]];
                   trace := trace w1 |}).
Proof.
  apply (prepare_config_twice (ConfigStr "nm0000375")
           {[ "id" := VStr "nm0000375" ]} empty_world).
  reflexivity.
Defined.

(** X5. When the prepared configuration holds no [id], or one that is not a
    string, the search raises inside the [try]: the run logs the error and
    returns nothing, without a backend call. *)
Theorem unusable_id_is_recovered order ia E task config d w :
  order ≠ [] →
  config_dict (heap w) config = Some d →
  (∀ s, d !! "id" ≠ Some (VStr s)) →
  ∃ w', on_task_input order (Some ia) E task config w = (Ret None, w')
        ∧ calls (trace w') = calls (trace w)
        ∧ last (trace w') = Some (Log ERROR (MsgCouldNotResolve TypeError)).
Proof.
  intros Horder Hd Hid.
  destruct (prepare_config_returns config d w Hd)
    as (r & w1 & Hprep & (d1 & Hr1 & Hid1 & _) & Hcalls).
  eexists. unfold on_task_input, collect.
  rewrite run_bind, (run_bind_ret _ _ _ _ _ Hprep).
  rewrite run_bind. unfold try_except.
  rewrite (run_bind_ret _ _ _ _ _ (run_dict_get _ "id" _ _ Hr1)).
  rewrite Hid1.
  assert (entity_type_and_object order ia (d !! "id") w1 = (Raise TypeError, w1))
    as Hraise.
  { unfold entity_type_and_object.
    destruct (d !! "id") as [[s| | |]|] eqn:Hs;
      [by destruct (Hid s)|by destruct order..]. }
  rewrite (run_bind_raise _ _ _ _ _ Hraise).
  simpl. split; [done|]. simpl. split.
  - by rewrite calls_snoc_log.
  - by rewrite last_snoc.
Qed.

(** X5 at a dict that names a job type and no [id]. *)
Lemma unusable_id_is_recovered_witness :
  ∃ w', on_task_input ENTITIES_FORMATS_items
          (Some (backend_with (Ret a_person) Ret)) plain_entries quiet_task
          (ConfigDict 0)
          {| heap := [ODict {[ "job_types" := VStr "director" ]}];
             trace := [] |}
        = (Ret None, w')
        ∧ calls (trace w') = []
        ∧ last (trace w') = Some (Log ERROR (MsgCouldNotResolve TypeError)).
Proof.
  apply (unusable_id_is_recovered ENTITIES_FORMATS_items
           (backend_with (Ret a_person) Ret) plain_entries quiet_task
           (ConfigDict 0) {[ "job_types" := VStr "director" ]}
           {| heap := [ODict {[ "job_types" := VStr "director" ]}];
              trace := [] |}).
  - discriminate.
  - reflexivity.
  - intros s. rewrite lookup_singleton_ne; discriminate.
Defined.

(** ** A Person searched without [actor] *)

(** X10. When [actor] is not among the job types, the Person enumeration
    leaves every object of the heap as it is, whatever its outcome, and a
    returning run has searched the labels of the job types given and no
    other. *)
Theorem person_without_actor ia entity_object ct rj l w res w' :
  heap w !! rj = Some (OList l) →
  "actor" ∉ l →
  items_by_entity ia Person entity_object ct (Some (VList rj)) w = (res, w') →
  heap w' = heap w
  ∧ ∀ rc cts movies,
      ct = Some (VList rc) → heap w !! rc = Some (OList cts) →
      res = Ret movies →
      searched (trace w') = searched (trace w) ++ labels l cts.
Proof.
  intros Hl Hactor Hrun.
  assert (expanded l = l) as Hexp
    by (unfold expanded; by rewrite bool_decide_eq_false_2).
  assert (expanded_heap rj l (heap w) = heap w) as Hheap
    by (unfold expanded_heap; by rewrite bool_decide_eq_false_2).
  pose proof (person_heap _ _ _ _ _ _ _ _ Hl Hrun) as Hh.
  rewrite Hheap in Hh. split; [done|].
  intros rc cts movies -> Hrc ->. rewrite <- Hheap in Hrc.
  destruct (person_ret _ _ _ _ _ _ _ _ _ Hl Hrc Hrun) as (_ & _ & Hs).
  by rewrite Hexp in Hs.
Qed.

Lemma person_without_actor_witness :
  let w := {| heap := [OList ["director"]; OList ["movie"]]; trace := [] |} in
  let run := items_by_entity (backend_with (Ret a_person) Ret) Person a_person
               (Some (VList 1)) (Some (VList 0)) w in
  heap run.2 = heap w ∧ searched (trace run.2) = ["director movie"].
Proof.
  intros w run.
  destruct (person_without_actor (backend_with (Ret a_person) Ret) a_person
              (Some (VList 1)) 0 ["director"] w run.1 run.2)
    as [Hheap Hlabels].
  - reflexivity.
  - rewrite list_elem_of_singleton. discriminate.
  - apply surjective_pairing.
  - split; [exact Hheap|].
    exact (Hlabels 1 ["movie"] (Some []) eq_refl eq_refl eq_refl).
Defined.

(** ** The calls a run makes *)

Lemma hydrations_app t1 t2 : hydrations (t1 ++ t2) = hydrations t1 ++ hydrations t2.
Proof. apply omap_app. Qed.

Section Hydrations.
Context (ia : IMDb) (entity_object : Entity) (cts : list string).

Lemma inspect_movie_hydrations movies m0 w movies' w' :
  inspect_movie ia cts movies m0 w = (Ret movies', w') →
  hydrations (trace w') = hydrations (trace w) ++ [m0].
Proof.
  rewrite run_inspect_movie. simpl.
  destruct (update ia m0) as [m|e]; [|done].
  destruct (contains (movie_eq ia) m movies).
  { intros [= <- <-]. simpl. by rewrite !hydrations_app, app_nil_r. }
  destruct (kind m) as [k|]; [|done].
  destruct (bool_decide (k ∈ cts)).
  - destruct (title m) as [t|]; [|done].
    intros [= <- <-]. simpl. by rewrite !hydrations_app, app_nil_r.
  - intros [= <- <-]. simpl. by rewrite !hydrations_app, app_nil_r.
Qed.

Lemma movies_loop_hydrations ms movies w movies' w' :
  for_each ms (inspect_movie ia cts) movies w = (Ret movies', w') →
  hydrations (trace w') = hydrations (trace w) ++ ms.
Proof.
  revert movies w. induction ms as [|m0 ms IH]; intros movies w; simpl.
  - rewrite run_ret. intros [= <- <-]. by rewrite app_nil_r.
  - intros (movies1 & w1 & Hstep & Hrest)%run_bind_inv.
    apply inspect_movie_hydrations in Hstep. apply IH in Hrest.
    by rewrite Hrest, Hstep, <- app_assoc.
Qed.

Lemma search_label_hydrations jt movies ct w movies' w' :
  search_label ia entity_object cts jt movies ct w = (Ret movies', w') →
  hydrations (trace w')
  = hydrations (trace w)
    ++ default [] (movies_by_job_type entity_object jt ct).
Proof.
  unfold search_label. intros (? & w1 & Hlog & Hrun)%run_bind_inv.
  rewrite run_log in Hlog. injection Hlog as <-.
  assert (hydrations (trace w1) = hydrations (trace w)) as Hq
    by (subst w1; simpl; by rewrite hydrations_app, app_nil_r).
  clear H. revert Hrun.
  destruct (movies_by_job_type entity_object jt ct) as [[|m l]|].
  - rewrite run_ret. intros [= <- <-]. by rewrite app_nil_r.
  - intros ->%movies_loop_hydrations. by rewrite Hq.
  - rewrite run_ret. intros [= <- <-]. by rewrite app_nil_r.
Qed.

Lemma content_loop_hydrations jt cts' movies w movies' w' :
  for_each cts' (search_label ia entity_object cts jt) movies w
    = (Ret movies', w') →
  hydrations (trace w')
  = hydrations (trace w) ++ candidates_of entity_object cts' jt.
Proof.
  revert movies w. induction cts' as [|ct cts' IH]; intros movies w.
  - simpl. rewrite run_ret. intros [= <- <-]. by rewrite app_nil_r.
  - cbn [for_each]. intros (movies1 & w1 & Hstep & Hrest)%run_bind_inv.
    apply search_label_hydrations in Hstep. apply IH in Hrest.
    unfold candidates_of. rewrite bind_cons.
    by rewrite Hrest, Hstep, <- app_assoc.
Qed.

Lemma job_loop_hydrations rc jts movies w movies' w' :
  heap w !! rc = Some (OList cts) →
  for_each jts (λ movies job_type,
     cts ← iterate (Some (VList rc));
     for_each cts (search_label ia entity_object cts job_type) movies)
    movies w = (Ret movies', w') →
  hydrations (trace w')
  = hydrations (trace w) ++ candidates entity_object jts cts.
Proof.
  revert movies w. induction jts as [|jt jts IH]; intros movies w Hrc.
  - simpl. rewrite run_ret. intros [= <- <-]. by rewrite app_nil_r.
  - cbn [for_each]. intros (movies1 & w1 & Hstep & Hrest)%run_bind_inv.
    rewrite (run_bind_ret _ _ _ _ _ (run_iterate _ _ _ Hrc)) in Hstep.
    pose proof (content_loop_ret _ _ _ _ _ _ _ _ _ Hstep) as (_ & Hh & _).
    apply content_loop_hydrations in Hstep.
    apply IH in Hrest; [|by rewrite Hh].
    by rewrite candidates_cons, Hrest, Hstep, <- app_assoc.
Qed.

End Hydrations.

(** X11. A returning Person enumeration has hydrated every work found under
    every label searched, once each time it was found and in that order: a
    work found under several labels, or under the bare job type for several
    content types, is hydrated each time, though it is returned once. *)
Theorem person_hydrates_every_candidate
    ia entity_object rc rj l cts w movies w' :
  heap w !! rj = Some (OList l) →
  expanded_heap rj l (heap w) !! rc = Some (OList cts) →
  items_by_entity ia Person entity_object (Some (VList rc)) (Some (VList rj)) w
    = (Ret movies, w') →
  hydrations (trace w')
  = hydrations (trace w) ++ candidates entity_object (expanded l) cts.
Proof.
  intros Hl Hrc. rewrite (run_person _ _ _ _ _ _ Hl).
  intros (ms & w1 & Hloop & Hret)%run_bind_inv.
  rewrite run_ret in Hret. injection Hret as <- <-.
  by apply (job_loop_hydrations ia entity_object cts rc) in Hloop.
Qed.

(** X11 at a person whose works are filed under the bare job type only: with
    two content types each work is hydrated twice. *)
Lemma person_hydrates_every_candidate_witness :
  let w := {| heap := [OList ["director"]; OList ["movie"; "tv movie"]];
              trace := [] |} in
  let e : Entity := {[ "director" := [heat; ronin] ]} in
  let run := items_by_entity (backend_with (Ret e) Ret) Person e
               (Some (VList 1)) (Some (VList 0)) w in
  run.1 = Ret (Some [heat; ronin])
  ∧ hydrations (trace run.2) = [heat; ronin; heat; ronin].
Proof.
  intros w e run. split; [reflexivity|].
  exact (person_hydrates_every_candidate (backend_with (Ret e) Ret) e
           1 0 ["director"] ["movie"; "tv movie"] w (Some [heat; ronin]) run.2
           eq_refl eq_refl eq_refl).
Defined.

(** ** What the assembly reports and calls *)

Lemma reported_invalid_app t1 t2 :
  reported_invalid (t1 ++ t2) = reported_invalid t1 ++ reported_invalid t2.
Proof. apply omap_app. Qed.

Section AssemblyTrace.
Context (E : EntryClass) (ia : IMDb) (task : Task).

Lemma add_entry_trace entries item w entries' w' :
  add_entry E ia task entries item w = (Ret entries', w') →
  ∃ e, made ia item = Some e
       ∧ calls (trace w') = calls (trace w) ++ [get_imdbID_call item]
       ∧ reported_invalid (trace w')
         = reported_invalid (trace w)
           ++ (if isvalid E e then [] else [e]).
Proof.
  rewrite run_add_entry. unfold made.
  destruct (title item) as [t|]; [|done].
  destruct (get_imdbID ia item) as [[i|]|x]; [|done..]. simpl.
  intros Hrun. eexists. split; [done|]. revert Hrun.
  destruct (isvalid E _).
  - destruct (contains (entry_eq E) _ entries).
    + intros [= <- <-]. simpl.
      by rewrite calls_snoc_call, reported_invalid_app, !app_nil_r.
    + intros [= <- <-]. destruct (options_test task); simpl.
      * rewrite !calls_snoc_log, calls_snoc_call.
        by rewrite !reported_invalid_app, !app_nil_r.
      * by rewrite calls_snoc_call, reported_invalid_app, !app_nil_r.
  - intros [= <- <-]. simpl.
    by rewrite calls_snoc_log, calls_snoc_call, !reported_invalid_app, app_nil_r.
Qed.

Lemma entries_loop_trace items entries w entries' w' :
  for_each items (add_entry E ia task) entries w = (Ret entries', w') →
  calls (trace w') = calls (trace w) ++ (get_imdbID_call <$> items)
  ∧ reported_invalid (trace w')
    = reported_invalid (trace w)
      ++ filter (λ e, ¬ isvalid E e) (omap (made ia) items).
Proof.
  revert entries w. induction items as [|item items IH]; intros entries w; simpl.
  - rewrite run_ret. intros [= <- <-]. by rewrite !app_nil_r.
  - intros (entries1 & w1 & Hstep & Hrest)%run_bind_inv.
    apply add_entry_trace in Hstep as (e & -> & Hc & Hi).
    apply IH in Hrest as [Hc' Hi']. split.
    + by rewrite Hc', Hc, <- app_assoc.
    + rewrite Hi', Hi, <- app_assoc. f_equal. rewrite filter_cons.
      destruct (isvalid E e); by case_decide.
Qed.

End AssemblyTrace.

(** X12. Every entry an assembly returns is valid; the entries built that
    are not valid are each reported in the log, in the order of the works,
    and are left out. *)
Theorem invalid_entries_are_reported E ia task items w entries w' :
  assemble E ia task items w = (Ret entries, w') →
  (∀ e, e ∈ entries → isvalid E e = true)
  ∧ reported_invalid (trace w')
    = reported_invalid (trace w)
      ++ filter (λ e, ¬ isvalid E e) (omap (made ia) items).
Proof.
  intros Hrun. split.
  - apply assemble_ret in Hrun as [-> _].
    intros e [He|[_ He]]%first_seen_passes; [by apply elem_of_nil in He|done].
  - by apply entries_loop_trace in Hrun as [_ ?].
Qed.

Lemma invalid_entries_are_reported_witness :
  let E := {| isvalid := λ e, negb (String.eqb (entry_title e) "Ronin");
              entry_eq := same_imdb_id |} in
  let run := assemble E (backend_with (Ret a_person) Ret) quiet_task
               [heat; ronin] empty_world in
  run.1 = Ret [entry_of "Heat" "0113277"]
  ∧ reported_invalid (trace run.2) = [entry_of "Ronin" "0122690"].
Proof.
  intros E run. split; [reflexivity|].
  exact (proj2 (invalid_entries_are_reported E (backend_with (Ret a_person) Ret)
                  quiet_task [heat; ronin] empty_world
                  [entry_of "Heat" "0113277"] run.2 eq_refl)).
Defined.

(** X13. A returning assembly has asked the backend for the identifier of
    every work, once each and in order, and made no other call. *)
Theorem assembly_calls E ia task items w entries w' :
  assemble E ia task items w = (Ret entries, w') →
  calls (trace w') = calls (trace w) ++ (get_imdbID_call <$> items).
Proof. intros Hrun. by apply entries_loop_trace in Hrun as [? _]. Qed.

Lemma assembly_calls_witness :
  calls (trace (assemble plain_entries (backend_with (Ret a_person) Ret)
                  quiet_task [heat; ronin; heat_retitled] empty_world).2)
  = [get_imdbID_call heat; get_imdbID_call ronin;
     get_imdbID_call heat_retitled].
Proof.
  exact (assembly_calls plain_entries (backend_with (Ret a_person) Ret)
           quiet_task [heat; ronin; heat_retitled] empty_world
           [entry_of "Heat" "0113277"; entry_of "Ronin" "0122690";
            entry_of "Heat (1995)" "0113277"] _ eq_refl).
Defined.

(** ** The run from resolution on *)

Lemma run_collect_resolved ia E task pre k post config r d' s g e w w1 :
  (∀ k', k' ∈ pre → re_search (ENTITIES_FORMATS k') s = None) →
  re_search (ENTITIES_FORMATS k) s = Some g →
  get_entity ia k g = Ret e →
  prepare_config config w = (Ret r, w1) →
  heap w1 !! r = Some (ODict d') →
  d' !! "id" = Some (VStr s) →
  collect (pre ++ k :: post) E task ia config w =
  (items ← items_by_entity ia k e (d' !! "content_types") (d' !! "job_types");
   match items with
   | None | Some [] => log ERROR MsgNoItemList;; mret None
   | Some items =>
       log INFO (MsgRetrieved (length items));;
       entries ← assemble E ia task items;
       mret (Some (r, entries))
   end) (resolved_world k g e w1).
Proof.
  intros Hpre Hk He Hprep Hr Hid. unfold collect.
  rewrite (run_bind_ret _ _ _ _ _ Hprep).
  assert (try_except
            (imdb_id ← dict_get r "id";
             found ← entity_type_and_object (pre ++ k :: post) ia imdb_id;
             pair ← unpack found; mret (Some pair))
            (λ x, log ERROR (MsgCouldNotResolve x);; mret None) w1
          = (Ret (Some (k, e)), resolved_world k g e w1)) as Htry.
  { unfold try_except.
    rewrite (run_bind_ret _ _ _ _ _ (run_dict_get _ "id" _ _ Hr)), Hid.
    rewrite run_bind, (resolve_first_in_order_aux ia pre k post s g w1 Hpre Hk).
    by rewrite He. }
  rewrite (run_bind_ret _ _ _ _ _ Htry).
  assert (heap (resolved_world k g e w1) !! r = Some (ODict d')) as Hr' by done.
  rewrite (run_bind_ret _ _ _ _ _ (run_dict_get _ "content_types" _ _ Hr')).
  by rewrite (run_bind_ret _ _ _ _ _ (run_dict_get _ "job_types" _ _ Hr')).
Qed.

Lemma run_no_items order ia E task config w w2 :
  collect order E task ia config w
  = (log ERROR MsgNoItemList;; mret None) w2 →
  ∃ w', on_task_input order (Some ia) E task config w = (Ret None, w')
        ∧ heap w' = heap w2
        ∧ last (trace w') = Some (Log ERROR MsgNoItemList).
Proof.
  intros Hcollect. eexists. unfold on_task_input.
  rewrite run_bind, Hcollect. simpl. split; [done|]. split; [done|].
  simpl. by rewrite last_snoc.
Qed.

Lemma run_assembled order ia E task config w r d' items entries w2 w3 :
  collect order E task ia config w
  = (log INFO (MsgRetrieved (length items));;
     entries ← assemble E ia task items;
     mret (Some (r, entries))) w2 →
  heap w2 !! r = Some (ODict d') →
  assemble E ia task items
    {| heap := heap w2;
       trace := trace w2 ++ [Log INFO (MsgRetrieved (length items))] |}
  = (Ret entries, w3) →
  (on_task_input order (Some ia) E task config w).1
  = capped entries (d' !! "max_entries").
Proof.
  intros Hcollect Hr Hassemble. unfold on_task_input.
  rewrite run_bind, Hcollect, run_bind, run_log, run_bind, Hassemble, run_ret.
  assert (heap w3 !! r = Some (ODict d')) as Hr3.
  { apply assemble_ret in Hassemble as [_ Hh]. by rewrite Hh. }
  rewrite (run_bind_ret _ _ _ _ _ (run_dict_get _ "max_entries" _ _ Hr3)).
  rewrite run_cap. unfold capped. by destruct (int_le _ _).
Qed.

Lemma id_not_prepared :
  "id" ∉ ["content_types"; "job_types"; "max_entries"].
Proof. rewrite !elem_of_cons, elem_of_nil. by intros [|[|[|]]]. Qed.

(** X14. When the identifier resolves to a Company that has no
    [production companies], or an empty list of them, or to a Character
    whose four fields are missing or empty, the run logs that no item list
    was found and returns nothing. *)
Theorem no_works_returns_nothing ia E task pre k post config d s g e w :
  (∀ k', k' ∈ pre → re_search (ENTITIES_FORMATS k') s = None) →
  re_search (ENTITIES_FORMATS k) s = Some g →
  config_dict (heap w) config = Some d →
  d !! "id" = Some (VStr s) →
  get_entity ia k g = Ret e →
  (k = Company ∧ default [] (e !! "production companies") = [])
  ∨ (k = Character
     ∧ default [] (e !! "feature") ++ default [] (e !! "tv")
       ++ default [] (e !! "video-game") ++ default [] (e !! "video") = []) →
  ∃ w', on_task_input (pre ++ k :: post) (Some ia) E task config w
        = (Ret None, w')
        ∧ last (trace w') = Some (Log ERROR MsgNoItemList).
Proof.
  intros Hpre Hk Hd Hid He Hnone.
  destruct (prepare_config_facts config d w Hd)
    as (r & d' & w1 & Hprep & Hr & Hother & _).
  assert (d' !! "id" = Some (VStr s)) as Hid'
    by by rewrite (Hother "id" id_not_prepared).
  pose proof (run_collect_resolved ia E task pre k post config r d' s g e w w1
                Hpre Hk He Hprep Hr Hid') as Hcollect.
  destruct (run_no_items (pre ++ k :: post) ia E task config w
              (resolved_world k g e w1)) as (w' & Hrun & _ & Hlast);
    [|by exists w'].
  rewrite Hcollect. destruct Hnone as [[-> Hpc]|[-> Hch]].
  - unfold items_by_entity. rewrite run_bind, run_ret.
    by destruct (e !! "production companies") as [[|m ms]|].
  - unfold items_by_entity. rewrite run_bind, run_ret. by rewrite Hch.
Qed.

Lemma no_works_returns_nothing_witness :
  ∃ w', on_task_input ([] ++ Company :: [Person; Character])
          (Some (backend_with (Ret ∅) Ret)) plain_entries quiet_task
          (ConfigStr "co0051941") empty_world
        = (Ret None, w')
        ∧ last (trace w') = Some (Log ERROR MsgNoItemList).
Proof.
  apply (no_works_returns_nothing (backend_with (Ret ∅) Ret) plain_entries
           quiet_task [] Company [Person; Character] (ConfigStr "co0051941")
           {[ "id" := VStr "co0051941" ]} "co0051941" "0051941" ∅ empty_world).
  - intros k' Hk'. by apply elem_of_nil in Hk'.
  - reflexivity.
  - reflexivity.
  - reflexivity.
  - reflexivity.
  - left. split; reflexivity.
Defined.

(** X15. For a Company, the run returns the entries of all the works under
    [production companies], first seen first and valid ones only, whatever
    [content_types] and [job_types] are, unless they are more than
    [max_entries], 200 when the configuration sets none; then it returns
    nothing. *)
Theorem company_run ia E task pre post config d s g e items w :
  (∀ k', k' ∈ pre → re_search (ENTITIES_FORMATS k') s = None) →
  re_search (ENTITIES_FORMATS Company) s = Some g →
  config_dict (heap w) config = Some d →
  d !! "id" = Some (VStr s) →
  get_company ia g = Ret e →
  e !! "production companies" = Some items →
  items ≠ [] →
  Forall (λ item, is_Some (made ia item)) items →
  (on_task_input (pre ++ Company :: post) (Some ia) E task config w).1
  = capped (first_seen (entry_eq E) (isvalid E) (omap (made ia) items) [])
      (Some (default (VNum 200) (d !! "max_entries"))).
Proof.
  intros Hpre Hk Hd Hid He Hpc Hne Hmade.
  destruct (prepare_config_facts config d w Hd)
    as (r & d' & w1 & Hprep & Hr & Hother & Hmax & _).
  assert (d' !! "id" = Some (VStr s)) as Hid'
    by by rewrite (Hother "id" id_not_prepared).
  pose proof (run_collect_resolved ia E task pre Company post config r d' s g e
                w w1 Hpre Hk He Hprep Hr Hid') as Hcollect.
  set (w2 := resolved_world Company g e w1) in *.
  destruct (assemble_returns E ia task items
              {| heap := heap w2;
                 trace := trace w2 ++ [Log INFO (MsgRetrieved (length items))] |}
              Hmade) as (w3 & Hassemble).
  rewrite <- Hmax.
  apply (run_assembled _ _ _ _ _ _ r d' items _ w2 w3); [|done|done].
  rewrite Hcollect. unfold items_by_entity. rewrite run_bind, run_ret, Hpc.
  by destruct items.
Qed.

Lemma company_run_witness :
  (on_task_input ([] ++ Company :: [Person; Character])
     (Some (backend_with (Ret (a_company 3)) Ret)) plain_entries quiet_task
     (ConfigStr "co0051941") empty_world).1
  = Ret (Some (company_entries 3)).
Proof.
  rewrite (company_run (backend_with (Ret (a_company 3)) Ret) plain_entries
             quiet_task [] [Person; Character] (ConfigStr "co0051941")
             {[ "id" := VStr "co0051941" ]} "co0051941" "0051941" (a_company 3)
             ((λ i, movie (pretty i) ("Work " +:+ pretty i) "movie") <$> seq 0 3)
             empty_world).
  - reflexivity.
  - intros k' Hk'. by apply elem_of_nil in Hk'.
  - reflexivity.
  - reflexivity.
  - reflexivity.
  - reflexivity.
  - reflexivity.
  - discriminate.
  - repeat (apply Forall_cons_2; [eexists; reflexivity|]). apply Forall_nil_2.
Defined.

Lemma requested_normalised h h' dflt before after l {n} :
  normalised n h' dflt before after →
  (∀ r o, h !! r = Some (OList o) → h' !! r = Some (OList o)) →
  requested h dflt before = Some l →
  ∃ r', after = Some (VList r') ∧ h' !! r' = Some (OList l).
Proof.
  unfold normalised, requested. intros Hnorm Hframe.
  destruct before as [[s|q|b|r]|]; try done.
  - intros [= <-]. destruct Hnorm as (r' & ? & _ & ?). by exists r'.
  - destruct (h !! r) as [[o|]|] eqn:Hr; try done. intros [= <-].
    exists r. split; [done|]. by apply Hframe.
  - intros [= <-]. destruct Hnorm as (r' & ? & _ & ?). by exists r'.
Qed.

Lemma expanded_heap_other rj l h r o :
  h !! rj = Some (OList l) → h !! r = Some o →
  (∀ l', o = OList l' → "actor" ∉ l') →
  expanded_heap rj l h !! r = Some o.
Proof.
  intros Hrj Hr Ho. unfold expanded_heap. case_bool_decide as Hactor; [|done].
  rewrite list_lookup_insert_ne; [done|].
  intros <-. rewrite Hrj in Hr. injection Hr as <-. by apply (Ho l).
Qed.

(** X16. For a Person, the run returns the entries of the works found under
    the labels of the job types and content types the configuration asks
    for ([actor] and [movie] when it names none, [actress] added to
    [actor]), hydrated, of a requested kind, first seen first; it returns
    nothing when there is no such work or when the entries are more than
    [max_entries]. *)
Theorem person_run ia E task pre post config d s g e l cts w :
  (∀ k', k' ∈ pre → re_search (ENTITIES_FORMATS k') s = None) →
  re_search (ENTITIES_FORMATS Person) s = Some g →
  config_dict (heap w) config = Some d →
  d !! "id" = Some (VStr s) →
  get_person ia g = Ret e →
  requested (heap w) "actor" (d !! "job_types") = Some l →
  requested (heap w) "movie" (d !! "content_types") = Some cts →
  "actor" ∉ cts →
  Forall (healthy ia) (candidates e (expanded l) cts) →
  Forall (λ m, is_Some (made ia m))
    (first_seen (movie_eq ia) (kind_in cts)
       (omap (hydrate ia) (candidates e (expanded l) cts)) []) →
  (on_task_input (pre ++ Person :: post) (Some ia) E task config w).1
  = match first_seen (movie_eq ia) (kind_in cts)
            (omap (hydrate ia) (candidates e (expanded l) cts)) [] with
    | [] => Ret None
    | movies =>
        capped (first_seen (entry_eq E) (isvalid E) (omap (made ia) movies) [])
          (Some (default (VNum 200) (d !! "max_entries")))
    end.
Proof.
  intros Hpre Hk Hd Hid He Hjt Hct Hactor Hhealthy Hmade.
  destruct (prepare_config_facts config d w Hd)
    as (r & d' & w1 & Hprep & Hr & Hother & Hmax & Hnct & Hnjt & Hframe & _).
  assert (d' !! "id" = Some (VStr s)) as Hid'
    by by rewrite (Hother "id" id_not_prepared).
  assert (∀ r0 o, heap w !! r0 = Some (OList o) → heap w1 !! r0 = Some (OList o))
    as Hlists.
  { intros r0 o Hr0. apply Hframe; [done|]. intros ->. simpl in Hd.
    by rewrite Hr0 in Hd. }
  destruct (requested_normalised _ _ _ _ _ _ Hnjt Hlists Hjt) as (rj & Hdj & Hrj).
  destruct (requested_normalised _ _ _ _ _ _ Hnct Hlists Hct) as (rc & Hdc & Hrc).
  pose proof (run_collect_resolved ia E task pre Person post config r d' s g e
                w w1 Hpre Hk He Hprep Hr Hid') as Hcollect.
  rewrite Hdj, Hdc in Hcollect.
  set (w2 := resolved_world Person g e w1) in *.
  assert (expanded_heap rj l (heap w2) !! rc = Some (OList cts)) as Hrc'.
  { apply expanded_heap_other; [done..|]. by intros ? [= <-]. }
  destruct (person_returns ia e rc rj l cts w2 Hrj Hrc' Hhealthy)
    as (movies & w3 & Hperson).
  destruct (person_ret ia e rc rj l cts w2 _ w3 Hrj Hrc' Hperson)
    as ([= Hmovies] & Hh3 & _).
  rewrite <- Hmovies in *.
  rewrite (run_bind_ret _ _ _ _ _ Hperson) in Hcollect.
  destruct movies as [|m movies].
  - destruct (run_no_items _ _ _ _ _ _ _ Hcollect) as (w' & Hrun & _).
    by rewrite Hrun.
  - destruct (assemble_returns E ia task (m :: movies)
                {| heap := heap w3;
                   trace := trace w3
                            ++ [Log INFO (MsgRetrieved (length (m :: movies)))] |}
                Hmade) as (w4 & Hassemble).
    rewrite <- Hmax.
    apply (run_assembled _ _ _ _ _ _ r d' (m :: movies) _ w3 w4); [done| |done].
    rewrite Hh3. apply expanded_heap_other; [done..|]. by intros.
Qed.

(** X16 at the documented basic configuration, a bare identifier: the
    person's two actor credits, one of them also an actress credit. *)
Lemma person_run_witness :
  (on_task_input ([] ++ Person :: [Company; Character])
     (Some (backend_with (Ret a_person) Ret)) plain_entries quiet_task
     (ConfigStr "nm0000375") empty_world).1
  = Ret (Some [entry_of "Heat" "0113277"; entry_of "Ronin" "0122690"]).
Proof.
  rewrite (person_run (backend_with (Ret a_person) Ret) plain_entries
             quiet_task [] [Company; Character] (ConfigStr "nm0000375")
             {[ "id" := VStr "nm0000375" ]} "nm0000375" "0000375" a_person
             ["actor"] ["movie"] empty_world).
  - reflexivity.
  - intros k' Hk'. by apply elem_of_nil in Hk'.
  - reflexivity.
  - reflexivity.
  - reflexivity.
  - reflexivity.
  - reflexivity.
  - reflexivity.
  - rewrite list_elem_of_singleton. discriminate.
  - change (Forall (healthy (backend_with (Ret a_person) Ret))
              [heat; ronin; ronin]).
    repeat (apply Forall_cons_2;
            [eexists; split; [reflexivity|split; eexists; reflexivity]|]).
    apply Forall_nil_2.
  - change (Forall (λ m, is_Some (made (backend_with (Ret a_person) Ret) m))
              [heat; ronin]).
    repeat (apply Forall_cons_2; [eexists; reflexivity|]). apply Forall_nil_2.
Defined.

(** X18. For a Character, the run returns the entries of the works of the
    four fields [feature], [tv], [video-game] and [video], in that order,
    whatever [content_types] and [job_types] are: a work listed under two
    fields is enumerated twice, and only the comparison of entries keeps it
    from being returned twice. *)
Theorem character_run ia E task pre post config d s g e w :
  (∀ k', k' ∈ pre → re_search (ENTITIES_FORMATS k') s = None) →
  re_search (ENTITIES_FORMATS Character) s = Some g →
  config_dict (heap w) config = Some d →
  d !! "id" = Some (VStr s) →
  get_character ia g = Ret e →
  character_works e ≠ [] →
  Forall (λ item, is_Some (made ia item)) (character_works e) →
  (on_task_input (pre ++ Character :: post) (Some ia) E task config w).1
  = capped (first_seen (entry_eq E) (isvalid E)
              (omap (made ia) (character_works e)) [])
      (Some (default (VNum 200) (d !! "max_entries"))).
Proof.
  intros Hpre Hk Hd Hid He Hne Hmade.
  destruct (prepare_config_facts config d w Hd)
    as (r & d' & w1 & Hprep & Hr & Hother & Hmax & _).
  assert (d' !! "id" = Some (VStr s)) as Hid'
    by by rewrite (Hother "id" id_not_prepared).
  pose proof (run_collect_resolved ia E task pre Character post config r d' s g
                e w w1 Hpre Hk He Hprep Hr Hid') as Hcollect.
  set (w2 := resolved_world Character g e w1) in *.
  destruct (assemble_returns E ia task (character_works e)
              {| heap := heap w2;
                 trace := trace w2
                          ++ [Log INFO (MsgRetrieved
                                          (length (character_works e)))] |}
              Hmade) as (w3 & Hassemble).
  rewrite <- Hmax.
  apply (run_assembled _ _ _ _ _ _ r d' (character_works e) _ w2 w3);
    [|done|done].
  rewrite Hcollect. unfold items_by_entity. rewrite run_bind, run_ret.
  fold (character_works e). by destruct (character_works e).
Qed.

(** X18 at a character whose one work is listed under [feature] and under
    [video]. *)
Lemma character_run_witness :
  (on_task_input ([] ++ Character :: [Person; Company])
     (Some (backend_with (Ret a_character) Ret)) plain_entries quiet_task
     (ConfigStr "ch0001354") empty_world).1
  = Ret (Some [entry_of "Heat" "0113277"]).
Proof.
  rewrite (character_run (backend_with (Ret a_character) Ret) plain_entries
             quiet_task [] [Person; Company] (ConfigStr "ch0001354")
             {[ "id" := VStr "ch0001354" ]} "ch0001354" "0001354" a_character
             empty_world).
  - reflexivity.
  - intros k' Hk'. by apply elem_of_nil in Hk'.
  - reflexivity.
  - reflexivity.
  - reflexivity.
  - reflexivity.
  - discriminate.
  - change (Forall (λ m, is_Some (made (backend_with (Ret a_character) Ret) m))
              [heat; heat]).
    repeat (apply Forall_cons_2; [eexists; reflexivity|]). apply Forall_nil_2.
Defined.

(** ** Test mode *)

Lemma without_test_messages_snoc t ev :
  without_test_messages (t ++ [ev])
  = without_test_messages t ++ (if test_message ev then [] else [ev]).
Proof.
  unfold without_test_messages. rewrite List.filter_app. simpl.
  by destruct (test_message ev).
Qed.

Lemma same_but_test_messages_refl w : same_but_test_messages w w.
Proof. by split. Qed.

Lemma agree_ret {A} (a : A) : agree (mret a) (mret a).
Proof. by intros w1 w2 H. Qed.

Lemma agree_raise {A} e : agree (raise e : M A) (raise e).
Proof. by intros w1 w2 H. Qed.

Lemma agree_bind {A B} (m1 m2 : M A) (f1 f2 : A → M B) :
  agree m1 m2 → (∀ a, agree (f1 a) (f2 a)) → agree (m1 ≫= f1) (m2 ≫= f2).
Proof.
  intros Hm Hf w1 w2 Hw. rewrite !run_bind.
  destruct (Hm w1 w2 Hw) as [Ho Hw'].
  destruct (m1 w1) as [[a1|e1] w1'], (m2 w2) as [[a2|e2] w2'];
    simpl in Ho; try done.
  - injection Ho as ->. by apply Hf.
  - by injection Ho as ->.
Qed.

Lemma agree_emit ev : agree (emit ev) (emit ev).
Proof.
  intros w1 w2 [Hh Ht]. split; [done|]. split; [done|]. simpl.
  by rewrite !without_test_messages_snoc, Ht.
Qed.

Lemma agree_backend {A} c (r : outcome A) : agree (backend c r) (backend c r).
Proof.
  intros w1 w2 [Hh Ht]. split; [done|]. split; [done|]. simpl.
  by rewrite !without_test_messages_snoc, Ht.
Qed.

Lemma agree_test_message ev :
  test_message ev = true → agree (emit ev) (mret ()).
Proof.
  intros Hev w1 w2 [Hh Ht]. split; [done|]. split; [done|]. simpl.
  by rewrite without_test_messages_snoc, Hev, app_nil_r.
Qed.

Lemma agree_sym {A} (m1 m2 : M A) : agree m1 m2 → agree m2 m1.
Proof.
  intros H w1 w2 [Hh Ht].
  destruct (H w2 w1) as (Ho & Hh' & Ht'); [by split|]. by repeat split.
Qed.

Lemma agree_for_each {A S} (l : list A) (body1 body2 : S → A → M S) s :
  (∀ s x, agree (body1 s x) (body2 s x)) →
  agree (for_each l body1 s) (for_each l body2 s).
Proof.
  intros Hbody. revert s. induction l as [|x l IH]; intros s; simpl.
  - apply agree_ret.
  - apply agree_bind; [apply Hbody|apply IH].
Qed.

Lemma agree_dict_get r key : agree (dict_get r key) (dict_get r key).
Proof.
  intros w1 w2 [Hh Ht].
  unfold dict_get, read_dict, read. rewrite !run_bind, Hh.
  destruct (heap w2 !! r) as [[l|d]|]; by repeat split.
Qed.

Lemma agree_cap entries max : agree (cap entries max) (cap entries max).
Proof.
  unfold cap. destruct (int_le _ _); [apply agree_ret|].
  apply agree_bind; [apply agree_emit|intros; apply agree_ret].
Qed.

Lemma agree_test_dump task task' (e : Entry) :
  agree
    (if options_test task
     then log INFO MsgTestMode;;
          log INFO (MsgTestTitle (entry_title e));;
          log INFO (MsgTestImdbId (imdb_id e))
     else mret ())
    (if options_test task'
     then log INFO MsgTestMode;;
          log INFO (MsgTestTitle (entry_title e));;
          log INFO (MsgTestImdbId (imdb_id e))
     else mret ()).
Proof.
  assert (agree
            (log INFO MsgTestMode;;
             log INFO (MsgTestTitle (entry_title e));;
             log INFO (MsgTestImdbId (imdb_id e)))
            (mret ();; mret ();; mret ())) as Hdump.
  { apply agree_bind; [by apply agree_test_message|intros _].
    apply agree_bind; [by apply agree_test_message|intros _].
    by apply agree_test_message. }
  destruct (options_test task), (options_test task').
  - apply agree_bind; [apply agree_emit|intros _].
    apply agree_bind; apply agree_emit || (intros _; apply agree_emit).
  - exact Hdump.
  - apply agree_sym. exact Hdump.
  - apply agree_ret.
Qed.

Lemma agree_add_entry E ia task task' entries item :
  agree (add_entry E ia task entries item) (add_entry E ia task' entries item).
Proof.
  unfold add_entry.
  apply agree_bind.
  { unfold getitem. destruct (title item); [apply agree_ret|apply agree_raise]. }
  intros t. apply agree_bind; [apply agree_backend|]. intros i.
  apply agree_bind.
  { unfold str_operand. destruct i; [apply agree_ret|apply agree_raise]. }
  intros i'. destruct (isvalid E _).
  - destruct (negb _); [|apply agree_ret].
    apply agree_bind; [apply agree_test_dump|intros; apply agree_ret].
  - apply agree_bind; [apply agree_emit|intros; apply agree_ret].
Qed.

Lemma agree_assemble E ia task task' items :
  agree (assemble E ia task items) (assemble E ia task' items).
Proof. apply agree_for_each. intros. apply agree_add_entry. Qed.

(** Two runs that start with the same computation from the same world agree
    when what follows agrees. *)
Lemma agree_prefix {A B} (m : M A) (f1 f2 : A → M B) w :
  (∀ a w', ((f1 a w').1 = (f2 a w').1
            ∧ same_but_test_messages (f1 a w').2 (f2 a w').2)) →
  ((m ≫= f1) w).1 = ((m ≫= f2) w).1
  ∧ same_but_test_messages ((m ≫= f1) w).2 ((m ≫= f2) w).2.
Proof.
  intros Hf. rewrite !run_bind. destruct (m w) as [[a|e] w']; [apply Hf|].
  split; [done|apply same_but_test_messages_refl].
Qed.

Lemma agree_collect order E ia task task' config w :
  (collect order E task ia config w).1 = (collect order E task' ia config w).1
  ∧ same_but_test_messages (collect order E task ia config w).2
      (collect order E task' ia config w).2.
Proof.
  unfold collect.
  apply agree_prefix. intros r w1.
  apply agree_prefix. intros resolved w2.
  destruct resolved as [[k e]|];
    [|split; [done|apply same_but_test_messages_refl]].
  apply agree_prefix. intros cts w3.
  apply agree_prefix. intros jts w4.
  apply agree_prefix. intros items w5.
  destruct items as [[|m items]|];
    try (split; [done|apply same_but_test_messages_refl]).
  apply agree_prefix. intros _ w6.
  apply agree_bind;
    [apply agree_assemble|intros; apply agree_ret
    |apply same_but_test_messages_refl].
Qed.

(** X17. Test mode shows in the log only: whatever the task's options, a
    run from the same world has the same outcome, leaves the same heap, and
    leaves the same trace once the three test-mode messages are taken out
    of it. *)
Theorem test_mode_only_logs order imdb_import E task task' config w :
  (on_task_input order imdb_import E task config w).1
  = (on_task_input order imdb_import E task' config w).1
  ∧ heap (on_task_input order imdb_import E task config w).2
    = heap (on_task_input order imdb_import E task' config w).2
  ∧ without_test_messages
      (trace (on_task_input order imdb_import E task config w).2)
    = without_test_messages
        (trace (on_task_input order imdb_import E task' config w).2).
Proof.
  unfold on_task_input. destruct imdb_import as [ia|]; [|done].
  rewrite !run_bind.
  destruct (agree_collect order E ia task task' config w) as [Ho Hw].
  destruct (collect order E task ia config w) as [[c1|e1] w1],
           (collect order E task' ia config w) as [[c2|e2] w2];
    simpl in Ho; try done.
  - injection Ho as ->. destruct c2 as [[r entries]|]; [|done].
    assert (agree (max ← dict_get r "max_entries"; cap entries max)
                  (max ← dict_get r "max_entries"; cap entries max)) as Hcap.
    { apply agree_bind; [apply agree_dict_get|intros; apply agree_cap]. }
    destruct (Hcap w1 w2 Hw) as (? & ? & ?). done.
  - injection Ho as ->. destruct Hw. done.
Qed.

(** ** What a run changes in the heap *)

Lemma heap_stable_try_except {A} (body : M A) handler :
  heap_stable body → (∀ e, heap_stable (handler e)) →
  heap_stable (try_except body handler).
Proof.
  intros Hbody Hhandler w res w'. unfold try_except.
  destruct (body w) as [[a|e] w1] eqn:Hrun.
  - intros [= <- <-]. by eapply Hbody.
  - intros Hrun'. rewrite (Hhandler _ _ _ _ Hrun'). by eapply Hbody.
Qed.

Lemma heap_stable_dict_get r key : heap_stable (dict_get r key).
Proof.
  intros w res w'. unfold dict_get, read_dict, read. rewrite !run_bind.
  destruct (heap w !! r) as [[l|d]|]; by intros [= <- <-].
Qed.

Lemma heap_stable_lookup_entity ia k g : heap_stable (lookup_entity ia k g).
Proof. destruct k; apply heap_stable_backend. Qed.

Lemma heap_stable_resolve order ia v :
  heap_stable (entity_type_and_object order ia v).
Proof.
  assert (∀ items s, heap_stable (entity_type_and_object_loop ia items s))
    as Hloop.
  { induction items as [|k items IH]; intros s; simpl.
    - apply heap_stable_ret.
    - destruct (re_search _ _); [|apply IH].
      apply heap_stable_bind; [apply heap_stable_lookup_entity|intros shown].
      apply heap_stable_bind; [apply heap_stable_log|intros _].
      apply heap_stable_bind; [apply heap_stable_lookup_entity|intros e].
      apply heap_stable_ret. }
  unfold entity_type_and_object.
  destruct v as [[s| | |]|]; try apply Hloop;
    destruct order; apply heap_stable_ret || apply heap_stable_raise.
Qed.

Lemma heap_stable_add_entry E ia task entries item :
  heap_stable (add_entry E ia task entries item).
Proof.
  unfold add_entry.
  apply heap_stable_bind; [apply heap_stable_getitem|intros t].
  apply heap_stable_bind; [apply heap_stable_backend|intros i].
  apply heap_stable_bind; [apply heap_stable_str_operand|intros i'].
  destruct (isvalid E _).
  - destruct (negb _); [|apply heap_stable_ret].
    apply heap_stable_bind; [|intros; apply heap_stable_ret].
    destruct (options_test task); [|apply heap_stable_ret].
    apply heap_stable_bind; [apply heap_stable_log|intros _].
    apply heap_stable_bind; [apply heap_stable_log|intros _].
    apply heap_stable_log.
  - apply heap_stable_bind; [apply heap_stable_log|intros _].
    apply heap_stable_ret.
Qed.

Lemma heap_stable_cap entries max : heap_stable (cap entries max).
Proof.
  unfold cap. destruct (int_le _ _); [apply heap_stable_ret|].
  apply heap_stable_bind; [apply heap_stable_log|intros; apply heap_stable_ret].
Qed.

(** The enumeration changes one object at most: for a Person, the list of
    job types when it holds [actor]. *)
Lemma items_by_entity_heap ia k e ct jt w res w' :
  items_by_entity ia k e ct jt w = (res, w') →
  length (heap w') = length (heap w)
  ∧ ∀ l o, heap w !! l = Some o →
      heap w' !! l = Some o
      ∨ ∃ js, o = OList js ∧ k = Person ∧ jt = Some (VList l) ∧ "actor" ∈ js
              ∧ heap w' !! l = Some (OList (js ++ ["actress"])).
Proof.
  assert (heap w' = heap w →
          length (heap w') = length (heap w)
          ∧ ∀ l o, heap w !! l = Some o →
              heap w' !! l = Some o
              ∨ ∃ js, o = OList js ∧ k = Person ∧ jt = Some (VList l)
                      ∧ "actor" ∈ js
                      ∧ heap w' !! l = Some (OList (js ++ ["actress"])))
    as Hsame by (intros ->; split; [done|by left]).
  destruct k; [|by intros [= <- <-]; apply Hsame..].
  destruct jt as [[s|q|b|rj]|]; try (by intros [= <- <-]; apply Hsame).
  destruct (heap w !! rj) as [[js|d]|] eqn:Hrj.
  - intros Hrun. rewrite (person_heap _ _ _ _ _ _ _ _ Hrj Hrun).
    clear Hsame. unfold expanded_heap. case_bool_decide as Hactor.
    + split; [by rewrite length_insert|]. intros l o Hl.
      destruct (decide (l = rj)) as [->|Hne].
      * right. exists js. rewrite Hrj in Hl. injection Hl as <-.
        split_and!; [done..|]. apply list_lookup_insert_eq.
        by eapply lookup_lt_Some.
      * left. by rewrite list_lookup_insert_ne.
    + split; [done|]. by left.
  - unfold items_by_entity, iterate, read_list, read. rewrite !run_bind, Hrj.
    by intros [= <- <-]; apply Hsame.
  - unfold items_by_entity, iterate, read_list, read. rewrite !run_bind, Hrj.
    by intros [= <- <-]; apply Hsame.
Qed.

(** What follows [prepare_config] in a run, on the dict at [r]. *)
Lemma run_after_prepare order ia E task config w r w1 :
  prepare_config config w = (Ret r, w1) →
  on_task_input order (Some ia) E task config w
  = (resolved ← try_except
       (imdb_id ← dict_get r "id";
        found ← entity_type_and_object order ia imdb_id;
        pair ← unpack found;
        mret (Some pair))
       (λ e, log ERROR (MsgCouldNotResolve e);; mret None);
     collected ← match resolved with
                 | None => mret None
                 | Some (entity_type, entity_object) =>
                     content_types ← dict_get r "content_types";
                     job_types ← dict_get r "job_types";
                     items ← items_by_entity ia entity_type entity_object
                               content_types job_types;
                     match items with
                     | None | Some [] => log ERROR MsgNoItemList;; mret None
                     | Some items =>
                         log INFO (MsgRetrieved (length items));;
                         entries ← assemble E ia task items;
                         mret (Some (r, entries))
                     end
                 end;
     match collected with
     | None => mret None
     | Some (config, entries) =>
         max ← dict_get config "max_entries";
         cap entries max
     end) w1.
Proof.
  intros Hprep. unfold on_task_input, collect.
  rewrite !run_bind, Hprep. rewrite !run_bind.
  by destruct (try_except _ _ w1) as [[?|?] ?].
Qed.

Lemma heap_stable_unpack {A} (x : option A) : heap_stable (unpack x).
Proof. destruct x; [apply heap_stable_ret|apply heap_stable_raise]. Qed.

Lemma heap_stable_try_resolve order ia r :
  heap_stable
    (try_except
       (imdb_id ← dict_get r "id";
        found ← entity_type_and_object order ia imdb_id;
        pair ← unpack found;
        mret (Some pair))
       (λ e, log ERROR (MsgCouldNotResolve e);; mret None)).
Proof.
  apply heap_stable_try_except.
  - apply heap_stable_bind; [apply heap_stable_dict_get|intros v].
    apply heap_stable_bind; [apply heap_stable_resolve|intros found].
    apply heap_stable_bind; [apply heap_stable_unpack|intros pair].
    apply heap_stable_ret.
  - intros e. apply heap_stable_bind; [apply heap_stable_log|intros _].
    apply heap_stable_ret.
Qed.

Lemma run_heap order ia E task r d' w1 res w' :
  heap w1 !! r = Some (ODict d') →
  (resolved ← try_except
     (imdb_id ← dict_get r "id";
      found ← entity_type_and_object order ia imdb_id;
      pair ← unpack found;
      mret (Some pair))
     (λ e, log ERROR (MsgCouldNotResolve e);; mret None);
   collected ← match resolved with
               | None => mret None
               | Some (entity_type, entity_object) =>
                   content_types ← dict_get r "content_types";
                   job_types ← dict_get r "job_types";
                   items ← items_by_entity ia entity_type entity_object
                             content_types job_types;
                   match items with
                   | None | Some [] => log ERROR MsgNoItemList;; mret None
                   | Some items =>
                       log INFO (MsgRetrieved (length items));;
                       entries ← assemble E ia task items;
                       mret (Some (r, entries))
                   end
               end;
   match collected with
   | None => mret None
   | Some (config, entries) =>
       max ← dict_get config "max_entries";
       cap entries max
   end) w1 = (res, w') →
  length (heap w') = length (heap w1)
  ∧ ∀ l o, heap w1 !! l = Some o →
      heap w' !! l = Some o
      ∨ ∃ js, o = OList js ∧ d' !! "job_types" = Some (VList l) ∧ "actor" ∈ js
              ∧ heap w' !! l = Some (OList (js ++ ["actress"])).
Proof.
  intros Hr.
  assert (∀ w2, heap w2 = heap w1 →
          length (heap w2) = length (heap w1)
          ∧ ∀ l o, heap w1 !! l = Some o →
              heap w2 !! l = Some o
              ∨ ∃ js, o = OList js ∧ d' !! "job_types" = Some (VList l)
                      ∧ "actor" ∈ js
                      ∧ heap w2 !! l = Some (OList (js ++ ["actress"])))
    as Hsame by (intros w2 ->; split; [done|by left]).
  assert (∀ collected : option (loc * list Entry),
            heap_stable (match collected with
                         | None => mret None
                         | Some (config, entries) =>
                             max ← dict_get config "max_entries";
                             cap entries max
                         end)) as Hfinish.
  { intros [[c entries]|]; [|apply heap_stable_ret].
    apply heap_stable_bind; [apply heap_stable_dict_get|].
    intros; apply heap_stable_cap. }
  rewrite run_bind.
  destruct (try_except _ _ w1) as [[resolved|x] w2] eqn:Htry.
  2:{ intros [= <- <-]. apply Hsame.
      by apply heap_stable_try_resolve in Htry. }
  assert (heap w2 = heap w1) as H2
    by by apply heap_stable_try_resolve in Htry.
  rewrite run_bind. destruct resolved as [[k e]|].
  2:{ rewrite run_ret. intros Hrun. apply Hsame.
      by rewrite (Hfinish None _ _ _ Hrun). }
  assert (heap w2 !! r = Some (ODict d')) as Hr2 by by rewrite H2.
  rewrite (run_bind_ret _ _ _ _ _ (run_dict_get _ "content_types" _ _ Hr2)).
  rewrite (run_bind_ret _ _ _ _ _ (run_dict_get _ "job_types" _ _ Hr2)).
  rewrite run_bind.
  destruct (items_by_entity _ _ _ _ _ w2) as [[items|x] w3] eqn:Hitems.
  - apply items_by_entity_heap in Hitems as [Hlen Hitems].
    match goal with
    | |- (let (_, _) := ?t in _) = _ → _ =>
        destruct t as [[collected|x] w4] eqn:Hafter
    end.
    + intros Hrun. apply Hfinish in Hrun. rewrite Hrun.
      assert (heap w4 = heap w3) as ->.
      { revert Hafter. destruct items as [[|m items]|].
        - by intros [= <- <-].
        - rewrite run_bind, run_log. intros Hafter.
          eapply (heap_stable_bind _ _
                    (heap_stable_for_each _ _ _
                       (heap_stable_add_entry E ia task))) in Hafter;
            [done|intros; apply heap_stable_ret].
        - by intros [= <- <-]. }
      rewrite Hlen, H2. split; [done|]. intros l o Hl. rewrite <- H2 in Hl.
      destruct (Hitems l o Hl) as [?|(js & ? & ? & ? & ? & ?)]; [by left|].
      right. by exists js.
    + intros [= <- <-].
      assert (heap w4 = heap w3) as ->.
      { revert Hafter. destruct items as [[|m items]|].
        - by intros [= <- <-].
        - rewrite run_bind, run_log. intros Hafter.
          eapply (heap_stable_bind _ _
                    (heap_stable_for_each _ _ _
                       (heap_stable_add_entry E ia task))) in Hafter;
            [done|intros; apply heap_stable_ret].
        - by intros [= <- <-]. }
      rewrite Hlen, H2. split; [done|]. intros l o Hl. rewrite <- H2 in Hl.
      destruct (Hitems l o Hl) as [?|(js & ? & ? & ? & ? & ?)]; [by left|].
      right. by exists js.
  - intros [= <- <-].
    apply items_by_entity_heap in Hitems as [Hlen Hitems].
    rewrite Hlen, H2. split; [done|]. intros l o Hl. rewrite <- H2 in Hl.
    destruct (Hitems l o Hl) as [?|(js & ? & ? & ? & ? & ?)]; [by left|].
    right. by exists js.
Qed.

(** X9. Whatever its outcome, a run on a well-formed configuration leaves
    every object that was in the heap as it was, apart from the
    configuration dict itself and from the list its [job_types] refers to,
    which gets [actress] appended when it holds [actor]. *)
Theorem run_changes_job_types_only
    order imdb_import E task config d w res w' :
  config_dict (heap w) config = Some d →
  on_task_input order imdb_import E task config w = (res, w') →
  ∀ l o, heap w !! l = Some o → config ≠ ConfigDict l →
    heap w' !! l = Some o
    ∨ ∃ js, o = OList js ∧ d !! "job_types" = Some (VList l) ∧ "actor" ∈ js
            ∧ heap w' !! l = Some (OList (js ++ ["actress"])).
Proof.
  intros Hd Hrun l o Hl Hne. destruct imdb_import as [ia|].
  2:{ injection Hrun as <- <-. by left. }
  destruct (prepare_config_facts config d w Hd)
    as (r & d' & w1 & Hprep & Hr & _ & _ & _ & Hjt & Hframe & _).
  rewrite (run_after_prepare _ _ _ _ _ _ _ _ Hprep) in Hrun.
  apply (run_heap _ _ _ _ _ _ _ _ _ Hr) in Hrun as [_ Hrun].
  destruct (Hrun l o (Hframe l o Hl Hne))
    as [?|(js & -> & Hjt' & Hactor & Hl')]; [by left|].
  right. exists js. split_and!; [done| |done..].
  apply lookup_lt_Some in Hl. unfold normalised in Hjt.
  destruct (d !! "job_types") as [[s|q|b|l0]|]; try congruence.
  - destruct Hjt as (l0 & Hl0 & Hnew & _). rewrite Hl0 in Hjt'.
    injection Hjt' as ->. lia.
  - destruct Hjt as (l0 & Hl0 & Hnew & _). rewrite Hl0 in Hjt'.
    injection Hjt' as ->. lia.
Qed.

(** X9 at a configuration whose [job_types] is the list [[actor]], for
    that list. *)
Lemma run_changes_job_types_only_witness :
  heap (on_task_input ENTITIES_FORMATS_items
          (Some (backend_with (Ret a_person) Ret)) plain_entries quiet_task
          (ConfigDict 0) actor_config_world).2 !! 1 = Some (OList ["actor"])
  ∨ ∃ js, OList ["actor"] = OList js
          ∧ ({[ "id" := VStr "nm0000375"; "job_types" := VList 1 ]}
               : gmap string value) !! "job_types" = Some (VList 1)
          ∧ "actor" ∈ js
          ∧ heap (on_task_input ENTITIES_FORMATS_items
                    (Some (backend_with (Ret a_person) Ret)) plain_entries
                    quiet_task (ConfigDict 0) actor_config_world).2 !! 1
            = Some (OList (js ++ ["actress"])).
Proof.
  apply (run_changes_job_types_only ENTITIES_FORMATS_items
           (Some (backend_with (Ret a_person) Ret)) plain_entries quiet_task
           (ConfigDict 0)
           {[ "id" := VStr "nm0000375"; "job_types" := VList 1 ]}
           actor_config_world
           (on_task_input ENTITIES_FORMATS_items
              (Some (backend_with (Ret a_person) Ret)) plain_entries
              quiet_task (ConfigDict 0) actor_config_world).1).
  - reflexivity.
  - apply surjective_pairing.
  - reflexivity.
  - discriminate.
Defined.

(** * The [set] plugin *)

Lemma register_key_lookup key type keys i :
  register_key key type keys !! i
  = match keys !! i with
    | Some t => Some t
    | None => if bool_decide (i = key ∧ key ≠ "") then Some type else None
    end.
Proof.
  unfold register_key. case_bool_decide as Hkey.
  - destruct (decide (i = key)) as [->|Hne].
    + destruct (keys !! key) eqn:Hk; rewrite ?Hk, ?lookup_insert_eq; [done|].
      by rewrite bool_decide_eq_true_2.
    + destruct (keys !! key); rewrite ?lookup_insert_ne by done;
        destruct (keys !! i); try done;
        by rewrite bool_decide_eq_false_2 by by intros [].
  - destruct (keys !! i); [done|].
    by rewrite bool_decide_eq_false_2 by by intros [].
Qed.

Lemma register_keys_list items keys :
  register_keys items keys = keys ∪ delete "" (list_to_map items).
Proof.
  unfold register_keys. revert keys.
  induction items as [|[key type] items IH]; intros keys; simpl.
  - rewrite delete_empty. symmetry. apply (right_id_L ∅ (∪)).
  - rewrite IH.
    apply map_eq. intros i.
    rewrite !lookup_union, register_key_lookup.
    destruct (keys !! i) as [t|] eqn:Hi.
    { by rewrite !union_Some_l. }
    rewrite !(left_id_L None (∪)).
    destruct (decide (i = "")) as [->|Hi0].
    { rewrite bool_decide_eq_false_2 by (by intros [<- ?]).
      rewrite (left_id_L None (∪)). by rewrite !lookup_delete_eq. }
    rewrite !lookup_delete_ne by done.
    destruct (decide (i = key)) as [->|Hne].
    + rewrite lookup_insert_eq, bool_decide_eq_true_2 by done.
      by rewrite union_Some_l.
    + rewrite lookup_insert_ne by done.
      rewrite bool_decide_eq_false_2 by (by intros []).
      by rewrite (left_id_L None (∪)).
Qed.

(** X19. Registering the keys of a dict gives the same registry whatever
    the order in which the dict yields its items: the keys registered
    before keep their types, and every other key of the dict but the empty
    one is added with the type the dict gives it. *)
Theorem register_keys_any_order (ks : gmap string string) items keys :
  items ≡ₚ map_to_list ks →
  register_keys items keys = keys ∪ delete "" ks.
Proof.
  intros Hitems. rewrite register_keys_list. f_equal. f_equal.
  rewrite <- (list_to_map_to_list ks).
  apply list_to_map_proper; [|done].
  rewrite Hitems. apply NoDup_fst_map_to_list.
Qed.

(** X19 at a dict that gives a type to a key registered before, to the
    empty key and to a new key. *)
Lemma register_keys_any_order_witness :
  register_keys
    (map_to_list ({[ "path" := "number"; "" := "text"; "label" := "text" ]}
                    : gmap string string))
    {[ "path" := "text" ]}
  = {[ "path" := "text" ]}
    ∪ delete "" ({[ "path" := "number"; "" := "text"; "label" := "text" ]}
                   : gmap string string).
Proof.
  apply (register_keys_any_order
           {[ "path" := "number"; "" := "text"; "label" := "text" ]}).
  reflexivity.
Defined.

(** * Assembly: what the comparison of entries decides *)

(** Of the elements that pass [P], one that equals none before it is
    selected. *)
Lemma first_seen_kept {A} (eq : A → A → bool) (P : A → bool)
    l acc pre y post :
  filter (λ x, P x) l = pre ++ y :: post →
  contains eq y acc = false →
  (∀ x, x ∈ pre → eq x y = false) →
  y ∈ first_seen eq P l acc.
Proof.
  revert acc pre. induction l as [|x l IH]; intros acc pre Hl Hacc Hpre.
  - by destruct pre.
  - rewrite first_seen_cons. rewrite filter_cons in Hl.
    destruct (add_new_cases eq P acc x) as [(-> & Hc & HP)|(-> & Hor)].
    + rewrite decide_True in Hl by by rewrite HP.
      destruct pre as [|z pre]; simpl in Hl; simplify_eq.
      * apply first_seen_acc, elem_of_app. right. apply list_elem_of_here.
      * apply (IH _ pre); [done| |].
        -- apply contains_false. intros y' [Hy'|Hy']%elem_of_app.
           ++ by apply (proj1 (contains_false eq y acc) Hacc).
           ++ apply list_elem_of_singleton in Hy' as ->.
              apply Hpre, list_elem_of_here.
        -- intros x Hx. by apply Hpre, list_elem_of_further.
    + case_decide as HP.
      * destruct Hor as [Hc|Hn]; [|by rewrite Hn in HP].
        destruct pre as [|z pre]; simpl in Hl; simplify_eq.
        -- by rewrite Hc in Hacc.
        -- apply (IH _ pre); [done..|].
           intros x Hx. by apply Hpre, list_elem_of_further.
      * by apply (IH _ pre).
Qed.

(** C6, as the code has it.  The assembly keeps an entry when it is valid
    and [entry not in entries] holds, which is decided by the comparison of
    the [Entry] class and by nothing else: no two entries of an assembled
    list are equal under it, the list is a sublist of the valid entries in
    their order, every valid entry is in it or equals one in it, and a valid
    entry that equals none of the valid entries before it is kept, whatever
    its canonical id. *)
Theorem assembled_entries_distinct E ia task :
  (∀ items w entries w',
     assemble E ia task items w = (Ret entries, w') →
     distinct (entry_eq E) entries
     ∧ entries `sublist_of` filter (λ e, isvalid E e) (omap (made ia) items)
     ∧ (∀ e, e ∈ entries →
          ∃ item t i, item ∈ items ∧ title item = Some t
                      ∧ get_imdbID ia item = Ret (Some i)
                      ∧ e = {| entry_title := t; imdb_id := "tt" +:+ i;
                               url := "" |})
     ∧ (∀ e, e ∈ omap (made ia) items → isvalid E e = true →
          e ∈ entries ∨ ∃ e', e' ∈ entries ∧ entry_eq E e' e = true)
     ∧ (∀ pre e post,
          filter (λ e, isvalid E e) (omap (made ia) items)
          = pre ++ e :: post →
          (∀ e', e' ∈ pre → entry_eq E e' e = false) → e ∈ entries))
  ∧ (∀ order config w entries w',
       on_task_input order (Some ia) E task config w
       = (Ret (Some entries), w') →
       distinct (entry_eq E) entries).
Proof.
  split.
  - intros items w entries w' [-> _]%assemble_ret.
    split; [apply first_seen_distinct, distinct_nil|].
    destruct (first_seen_sublist (entry_eq E) (isvalid E)
                (omap (made ia) items) []) as (ys & Hys & Hsub).
    simpl in Hys. split; [by rewrite Hys|]. split; [|split].
    + intros e [He|[He _]]%first_seen_passes; [by apply elem_of_nil in He|].
      by apply elem_of_made.
    + intros e He Hvalid. by apply first_seen_covers.
    + intros pre e post Hsplit Hpre.
      by eapply first_seen_kept; [exact Hsplit| |exact Hpre].
  - intros order config w entries w' Hrun.
    apply on_task_input_assembled in Hrun
      as (ia' & items & w1 & w2 & [= <-] & [-> _]%assemble_ret).
    apply first_seen_distinct, distinct_nil.
Qed.

(** C6 at a company one of whose works comes back under a second title: the
    three entries differ, and the third is kept. *)
Lemma assembled_entries_distinct_witness :
  distinct same_title_url
    [entry_of "Heat" "0113277"; entry_of "Ronin" "0122690";
     entry_of "Heat (1995)" "0113277"]
  ∧ entry_of "Heat (1995)" "0113277"
    ∈ [entry_of "Heat" "0113277"; entry_of "Ronin" "0122690";
       entry_of "Heat (1995)" "0113277"].
Proof.
  destruct (assembled_entries_distinct plain_entries
              (backend_with (Ret retitling_company) Ret) quiet_task)
    as [Hassemble Hrun].
  split.
  - apply (Hrun ENTITIES_FORMATS_items (ConfigStr "co0051941") empty_world
             [entry_of "Heat" "0113277"; entry_of "Ronin" "0122690";
              entry_of "Heat (1995)" "0113277"]
             (on_task_input ENTITIES_FORMATS_items
                (Some (backend_with (Ret retitling_company) Ret))
                plain_entries quiet_task (ConfigStr "co0051941")
                empty_world).2).
    reflexivity.
  - destruct (Hassemble [heat; ronin; heat_retitled] empty_world
                [entry_of "Heat" "0113277"; entry_of "Ronin" "0122690";
                 entry_of "Heat (1995)" "0113277"]
                (assemble plain_entries
                   (backend_with (Ret retitling_company) Ret) quiet_task
                   [heat; ronin; heat_retitled] empty_world).2 eq_refl)
      as (_ & _ & _ & _ & Hkept).
    apply (Hkept [entry_of "Heat" "0113277"; entry_of "Ronin" "0122690"]
             (entry_of "Heat (1995)" "0113277") []); [reflexivity|].
    intros e' He'. apply elem_of_cons in He' as [->|He']; [reflexivity|].
    apply list_elem_of_singleton in He' as ->. reflexivity.
Defined.

(** C6, the claim as stated, fails with entries compared as flexget's
    [Entry] compares them: a work that comes back under a second title gives
    two entries with one canonical id, and of two works with one title and
    two ids the second is dropped. *)
Lemma retitled_work_shares_canonical_id :
  (run_plugin (backend_with (Ret retitling_company) Ret)
     (ConfigStr "co0051941") empty_world).1
  = Ret (Some [entry_of "Heat" "0113277"; entry_of "Ronin" "0122690";
               entry_of "Heat (1995)" "0113277"])
  ∧ ¬ NoDup (imdb_id <$> [entry_of "Heat" "0113277";
                          entry_of "Ronin" "0122690";
                          entry_of "Heat (1995)" "0113277"])
  ∧ (run_plugin (backend_with (Ret remake_company) Ret)
       (ConfigStr "co0051941") empty_world).1
    = Ret (Some [entry_of "Heat" "0113277"])
  ∧ get_imdbID (backend_with (Ret remake_company) Ret) heat_1986
    = Ret (Some "0093164").
Proof.
  split; [vm_compute; reflexivity|]. split; [|split; vm_compute; reflexivity].
  intros [Hnot _]%NoDup_cons. apply Hnot.
  apply list_elem_of_further, list_elem_of_here.
Qed.

(** * The [actress] labels *)

(** C4. When [actor] is among the job types of a Person run, the list is
    extended by [actress] exactly once, whatever the number of pairs and
    whatever the outcome of the run.  When the run returns, the labels
    searched are those of every job type of the extended list with every
    content type, [actress] included, and the entity has been read under
    them: every work it files under [actress] and a content type, or under
    the bare [actress] when that label is absent, has been hydrated, and is
    returned, or equals a work returned, when its own kind is requested. *)
Theorem actress_expansion_once ia entity_object ct rj l w res w' :
  heap w !! rj = Some (OList l) →
  "actor" ∈ l →
  items_by_entity ia Person entity_object ct (Some (VList rj)) w = (res, w') →
  heap w' = <[rj := OList (l ++ ["actress"])]> (heap w)
  ∧ (∀ rc cts movies,
       ct = Some (VList rc) →
       heap w' !! rc = Some (OList cts) →
       res = Ret movies →
       searched (trace w')
       = searched (trace w) ++ labels (l ++ ["actress"]) cts
       ∧ (∀ content_type, content_type ∈ cts →
            "actress" +:+ " " +:+ content_type ∈ searched (trace w'))
       ∧ ∃ found hydrated,
           movies = Some found
           ∧ hydrations (trace w') = hydrations (trace w) ++ hydrated
           ∧ ∀ content_type ms m0,
               content_type ∈ cts →
               match entity_object !! ("actress" +:+ " " +:+ content_type) with
               | Some ms' => Some ms'
               | None => entity_object !! "actress"
               end = Some ms →
               m0 ∈ ms →
               m0 ∈ hydrated
               ∧ ∀ m k, update ia m0 = Ret m → kind m = Some k → k ∈ cts →
                   m ∈ found ∨ ∃ m', m' ∈ found ∧ movie_eq ia m' m = true).
Proof.
  intros Hl Hactor Hrun.
  assert (expanded l = l ++ ["actress"]) as Hexp
    by (unfold expanded; by rewrite bool_decide_eq_true_2).
  assert (expanded_heap rj l (heap w) = <[rj := OList (l ++ ["actress"])]> (heap w))
    as Hheap by (unfold expanded_heap; by rewrite bool_decide_eq_true_2).
  pose proof (person_heap _ _ _ _ _ _ _ _ Hl Hrun) as Hh.
  rewrite Hheap in Hh. split; [done|].
  intros rc cts movies -> Hrc ->.
  rewrite Hh, <- Hheap in Hrc.
  destruct (person_ret _ _ _ _ _ _ _ _ _ Hl Hrc Hrun) as (Hres & _ & Hs).
  rewrite Hexp in Hs, Hres. split; [done|].
  assert (∀ content_type, content_type ∈ cts →
            "actress" ∈ l ++ ["actress"]) as Hin.
  { intros _ _. apply elem_of_app. right. apply list_elem_of_here. }
  split.
  { intros content_type Hct. rewrite Hs. apply elem_of_app. right.
    unfold labels. apply list_elem_of_bind. exists "actress". split.
    - apply list_elem_of_bind. exists content_type. split; [|done].
      apply list_elem_of_here.
    - by apply (Hin content_type). }
  eexists _, (candidates entity_object (l ++ ["actress"]) cts).
  split; [exact Hres|]. split.
  { rewrite (run_person _ _ _ _ _ _ Hl) in Hrun.
    apply run_bind_inv in Hrun as (found & w1 & Hloop & Hret).
    rewrite run_ret in Hret. injection Hret as _ <-.
    apply (job_loop_hydrations ia entity_object cts rc) in Hloop; [|done].
    by rewrite Hexp in Hloop. }
  intros content_type ms m0 Hct Hms Hm0.
  assert (m0 ∈ candidates entity_object (l ++ ["actress"]) cts) as Hcand.
  { apply elem_of_candidates. exists "actress", content_type, ms.
    split_and!; [by apply (Hin content_type)|done..]. }
  split; [done|].
  intros m k Hup Hk Hkc. apply first_seen_covers.
  - apply elem_of_hydrated. by exists m0.
  - apply kind_in_true. by exists k.
Qed.

(** C4 at a person with one credit as an actor and another as an actress,
    searched as [actor] for [movie]: the second work is hydrated and
    returned. *)
Lemma actress_expansion_once_witness :
  let run := items_by_entity (backend_with (Ret an_actress) Ret) Person
               an_actress (Some (VList 1)) (Some (VList 0))
               actor_movie_world in
  heap run.2 = [OList ["actor"; "actress"]; OList ["movie"]]
  ∧ searched (trace run.2) = ["actor movie"; "actress movie"]
  ∧ run.1 = Ret (Some [heat; ronin])
  ∧ ronin ∈ hydrations (trace run.2).
Proof.
  intros run.
  destruct (actress_expansion_once (backend_with (Ret an_actress) Ret)
              an_actress (Some (VList 1)) 0 ["actor"] actor_movie_world
              run.1 run.2)
    as [Hheap Hlabels].
  - reflexivity.
  - apply list_elem_of_here.
  - apply surjective_pairing.
  - split; [exact Hheap|].
    destruct (Hlabels 1 ["movie"] (Some [heat; ronin]))
      as (Hs & _ & found & hydrated & Hfound & Hhyds & Hread);
      [reflexivity..|].
    split; [exact Hs|]. split; [reflexivity|].
    destruct (Hread "movie" [ronin] ronin) as [Hhyd _];
      [apply list_elem_of_here|reflexivity|apply list_elem_of_here|].
    rewrite Hhyds. apply elem_of_app. right. exact Hhyd.
Defined.

(** * Works without a kind or a title *)

Section EnumerationOutcome.
Context (ia : IMDb) (entity_object : Entity) (cts : list string).

Lemma inspect_movie_outcome movies m0 w :
  (inspect_movie ia cts movies m0 w).1 = inspected ia cts movies m0.
Proof.
  rewrite run_inspect_movie. unfold inspected.
  destruct (update ia m0) as [m|e]; [|done]. cbv zeta.
  destruct (contains _ _ _); [done|].
  destruct (kind m) as [k|]; [|done].
  destruct (bool_decide _); [|done]. by destruct (title m).
Qed.

Lemma enumerated_app l1 l2 movies :
  enumerated ia cts (l1 ++ l2) movies
  = match enumerated ia cts l1 movies with
    | Ret movies' => enumerated ia cts l2 movies'
    | Raise e => Raise e
    end.
Proof.
  revert movies. induction l1 as [|m0 l1 IH]; intros movies; simpl; [done|].
  by destruct (inspected ia cts movies m0).
Qed.

Lemma movies_loop_outcome ms movies w :
  (for_each ms (inspect_movie ia cts) movies w).1 = enumerated ia cts ms movies.
Proof.
  revert movies w. induction ms as [|m0 ms IH]; intros movies w; simpl; [done|].
  rewrite run_bind. rewrite <- (inspect_movie_outcome movies m0 w).
  destruct (inspect_movie ia cts movies m0 w) as [[movies'|e] w1]; simpl;
    [apply IH|done].
Qed.

Lemma search_label_outcome jt movies ct w :
  (search_label ia entity_object cts jt movies ct w).1
  = enumerated ia cts
      (default [] (movies_by_job_type entity_object jt ct)) movies.
Proof.
  unfold search_label. rewrite run_bind, run_log.
  destruct (movies_by_job_type entity_object jt ct) as [[|m0 ms]|]; try done.
  apply movies_loop_outcome.
Qed.

Lemma content_loop_outcome jt cts' movies w :
  (for_each cts' (search_label ia entity_object cts jt) movies w).1
  = enumerated ia cts (candidates_of entity_object cts' jt) movies.
Proof.
  revert movies w. induction cts' as [|ct cts' IH]; intros movies w; [done|].
  cbn [for_each]. unfold candidates_of. rewrite bind_cons.
  fold (candidates_of entity_object cts' jt).
  rewrite enumerated_app, run_bind.
  rewrite <- (search_label_outcome jt movies ct w).
  destruct (search_label ia entity_object cts jt movies ct w)
    as [[movies'|e] w1]; simpl; [apply IH|done].
Qed.

Lemma job_loop_outcome rc jts movies w :
  heap w !! rc = Some (OList cts) →
  (for_each jts (λ movies job_type,
      cts ← iterate (Some (VList rc));
      for_each cts (search_label ia entity_object cts job_type) movies)
     movies w).1
  = enumerated ia cts (candidates entity_object jts cts) movies.
Proof.
  revert movies w. induction jts as [|jt jts IH]; intros movies w Hrc; [done|].
  cbn [for_each]. rewrite candidates_cons, enumerated_app, run_bind.
  rewrite (run_bind_ret _ _ _ _ _ (run_iterate _ _ _ Hrc)).
  rewrite <- (content_loop_outcome jt cts movies w).
  destruct (for_each cts (search_label ia entity_object cts jt) movies w)
    as [[movies'|e] w1] eqn:Hloop; simpl; [|done].
  apply IH. apply content_loop_ret in Hloop as (_ & -> & _). done.
Qed.

Lemma person_outcome rc rj l w :
  heap w !! rj = Some (OList l) →
  expanded_heap rj l (heap w) !! rc = Some (OList cts) →
  (items_by_entity ia Person entity_object
     (Some (VList rc)) (Some (VList rj)) w).1
  = match enumerated ia cts (candidates entity_object (expanded l) cts) [] with
    | Ret movies => Ret (Some movies)
    | Raise e => Raise e
    end.
Proof.
  intros Hl Hrc. rewrite (run_person _ _ _ _ _ _ Hl), run_bind.
  rewrite <- (job_loop_outcome rc (expanded l) []
                {| heap := expanded_heap rj l (heap w); trace := trace w |} Hrc).
  by destruct (for_each _ _ _ _) as [[movies|e] w1].
Qed.

Lemma enumerated_healthy ms movies :
  Forall (healthy ia) ms →
  enumerated ia cts ms movies
  = Ret (first_seen (movie_eq ia) (kind_in cts) (omap (hydrate ia) ms) movies).
Proof.
  intros Hms.
  destruct (movies_loop_returns ia cts ms movies empty_world Hms) as (w' & Hrun).
  by rewrite <- (movies_loop_outcome ms movies empty_world), Hrun.
Qed.

Lemma enumerated_raise pre m0 post e :
  Forall (healthy ia) pre →
  inspected ia cts
    (first_seen (movie_eq ia) (kind_in cts) (omap (hydrate ia) pre) []) m0
  = Raise e →
  enumerated ia cts (pre ++ m0 :: post) [] = Raise e.
Proof.
  intros Hpre Hm0. rewrite enumerated_app, (enumerated_healthy _ _ Hpre).
  simpl. by rewrite Hm0.
Qed.

End EnumerationOutcome.

(** An exception of the enumeration or of the assembly is the outcome of
    the run. *)
Lemma run_enumeration_raises order ia E task config w r k e ct jt w2 x :
  collect order E task ia config w
  = (items ← items_by_entity ia k e ct jt;
     match items with
     | None | Some [] => log ERROR MsgNoItemList;; mret None
     | Some items =>
         log INFO (MsgRetrieved (length items));;
         entries ← assemble E ia task items;
         mret (Some (r, entries))
     end) w2 →
  (items_by_entity ia k e ct jt w2).1 = Raise x →
  (on_task_input order (Some ia) E task config w).1 = Raise x.
Proof.
  intros Hcollect Hx. unfold on_task_input.
  rewrite run_bind, Hcollect, run_bind.
  destruct (items_by_entity ia k e ct jt w2) as [[items|x'] w3];
    simpl in Hx; [done|]. by injection Hx as ->.
Qed.

Lemma run_assembly_raises order ia E task config w r k e ct jt w2
    pre item post w3 :
  collect order E task ia config w
  = (items ← items_by_entity ia k e ct jt;
     match items with
     | None | Some [] => log ERROR MsgNoItemList;; mret None
     | Some items =>
         log INFO (MsgRetrieved (length items));;
         entries ← assemble E ia task items;
         mret (Some (r, entries))
     end) w2 →
  items_by_entity ia k e ct jt w2 = (Ret (Some (pre ++ item :: post)), w3) →
  Forall (λ it, is_Some (made ia it)) pre →
  title item = None →
  (on_task_input order (Some ia) E task config w).1 = Raise (KeyError "title").
Proof.
  intros Hcollect Hitems Hpre Htitle. unfold on_task_input.
  rewrite run_bind, Hcollect, (run_bind_ret _ _ _ _ _ Hitems).
  assert (∀ w4, ∃ w5, assemble E ia task (pre ++ item :: post) w4
                      = (Raise (KeyError "title"), w5)) as Hraise.
  { intros w4. destruct (assemble_returns E ia task pre w4 Hpre) as (w5 & Hrun).
    exists w5. unfold assemble. eapply for_each_raise; [exact Hrun|].
    by rewrite run_add_entry, Htitle. }
  destruct (pre ++ item :: post) as [|m items] eqn:Hsplit;
    [by destruct pre|].
  rewrite run_bind, run_log, run_bind.
  destruct (Hraise {| heap := heap w3;
                      trace := trace w3
                               ++ [Log INFO (MsgRetrieved (length (m :: items)))] |})
    as (w5 & Hrun).
  by rewrite Hrun.
Qed.

(** The run for a Person up to the enumeration, on the lists the
    configuration asks for. *)
Lemma person_collect ia E task pre post config d s g e l cts w :
  (∀ k', k' ∈ pre → re_search (ENTITIES_FORMATS k') s = None) →
  re_search (ENTITIES_FORMATS Person) s = Some g →
  config_dict (heap w) config = Some d →
  d !! "id" = Some (VStr s) →
  get_person ia g = Ret e →
  requested (heap w) "actor" (d !! "job_types") = Some l →
  requested (heap w) "movie" (d !! "content_types") = Some cts →
  "actor" ∉ cts →
  ∃ r rc rj w2,
    collect (pre ++ Person :: post) E task ia config w
    = (items ← items_by_entity ia Person e (Some (VList rc)) (Some (VList rj));
       match items with
       | None | Some [] => log ERROR MsgNoItemList;; mret None
       | Some items =>
           log INFO (MsgRetrieved (length items));;
           entries ← assemble E ia task items;
           mret (Some (r, entries))
       end) w2
    ∧ heap w2 !! rj = Some (OList l)
    ∧ expanded_heap rj l (heap w2) !! rc = Some (OList cts).
Proof.
  intros Hpre Hk Hd Hid He Hjt Hct Hactor.
  destruct (prepare_config_facts config d w Hd)
    as (r & d' & w1 & Hprep & Hr & Hother & Hmax & Hnct & Hnjt & Hframe & _).
  assert (d' !! "id" = Some (VStr s)) as Hid'
    by by rewrite (Hother "id" id_not_prepared).
  assert (∀ r0 o, heap w !! r0 = Some (OList o) → heap w1 !! r0 = Some (OList o))
    as Hlists.
  { intros r0 o Hr0. apply Hframe; [done|]. intros ->. simpl in Hd.
    by rewrite Hr0 in Hd. }
  destruct (requested_normalised _ _ _ _ _ _ Hnjt Hlists Hjt) as (rj & Hdj & Hrj).
  destruct (requested_normalised _ _ _ _ _ _ Hnct Hlists Hct) as (rc & Hdc & Hrc).
  pose proof (run_collect_resolved ia E task pre Person post config r d' s g e
                w w1 Hpre Hk He Hprep Hr Hid') as Hcollect.
  rewrite Hdj, Hdc in Hcollect.
  exists r, rc, rj, (resolved_world Person g e w1).
  split; [done|]. split; [done|].
  apply expanded_heap_other; [done..|]. by intros ? [= <-].
Qed.

(** C10 as the code has it.  In the Person enumeration a hydrated work that
    equals no work collected so far and has no kind raises [KeyError]; one
    that equals no work collected so far, whose kind is requested and that
    has no title raises [TypeError]; in the assembly a work without a title
    raises [KeyError].  The exception ends the loop, and nothing in
    [on_task_input] catches it: in a run whose configuration resolves to the
    entity, when every work found before the faulty one hydrates into a
    record with kind and title (in the enumeration) or has a title and an id
    (in the assembly), the exception is the outcome of the run. *)
Theorem missing_kind_or_title_raises :
  (∀ ia cts movies m0 m w,
     update ia m0 = Ret m →
     contains (movie_eq ia) m movies = false →
     kind m = None →
     inspect_movie ia cts movies m0 w
     = (Raise (KeyError "kind"),
        {| heap := heap w; trace := trace w ++ [Call (update_call m0)] |}))
  ∧ (∀ ia cts movies m0 m k w,
       update ia m0 = Ret m →
       contains (movie_eq ia) m movies = false →
       kind m = Some k → k ∈ cts →
       title m = None →
       inspect_movie ia cts movies m0 w
       = (Raise TypeError,
          {| heap := heap w; trace := trace w ++ [Call (update_call m0)] |}))
  ∧ (∀ E ia task entries item w,
       title item = None →
       add_entry E ia task entries item w = (Raise (KeyError "title"), w))
  ∧ (∀ E ia task pre item post w entries w1,
       assemble E ia task pre w = (Ret entries, w1) →
       title item = None →
       assemble E ia task (pre ++ item :: post) w
       = (Raise (KeyError "title"), w1))
  ∧ (∀ ia E task kinds_before kinds_after config d s g e l cts w
       pre m0 post m,
       (∀ k', k' ∈ kinds_before → re_search (ENTITIES_FORMATS k') s = None) →
       re_search (ENTITIES_FORMATS Person) s = Some g →
       config_dict (heap w) config = Some d →
       d !! "id" = Some (VStr s) →
       get_person ia g = Ret e →
       requested (heap w) "actor" (d !! "job_types") = Some l →
       requested (heap w) "movie" (d !! "content_types") = Some cts →
       "actor" ∉ cts →
       candidates e (expanded l) cts = pre ++ m0 :: post →
       Forall (healthy ia) pre →
       update ia m0 = Ret m →
       contains (movie_eq ia) m
         (first_seen (movie_eq ia) (kind_in cts) (omap (hydrate ia) pre) [])
       = false →
       (kind m = None →
        (on_task_input (kinds_before ++ Person :: kinds_after) (Some ia) E task
           config w).1 = Raise (KeyError "kind"))
       ∧ (∀ k, kind m = Some k → k ∈ cts → title m = None →
            (on_task_input (kinds_before ++ Person :: kinds_after) (Some ia) E
               task config w).1 = Raise TypeError))
  ∧ (∀ ia E task kinds_before k kinds_after config d s g e w pre item post,
       (∀ k', k' ∈ kinds_before → re_search (ENTITIES_FORMATS k') s = None) →
       re_search (ENTITIES_FORMATS k) s = Some g →
       config_dict (heap w) config = Some d →
       d !! "id" = Some (VStr s) →
       get_entity ia k g = Ret e →
       (k = Company
        ∧ e !! "production companies" = Some (pre ++ item :: post))
       ∨ (k = Character ∧ character_works e = pre ++ item :: post) →
       Forall (λ it, is_Some (made ia it)) pre →
       title item = None →
       (on_task_input (kinds_before ++ k :: kinds_after) (Some ia) E task
          config w).1 = Raise (KeyError "title"))
  ∧ (run_plugin (backend_with (Ret {[ "actor movie" := [kindless] ]}) Ret)
       (ConfigStr "nm0000375") empty_world).1
    = Raise (KeyError "kind")
  ∧ (run_plugin (backend_with (Ret {[ "actor movie" := [untitled] ]}) Ret)
       (ConfigStr "nm0000375") empty_world).1
    = Raise TypeError
  ∧ (run_plugin
       (backend_with (Ret {[ "production companies" := [heat; untitled] ]}) Ret)
       (ConfigStr "co0051941") empty_world).1
    = Raise (KeyError "title").
Proof.
  split_and!.
  - intros ia cts movies m0 m w Hup Hnew Hkind.
    by rewrite run_inspect_movie, Hup, Hnew, Hkind.
  - intros ia cts movies m0 m k w Hup Hnew Hkind Hk Htitle.
    rewrite run_inspect_movie, Hup, Hnew, Hkind, Htitle.
    by rewrite bool_decide_eq_true_2.
  - intros E ia task entries item w Htitle.
    by rewrite run_add_entry, Htitle.
  - intros E ia task pre item post w entries w1 Hpre Htitle.
    unfold assemble. eapply for_each_raise; [exact Hpre|].
    by rewrite run_add_entry, Htitle.
  - intros ia E task kinds_before kinds_after config d s g e l cts w
      pre m0 post m Hkinds Hk Hd Hid He Hjt Hct Hactor Hcands Hpre Hup Hnew.
    destruct (person_collect ia E task kinds_before kinds_after config d s g e
                l cts w Hkinds Hk Hd Hid He Hjt Hct Hactor)
      as (r & rc & rj & w2 & Hcollect & Hrj & Hrc).
    pose proof (person_outcome ia e cts rc rj l w2 Hrj Hrc) as Hout.
    rewrite Hcands in Hout. split.
    + intros Hkind. apply (run_enumeration_raises _ _ _ _ _ _ _ _ _ _ _ _ _ Hcollect).
      rewrite Hout, (enumerated_raise ia cts pre m0 post (KeyError "kind"));
        [done..|].
      unfold inspected. by rewrite Hup, Hnew, Hkind.
    + intros k Hkind Hkc Htitle.
      apply (run_enumeration_raises _ _ _ _ _ _ _ _ _ _ _ _ _ Hcollect).
      rewrite Hout, (enumerated_raise ia cts pre m0 post TypeError);
        [done..|].
      unfold inspected. rewrite Hup, Hnew, Hkind, Htitle.
      by rewrite bool_decide_eq_true_2.
  - intros ia E task kinds_before k kinds_after config d s g e w pre item post
      Hkinds Hk Hd Hid He Hitems Hpre Htitle.
    destruct (prepare_config_facts config d w Hd)
      as (r & d' & w1 & Hprep & Hr & Hother & _).
    assert (d' !! "id" = Some (VStr s)) as Hid'
      by by rewrite (Hother "id" id_not_prepared).
    pose proof (run_collect_resolved ia E task kinds_before k kinds_after
                  config r d' s g e w w1 Hkinds Hk He Hprep Hr Hid')
      as Hcollect.
    eapply (run_assembly_raises _ _ _ _ _ _ _ _ _ _ _ _ pre item post);
      [exact Hcollect| |done..].
    destruct Hitems as [[-> Hpc]|[-> Hch]]; unfold items_by_entity.
    + rewrite run_ret, Hpc. reflexivity.
    + rewrite run_ret. fold (character_works e). rewrite Hch. reflexivity.
  - vm_compute. reflexivity.
  - vm_compute. reflexivity.
  - vm_compute. reflexivity.
Qed.

(** C10 as the code has it, at a person whose second work has no kind, at
    one whose second work has no title, and at a company whose second work
    has no title. *)
Lemma missing_kind_or_title_raises_witness :
  (on_task_input ([] ++ Person :: [Company; Character])
     (Some (backend_with (Ret {[ "actor movie" := [heat; kindless] ]}) Ret))
     plain_entries quiet_task (ConfigStr "nm0000375") empty_world).1
  = Raise (KeyError "kind")
  ∧ (on_task_input ([] ++ Person :: [Company; Character])
       (Some (backend_with (Ret {[ "actor movie" := [heat; untitled] ]}) Ret))
       plain_entries quiet_task (ConfigStr "nm0000375") empty_world).1
    = Raise TypeError
  ∧ (on_task_input ([] ++ Company :: [Person; Character])
       (Some (backend_with
                (Ret {[ "production companies" := [heat; untitled; ronin] ]})
                Ret))
       plain_entries quiet_task (ConfigStr "co0051941") empty_world).1
    = Raise (KeyError "title").
Proof.
  destruct missing_kind_or_title_raises
    as (_ & _ & _ & _ & Hperson & Hassembly & _).
  assert (∀ k' : entity_type,
            k' ∈ [] → re_search (ENTITIES_FORMATS k') "nm0000375" = None)
    as Hnone by (intros k' Hk'; by apply elem_of_nil in Hk').
  assert (∀ k' : entity_type,
            k' ∈ [] → re_search (ENTITIES_FORMATS k') "co0051941" = None)
    as Hnone' by (intros k' Hk'; by apply elem_of_nil in Hk').
  assert ("actor" ∉ ["movie"]) as Hactor
    by (rewrite list_elem_of_singleton; discriminate).
  assert (∀ e, Forall (healthy (backend_with (Ret e) Ret)) [heat]) as Hheat.
  { intros e. apply Forall_cons_2; [|apply Forall_nil_2].
    eexists; split; [reflexivity|split; eexists; reflexivity]. }
  assert (candidates ({[ "actor movie" := [heat; kindless] ]} : Entity)
            (expanded ["actor"]) ["movie"] = [heat] ++ kindless :: [])
    as Hkindless by (vm_compute; reflexivity).
  assert (candidates ({[ "actor movie" := [heat; untitled] ]} : Entity)
            (expanded ["actor"]) ["movie"] = [heat] ++ untitled :: [])
    as Huntitled by (vm_compute; reflexivity).
  split_and!.
  - destruct (Hperson
                (backend_with (Ret {[ "actor movie" := [heat; kindless] ]}) Ret)
                plain_entries quiet_task [] [Company; Character]
                (ConfigStr "nm0000375") {[ "id" := VStr "nm0000375" ]}
                "nm0000375" "0000375" {[ "actor movie" := [heat; kindless] ]}
                ["actor"] ["movie"] empty_world [heat] kindless [] kindless
                Hnone eq_refl eq_refl eq_refl eq_refl eq_refl eq_refl Hactor
                Hkindless (Hheat _) eq_refl eq_refl) as [Hkind _].
    exact (Hkind eq_refl).
  - destruct (Hperson
                (backend_with (Ret {[ "actor movie" := [heat; untitled] ]}) Ret)
                plain_entries quiet_task [] [Company; Character]
                (ConfigStr "nm0000375") {[ "id" := VStr "nm0000375" ]}
                "nm0000375" "0000375" {[ "actor movie" := [heat; untitled] ]}
                ["actor"] ["movie"] empty_world [heat] untitled [] untitled
                Hnone eq_refl eq_refl eq_refl eq_refl eq_refl eq_refl Hactor
                Huntitled (Hheat _) eq_refl eq_refl) as [_ Htitle].
    exact (Htitle "movie" eq_refl (list_elem_of_here _ _) eq_refl).
  - apply (Hassembly
             (backend_with
                (Ret {[ "production companies" := [heat; untitled; ronin] ]})
                Ret)
             plain_entries quiet_task [] Company [Person; Character]
             (ConfigStr "co0051941") {[ "id" := VStr "co0051941" ]}
             "co0051941" "0051941"
             {[ "production companies" := [heat; untitled; ronin] ]}
             empty_world [heat] untitled [ronin] Hnone' eq_refl eq_refl
             eq_refl eq_refl).
    + left. split; reflexivity.
    + apply Forall_cons_2; [eexists; reflexivity|apply Forall_nil_2].
    + reflexivity.
Defined.

(** * The rating rule *)

Section Unread.
Context (r : loc).

























End Unread.

Section UnreadRun.
Context (r : loc).











End UnreadRun.




